(** * Provider / model aggregation pipeline of the API endpoints page

    Shallow embedding of the pure helpers and of the refresh orchestrator of
    the API endpoints page ([src/unnamed/part_002]), of the older copy of the
    page ([src/unnamed/part_000]) and of the thinking-level helpers of the
    Claude settings page ([src/unnamed/part_003]).

    Text is modelled as [string] of 8-bit characters read as the code units
    U+0000..U+00FF (Latin-1); JavaScript's [trim], [toLowerCase] and the
    case folding of the regular-expression [i] flag are written out for that
    range.  The mask of [maskKey] uses U+2022, so [maskKey] works on lists of
    UTF-16 code units ([list N]). *)

From Stdlib Require Import Bool Arith Lia List String Ascii ZArith NArith.
From Stdlib Require Import Numbers.DecimalString Sorting.Permutation.
From Stdlib Require Numbers.DecimalNat.
Import ListNotations.
Open Scope string_scope.
Open Scope list_scope.
Set Warnings "-register-all".

(* ------------------------------------------------------------------ *)
(** ** Characters and strings *)

Module Text.

Definition code (c : ascii) : nat := nat_of_ascii c.

(** JavaScript [WhiteSpace] and [LineTerminator] in U+0000..U+00FF:
    TAB, LF, VT, FF, CR, SPACE, NBSP. *)
Definition is_ws (c : ascii) : bool :=
  let n := code c in
  ((Nat.leb 9 n) && (Nat.leb n 13)) || (Nat.eqb n 32) || (Nat.eqb n 160).

(** Line terminators that [.] does not match: LF and CR. *)
Definition is_line_terminator (c : ascii) : bool :=
  let n := code c in (Nat.eqb n 10) || (Nat.eqb n 13).

(** [String.prototype.toLowerCase] on U+0000..U+00FF. *)
Definition lower_char (c : ascii) : ascii :=
  let n := code c in
  if ((Nat.leb 65 n) && (Nat.leb n 90)) || ((Nat.leb 192 n) && (Nat.leb n 222) && negb (Nat.eqb n 215))
  then ascii_of_nat (n + 32) else c.

(** Canonicalize of the regular-expression [i] flag (non-unicode mode):
    the single code unit of [toUpperCase], unless the upper case is not one
    code unit (U+00DF) or maps a non-ASCII unit to ASCII.  The result may
    leave Latin-1 (U+00B5 -> U+039C, U+00FF -> U+0178), so it is an [N]. *)
Definition canonicalize (c : ascii) : N :=
  let n := code c in
  if ((Nat.leb 97 n) && (Nat.leb n 122)) || ((Nat.leb 224 n) && (Nat.leb n 254) && negb (Nat.eqb n 247))
  then N.of_nat (n - 32)
  else if Nat.eqb n 181 then 924%N
  else if Nat.eqb n 255 then 376%N
  else N.of_nat n.

Fixpoint smap (f : ascii -> ascii) (s : string) : string :=
  match s with
  | EmptyString => EmptyString
  | String c r => String (f c) (smap f r)
  end.

Definition toLowerCase (s : string) : string := smap lower_char s.

Fixpoint drop_ws (l : list ascii) : list ascii :=
  match l with
  | [] => []
  | c :: r => if is_ws c then drop_ws r else l
  end.

(** [String.prototype.trim]. *)
Definition trim (s : string) : string :=
  string_of_list_ascii
    (rev (drop_ws (rev (drop_ws (list_ascii_of_string s))))).

Definition is_empty (s : string) : bool := String.eqb s "".

Fixpoint join (sep : string) (l : list string) : string :=
  match l with
  | [] => ""
  | [x] => x
  | x :: r => x ++ sep ++ join sep r
  end.

End Text.

Import Text.

(* ------------------------------------------------------------------ *)
(** ** JSON values received from the backend *)

Module Js.

(** Numbers are modelled by their integer values. *)
Inductive jsval : Type :=
| JUndef
| JNull
| JBool (b : bool)
| JNum (n : Z)
| JStr (s : string)
| JArr (items : list jsval)
| JObj (fields : list (string * jsval)).

Definition Z_to_string (z : Z) : string := NilEmpty.string_of_int (Z.to_int z).

(** [String(v)]. *)
Fixpoint to_string (v : jsval) : string :=
  match v with
  | JUndef => "undefined"
  | JNull => "null"
  | JBool true => "true"
  | JBool false => "false"
  | JNum n => Z_to_string n
  | JStr s => s
  | JArr items =>
      join ","
        ((fix go (l : list jsval) : list string :=
            match l with
            | [] => []
            | (JUndef | JNull) :: r => "" :: go r
            | x :: r => to_string x :: go r
            end) items)
  | JObj _ => "[object Object]"
  end.

(** Own-property read [record[k]]; [JUndef] when absent. *)
Fixpoint get (fields : list (string * jsval)) (k : string) : jsval :=
  match fields with
  | [] => JUndef
  | (k', v) :: r => if String.eqb k k' then v else get r k
  end.

(** [a ?? b]. *)
Definition nullish (a b : jsval) : jsval :=
  match a with JUndef | JNull => b | _ => a end.

End Js.

Import Js.

(** [normalizeText = (value) => String(value ?? '').trim()]. *)
Definition normalizeText (v : jsval) : string := trim (to_string (nullish v (JStr ""))).

Definition normalizeStr (s : string) : string := trim s.

(** Key read from one element of the key list (shared by both copies). *)
Definition api_key_value (item : jsval) : jsval :=
  match item with
  | JStr s => JStr s
  | JObj record =>
      nullish (get record "api-key")
        (nullish (get record "apiKey")
           (nullish (get record "key") (get record "Key")))
  | _ => JStr ""
  end.

(* ------------------------------------------------------------------ *)
(** ** [normalizeApiKeyList] of the endpoints page (part_002) *)

(** The [seen] set and the [keys] array threaded through [forEach]. *)
Record key_acc := { seen : list string; keys : list string }.

Module ApiKeys.

Definition step (s : key_acc) (item : jsval) : key_acc :=
  let apiKey := normalizeText (api_key_value item) in
  if is_empty apiKey then s
  else
    let key := toLowerCase apiKey in
    if existsb (String.eqb key) s.(seen) then s
    else {| seen := key :: s.(seen); keys := s.(keys) ++ [apiKey] |}.

Definition normalizeApiKeyList (input : jsval) : list string :=
  match input with
  | JArr items => (fold_left step items {| seen := []; keys := [] |}).(keys)
  | _ => []
  end.

End ApiKeys.

(** ** [normalizeApiKeyList] of the older page copy (part_000) *)

Module LegacyApiKeys.

Definition step (s : key_acc) (item : jsval) : key_acc :=
  let trimmed := trim (to_string (nullish (api_key_value item) (JStr ""))) in
  if is_empty trimmed || existsb (String.eqb trimmed) s.(seen) then s
  else {| seen := trimmed :: s.(seen); keys := s.(keys) ++ [trimmed] |}.

Definition normalizeApiKeyList (input : jsval) : list string :=
  match input with
  | JArr items => (fold_left step items {| seen := []; keys := [] |}).(keys)
  | _ => []
  end.

End LegacyApiKeys.

(** Spec-side reading: an element is kept when no earlier element of the
    input has the same [key]. *)
Fixpoint first_occurrences_from (key : string -> string) (prev l : list string) : list string :=
  match l with
  | [] => []
  | x :: r =>
      if existsb (fun p => String.eqb (key p) (key x)) prev
      then first_occurrences_from key (prev ++ [x]) r
      else x :: first_occurrences_from key (prev ++ [x]) r
  end.

Definition dedup_by (key : string -> string) (l : list string) : list string :=
  first_occurrences_from key [] l.

(** Keys the spec promises: the trimmed non-empty keys of the elements, in
    order, with exact duplicates removed. *)
Definition spec_api_keys (items : list jsval) : list string :=
  dedup_by (fun s => s)
    (filter (fun s => negb (is_empty s)) (map (fun it => normalizeText (api_key_value it)) items)).

Definition spec_api_keys_ci (items : list jsval) : list string :=
  dedup_by toLowerCase
    (filter (fun s => negb (is_empty s)) (map (fun it => normalizeText (api_key_value it)) items)).

(* ------------------------------------------------------------------ *)
(** ** [ModelInfo] and [dedupeModels] *)

Record ModelInfo := { name : string; alias : option string; description : option string }.

(** [normalizeText] of an optional string field. *)
Definition normalizeOpt (o : option string) : string :=
  match o with None => "" | Some s => trim s end.

Record model_acc := { seen_names : list string; result : list ModelInfo }.

Definition dedupe_step (acc : model_acc) (model : ModelInfo) : model_acc :=
  let name0 := trim model.(name) in
  if is_empty name0 then acc
  else
    let key := toLowerCase name0 in
    if existsb (String.eqb key) acc.(seen_names) then acc
    else
      let alias0 := normalizeOpt model.(alias) in
      let description0 := normalizeOpt model.(description) in
      let next :=
        {| name := name0;
           alias := if negb (is_empty alias0) && negb (String.eqb (toLowerCase alias0) key)
                    then Some alias0 else None;
           description := if negb (is_empty description0) then Some description0 else None |} in
      {| seen_names := key :: acc.(seen_names); result := acc.(result) ++ [next] |}.

Definition dedupeModels (models : list ModelInfo) : list ModelInfo :=
  (fold_left dedupe_step models {| seen_names := []; result := [] |}).(result).

(* ------------------------------------------------------------------ *)
(** ** Exclusion patterns: [matchExcludePattern] *)

Module Regex.

(** [String.prototype.includes] of one character. *)
Fixpoint has_char (c : ascii) (s : string) : bool :=
  match s with
  | EmptyString => false
  | String d r => Ascii.eqb c d || has_char c r
  end.

(** [s.split(sep)] for a one-character separator. *)
Fixpoint split_char (sep : ascii) (s : string) : list string :=
  match s with
  | EmptyString => [""]
  | String c r =>
      let parts := split_char sep r in
      if Ascii.eqb c sep then "" :: parts
      else match parts with
           | p :: ps => String c p :: ps
           | [] => [String c ""]
           end
  end.

(** The class [[.*+?^${}()|[\]\\]] of the escaping [replace]. *)
Definition is_regex_special (c : ascii) : bool :=
  existsb (Ascii.eqb c) (list_ascii_of_string ".*+?^${}()|[]\").

(** [segment.replace(/[.*+?^${}()|[\]\\]/g, '\\$&')]. *)
Fixpoint escape_regex (s : string) : string :=
  match s with
  | EmptyString => EmptyString
  | String c r =>
      if is_regex_special c then String "\" (String c (escape_regex r))
      else String c (escape_regex r)
  end.

(** The fragment of [RegExp] pattern syntax the page builds: assertions
    [^] and [$], literal and escaped characters, [.] and the quantifier [*]. *)
Inductive ratom := RLit (c : ascii) | RDot.
Inductive rtoken := TkBol | TkEol | TkAtom (a : ratom) | TkStar.
Inductive rterm := RBol | REol | RAtom (a : ratom) | RStar (a : ratom).

(** Pattern source to tokens; [None] is a [SyntaxError] (a lone [\] at the
    end, or a syntax character outside the fragment). *)
Fixpoint lex_regex (l : list ascii) : option (list rtoken) :=
  match l with
  | [] => Some []
  | c :: r =>
      if Ascii.eqb c "\" then
        match r with
        | [] => None
        | d :: r' => option_map (cons (TkAtom (RLit d))) (lex_regex r')
        end
      else if Ascii.eqb c "^" then option_map (cons TkBol) (lex_regex r)
      else if Ascii.eqb c "$" then option_map (cons TkEol) (lex_regex r)
      else if Ascii.eqb c "." then option_map (cons (TkAtom RDot)) (lex_regex r)
      else if Ascii.eqb c "*" then option_map (cons TkStar) (lex_regex r)
      else if is_regex_special c then None
      else option_map (cons (TkAtom (RLit c))) (lex_regex r)
  end.

(** Attach each [*] to the atom before it ("nothing to repeat" otherwise). *)
Fixpoint group_terms (ts : list rtoken) : option (list rterm) :=
  match ts with
  | [] => Some []
  | TkBol :: r => option_map (cons RBol) (group_terms r)
  | TkEol :: r => option_map (cons REol) (group_terms r)
  | TkStar :: _ => None
  | TkAtom a :: TkStar :: r => option_map (cons (RStar a)) (group_terms r)
  | TkAtom a :: r => option_map (cons (RAtom a)) (group_terms r)
  end.

Definition parse_regex (src : string) : option (list rterm) :=
  match lex_regex (list_ascii_of_string src) with
  | Some ts => group_terms ts
  | None => None
  end.

(** One character against one atom, with the [i] flag. *)
Definition atom_matches (a : ratom) (c : ascii) : bool :=
  match a with
  | RLit d => N.eqb (canonicalize d) (canonicalize c)
  | RDot => negb (is_line_terminator c)
  end.

(** Backtracking matcher: [pos] is the index of [s] in the whole input
    (for [^]); the star is greedy. *)
Fixpoint match_here (ts : list rterm) (pos : nat) (s : list ascii) : bool :=
  match ts with
  | [] => true
  | RBol :: r => Nat.eqb pos 0 && match_here r pos s
  | REol :: r => match s with [] => match_here r pos s | _ => false end
  | RAtom a :: r =>
      match s with
      | [] => false
      | c :: s' => atom_matches a c && match_here r (S pos) s'
      end
  | RStar a :: r =>
      (fix star (pos : nat) (s : list ascii) : bool :=
         match s with
         | [] => false
         | c :: s' => atom_matches a c && star (S pos) s'
         end || match_here r pos s) pos s
  end.

(** [RegExp.prototype.test] (no [g], [y] or [m] flag): try every start. *)
Fixpoint test_from (ts : list rterm) (pos : nat) (s : list ascii) : bool :=
  match_here ts pos s ||
  match s with
  | [] => false
  | _ :: s' => test_from ts (S pos) s'
  end.

Definition regex_test (ts : list rterm) (input : string) : bool :=
  test_from ts 0 (list_ascii_of_string input).

(** The pattern source [^...$] built by [matchExcludePattern]. *)
Definition wildcard_source (pattern : string) : string :=
  "^" ++ join ".*" (map escape_regex (split_char "*" pattern)) ++ "$".

End Regex.

Import Regex.

(** [matchExcludePattern].  A [SyntaxError] of [new RegExp] would be
    thrown; the model answers [false] there (it does not arise, see
    [wildcard_source_parses]). *)
Definition matchExcludePattern (model pattern : string) : bool :=
  if negb (has_char "*" pattern) then
    String.eqb (toLowerCase model) (toLowerCase pattern)
  else
    match parse_regex (wildcard_source pattern) with
    | Some re => regex_test re model
    | None => false
    end.

Record pattern_acc := { seen_patterns : list string; normalized : list string }.

Definition normalizeExcludedPatterns (patterns : option (list string)) : list string :=
  match patterns with
  | None | Some [] => []
  | Some ps =>
      (fold_left
         (fun acc pattern =>
            let trimmed := trim pattern in
            if is_empty trimmed then acc
            else
              let key := toLowerCase trimmed in
              if existsb (String.eqb key) acc.(seen_patterns) then acc
              else {| seen_patterns := key :: acc.(seen_patterns);
                      normalized := acc.(normalized) ++ [trimmed] |})
         ps {| seen_patterns := []; normalized := [] |}).(normalized)
  end.

Definition filterExcludedModels (models : list ModelInfo) (patterns : option (list string))
  : list ModelInfo :=
  let normalizedPatterns := normalizeExcludedPatterns patterns in
  match normalizedPatterns with
  | [] => models
  | _ =>
      filter
        (fun model =>
           let candidates :=
             filter (fun c => negb (is_empty c)) [trim model.(name); normalizeOpt model.(alias)] in
           match candidates with
           | [] => true
           | _ =>
               negb (existsb (fun candidate =>
                        existsb (fun pattern => matchExcludePattern candidate pattern)
                          normalizedPatterns) candidates)
           end)
        models
  end.

(* ------------------------------------------------------------------ *)
(** ** Model list builder *)

(** Item of a configured provider's [models] list. *)
Record ConfiguredModel := { cm_name : string; cm_alias : option string }.

(** Item of an OpenAI-style model listing. *)
Record ApiModel := { id : string; display_name : option string }.

Definition convert_configured_model (model : ConfiguredModel) : option ModelInfo :=
  let rawName := trim model.(cm_name) in
  if is_empty rawName then None
  else
    let alias0 := normalizeOpt model.(cm_alias) in
    if negb (is_empty alias0) && negb (String.eqb (toLowerCase alias0) (toLowerCase rawName))
    then Some {| name := alias0; alias := Some rawName; description := None |}
    else Some {| name := rawName; alias := None; description := None |}.

Definition convertConfiguredModels (models : option (list ConfiguredModel)) : list ModelInfo :=
  match models with
  | None => []
  | Some ms => dedupeModels (flat_map (fun m => match convert_configured_model m with
                                                | Some x => [x] | None => [] end) ms)
  end.

Definition normalize_auth_api_model (model : ApiModel) : option ModelInfo :=
  let id0 := trim model.(id) in
  if is_empty id0 then None
  else
    let alias0 := normalizeOpt model.(display_name) in
    if negb (is_empty alias0) && negb (String.eqb (toLowerCase alias0) (toLowerCase id0))
    then Some {| name := id0; alias := Some alias0; description := None |}
    else Some {| name := id0; alias := None; description := None |}.

Definition normalizeAuthApiModels (models : list ApiModel) : list ModelInfo :=
  dedupeModels (flat_map (fun m => match normalize_auth_api_model m with
                                   | Some x => [x] | None => [] end) models).

(** A JS object used as a string-keyed map, in key order. *)
Definition dict (A : Type) := list (string * A).

Fixpoint dict_get {A} (d : dict A) (k : string) : option A :=
  match d with
  | [] => None
  | (k', v) :: r => if String.eqb k k' then Some v else dict_get r k
  end.

(** [d[k] = v]: overwrite in place, or append a new key. *)
Fixpoint dict_set {A} (d : dict A) (k : string) (v : A) : dict A :=
  match d with
  | [] => [(k, v)]
  | (k', v') :: r => if String.eqb k k' then (k', v) :: r else (k', v') :: dict_set r k v
  end.

(** A plain JS object of strings ([{}]): its own properties, in insertion
    order, over [Object.prototype]. *)

(** [o[k] = v]: the key ["__proto__"] reaches the [Object.prototype]
    setter, which ignores a value that is not an object. *)
Definition obj_set {A} (o : dict A) (k : string) (v : A) : dict A :=
  if String.eqb k "__proto__" then o else dict_set o k v.

(** The methods of [Object.prototype] other than [constructor]. *)
Definition object_prototype_methods : list string :=
  ["__defineGetter__"; "__defineSetter__"; "hasOwnProperty"; "__lookupGetter__";
   "__lookupSetter__"; "isPrototypeOf"; "propertyIsEnumerable"; "toString"; "valueOf";
   "toLocaleString"].

(** [String(v)] of what a plain object inherits under [k]: under
    ["__proto__"] the prototype itself, under [constructor] the function
    [Object], under a method's name that built-in function. *)
Definition inherited_text (k : string) : option string :=
  if String.eqb k "__proto__" then Some "[object Object]"
  else if String.eqb k "constructor" then Some "function Object() { [native code] }"
  else if existsb (String.eqb k) object_prototype_methods
  then Some ("function " ++ k ++ "() { [native code] }")%string
  else None.

(** [normalizeText(o[k])], i.e. [String(o[k] ?? '').trim()]: an own
    property first, otherwise what the object inherits. *)
Definition obj_get_text (o : dict string) (k : string) : string :=
  match dict_get o k with
  | Some v => trim v
  | None => normalizeOpt (inherited_text k)
  end.

Definition applyAliasLookup (models : list ModelInfo) (lookup : option (dict string))
  : list ModelInfo :=
  match lookup with
  | None | Some [] => dedupeModels models
  | Some lk =>
      dedupeModels
        (map (fun model =>
                let rawName := trim model.(name) in
                if is_empty rawName then model
                else
                  let mappedAlias := obj_get_text lk (toLowerCase rawName) in
                  if is_empty mappedAlias then model
                  else if String.eqb (toLowerCase mappedAlias) (toLowerCase rawName) then model
                  else {| name := mappedAlias; alias := Some rawName;
                          description := model.(description) |})
             models)
  end.

(* ------------------------------------------------------------------ *)
(** ** Provider entries *)

Definition isTruthyFlag (value : jsval) : bool :=
  match value with
  | JBool true => true
  | JNum n => negb (Z.eqb n 0)
  | JStr s =>
      let normalized0 := toLowerCase (trim s) in
      existsb (String.eqb normalized0) ["true"; "1"; "yes"; "y"; "on"]
  | _ => false
  end.

Record AuthFileItem := {
  af_name : string;
  af_provider : option string;
  af_type : option string;
  af_disabled : jsval;
  af_unavailable : jsval
}.

Record OAuthModelAliasEntry := { oa_name : string; oa_alias : string }.

Inductive EndpointSourceKind := AuthProxy | ConfiguredApi.

Record EndpointProviderEntry := {
  entry_id : string;
  sourceKind : EndpointSourceKind;
  providerKey : string;
  entry_name : string;
  baseUrl : string;
  keyOptions : list string;
  order : nat;
  configuredModels : option (list ModelInfo);
  authFileNames : option (list string);
  aliasLookup : option (dict string);
  excludedPatterns : option (list string);
  realBaseUrl : option string;
  realKeyOptions : option (list string)
}.

(** [normalizeProviderKey]. *)
Definition normalizeProviderKey (s : string) : string := toLowerCase (trim s).

(** JS truthiness of an optional string. *)
Definition truthy_str (o : option string) : bool :=
  match o with Some s => negb (is_empty s) | None => false end.

Definition buildAliasLookup (entries : option (list OAuthModelAliasEntry)) : dict string :=
  match entries with
  | None | Some [] => []
  | Some es =>
      fold_left (fun lookup entry =>
                   let name0 := toLowerCase (trim entry.(oa_name)) in
                   let alias0 := trim entry.(oa_alias) in
                   if is_empty name0 || is_empty alias0 then lookup
                   else obj_set lookup name0 alias0) es []
  end.

Record group := { label : string; g_order : nat; files : list string }.

(** [Set.prototype.add]. *)
Definition set_add (x : string) (l : list string) : list string :=
  if existsb (String.eqb x) l then l else l ++ [x].

Record group_acc := { grouped : dict group; next_order : nat }.

Definition group_step (acc : group_acc) (file : AuthFileItem) : group_acc :=
  if isTruthyFlag file.(af_disabled) || isTruthyFlag file.(af_unavailable) then acc
  else
    let rawProvider :=
      trim (if truthy_str file.(af_provider) then normalizeOpt file.(af_provider)
            else normalizeOpt file.(af_type)) in
    let pk := normalizeProviderKey rawProvider in
    if is_empty pk then acc
    else
      let fileName := trim file.(af_name) in
      if is_empty fileName then acc
      else
        match dict_get acc.(grouped) pk with
        | Some existing =>
            {| grouped := dict_set acc.(grouped) pk
                            {| label := existing.(label); g_order := existing.(g_order);
                               files := set_add fileName existing.(files) |};
               next_order := acc.(next_order) |}
        | None =>
            {| grouped := dict_set acc.(grouped) pk
                            {| label := rawProvider; g_order := acc.(next_order);
                               files := [fileName] |};
               next_order := S acc.(next_order) |}
        end.

(** Stable sort of the map entries by [order] ascending. *)
Fixpoint insert_by_order (x : string * group) (l : list (string * group)) :=
  match l with
  | [] => [x]
  | y :: r => if Nat.leb (snd x).(g_order) (snd y).(g_order) then x :: y :: r
              else y :: insert_by_order x r
  end.

Definition sort_by_order (l : list (string * group)) : list (string * group) :=
  fold_right insert_by_order [] l.

Definition buildAuthProviderEntries (authFiles : list AuthFileItem)
  (aliasMap : dict (list OAuthModelAliasEntry)) (excludedMap : dict (list string))
  (baseUrl0 : string) (keyOptions0 : list string) : list EndpointProviderEntry :=
  let acc := fold_left group_step authFiles {| grouped := []; next_order := 0 |} in
  map (fun '(pk, data) =>
         {| entry_id := "auth:" ++ pk;
            sourceKind := AuthProxy;
            providerKey := pk;
            entry_name := data.(label);
            baseUrl := baseUrl0;
            keyOptions := keyOptions0;
            order := data.(g_order);
            configuredModels := None;
            authFileNames := Some data.(files);
            aliasLookup := Some (buildAliasLookup (dict_get aliasMap pk));
            excludedPatterns := Some (normalizeExcludedPatterns (dict_get excludedMap pk));
            realBaseUrl := None;
            realKeyOptions := None |})
      (sort_by_order acc.(grouped)).

(* ------------------------------------------------------------------ *)
(** ** Resolving a provider's models *)

(** A rejection value: an [Error] instance, a thrown string, or anything else
    (with its JS truthiness: [null], [undefined], [0], [false] are falsy). *)
Inductive jserror := ErrInstance (message : string) | ErrString (s : string) | ErrOther (truthy : bool).

(** JS truthiness of a rejection value. *)
Definition error_truthy (e : jserror) : bool :=
  match e with
  | ErrInstance _ => true
  | ErrString s => negb (is_empty s)
  | ErrOther b => b
  end.

Inductive outcome (A : Type) := Ok (a : A) | Err (e : jserror).
Arguments Ok {A} a.
Arguments Err {A} e.

Definition is_ok {A} (r : outcome A) : bool := match r with Ok _ => true | Err _ => false end.

(** [fetchAuthProxyModels entry]: [defs] is the settlement of
    [getModelDefinitions(providerKey)] and [per_file n] the settlement of
    [getModelsForAuthFile(n)]. *)
Definition fetchAuthProxyModels (entry : EndpointProviderEntry)
  (defs : outcome (list ApiModel)) (per_file : string -> outcome (list ApiModel))
  : outcome (list ModelInfo) :=
  let pk := normalizeProviderKey entry.(providerKey) in
  if is_empty pk then Ok []
  else
    let '(models0, definitionError) :=
      match defs with
      | Ok definitionModels => (normalizeAuthApiModels definitionModels, None)
      | Err error => ([], Some error)
      end in
    let post (ms : list ModelInfo) :=
      filterExcludedModels (applyAliasLookup ms entry.(aliasLookup)) entry.(excludedPatterns) in
    match models0, entry.(authFileNames) with
    | [], Some ((_ :: _) as names) =>
        let settled := map per_file names in
        let collected :=
          flat_map (fun r => match r with Ok v => normalizeAuthApiModels v | Err _ => [] end)
            settled in
        let hasFulfilled := existsb is_ok settled in
        let models1 := dedupeModels collected in
        match hasFulfilled, definitionError with
        | false, Some error => if error_truthy error then Err error else Ok (post models1)
        | _, _ => Ok (post models1)
        end
    | _, _ => Ok (post models0)
    end.

(* ------------------------------------------------------------------ *)
(** ** Refresh orchestrator *)

Inductive Status := Idle | Loading | Success | Error.

Record ProviderModelsState := { status : Status; models : list ModelInfo; error : option string }.

(** The two pieces of page state the refresh functions touch:
    [providerFetchTokenRef.current] and [modelsByProvider]. *)
Record PageState := { tokens : dict nat; modelsByProvider : dict ProviderModelsState }.

Definition prev_models (m : dict ProviderModelsState) (k : string) : list ModelInfo :=
  match dict_get m k with Some st => st.(models) | None => [] end.

Definition loading_state (prev : dict ProviderModelsState) (k : string) : ProviderModelsState :=
  {| status := Loading; models := prev_models prev k; error := None |}.

(** [t('api_endpoints.models_load_failed')]. *)
Definition models_load_failed : string := "api_endpoints.models_load_failed".

Definition error_message (e : jserror) : string :=
  match e with
  | ErrInstance m => m
  | ErrString s => s
  | ErrOther _ => models_load_failed
  end.

(** Synchronous part of [refreshSingleProviderModels]: take a token and mark
    the provider loading; returns the token captured by this call. *)
Definition refresh_start (s : PageState) (entry : EndpointProviderEntry) : PageState * nat :=
  let k := entry.(entry_id) in
  let nextToken := S (match dict_get s.(tokens) k with Some t => t | None => 0 end) in
  ({| tokens := dict_set s.(tokens) k nextToken;
      modelsByProvider := dict_set s.(modelsByProvider) k (loading_state s.(modelsByProvider) k) |},
   nextToken).

(** Continuation after the model list settled with [res]. *)
Definition refresh_finish (s : PageState) (entry : EndpointProviderEntry) (nextToken : nat)
  (res : outcome (list ModelInfo)) : PageState :=
  let k := entry.(entry_id) in
  if negb (match dict_get s.(tokens) k with Some t => Nat.eqb t nextToken | None => false end)
  then s
  else
    match res with
    | Ok ms =>
        {| tokens := s.(tokens);
           modelsByProvider := dict_set s.(modelsByProvider) k
                                 {| status := Success; models := ms; error := None |} |}
    | Err e =>
        {| tokens := s.(tokens);
           modelsByProvider := dict_set s.(modelsByProvider) k
                                 {| status := Error; models := prev_models s.(modelsByProvider) k;
                                    error := Some (error_message e) |} |}
    end.

(** How the model list of [entry] settles. *)
Definition resolve_models (entry : EndpointProviderEntry)
  (defs : outcome (list ApiModel)) (per_file : string -> outcome (list ApiModel))
  : outcome (list ModelInfo) :=
  match entry.(sourceKind) with
  | ConfiguredApi =>
      Ok (dedupeModels (match entry.(configuredModels) with Some ms => ms | None => [] end))
  | AuthProxy => fetchAuthProxyModels entry defs per_file
  end.

(** The updater of [refreshAllProviderModels] before its batches. *)
Definition refresh_all_loading (entries : list EndpointProviderEntry)
  (prev : dict ProviderModelsState) : dict ProviderModelsState :=
  match entries with
  | [] => []
  | _ => fold_left (fun next entry =>
                      dict_set next entry.(entry_id) (loading_state prev entry.(entry_id)))
           entries []
  end.

(** Every [setModelsByProvider] updater of the page. *)
Inductive models_update :=
| USingleLoading (entry : EndpointProviderEntry)
| USuccess (entry : EndpointProviderEntry) (ms : list ModelInfo)
| UError (entry : EndpointProviderEntry) (e : jserror)
| UAllLoading (entries : list EndpointProviderEntry)
| UReset.

Definition apply_update (u : models_update) (prev : dict ProviderModelsState)
  : dict ProviderModelsState :=
  match u with
  | USingleLoading entry => dict_set prev entry.(entry_id) (loading_state prev entry.(entry_id))
  | USuccess entry ms =>
      dict_set prev entry.(entry_id) {| status := Success; models := ms; error := None |}
  | UError entry e =>
      dict_set prev entry.(entry_id)
        {| status := Error; models := prev_models prev entry.(entry_id);
           error := Some (error_message e) |}
  | UAllLoading entries => refresh_all_loading entries prev
  | UReset => []
  end.

(* ------------------------------------------------------------------ *)
(** ** Thinking-level suffix (Claude settings page, part_003) *)

Inductive ThinkingLevel := Low | Medium | High | XHigh.

Definition level_string (l : ThinkingLevel) : string :=
  match l with Low => "low" | Medium => "medium" | High => "high" | XHigh => "xhigh" end.

(** [THINKING_LEVEL_SET.has]. *)
Definition level_of_string (s : string) : option ThinkingLevel :=
  if String.eqb s "low" then Some Low
  else if String.eqb s "medium" then Some Medium
  else if String.eqb s "high" then Some High
  else if String.eqb s "xhigh" then Some XHigh
  else None.

Definition is_paren (c : ascii) : bool := Ascii.eqb c "(" || Ascii.eqb c ")".

(** Does [rest] match the parenthesised suffix?  Returns the capture. *)
Definition suffix_group (rest : list ascii) : option (list ascii) :=
  match rest with
  | c :: r =>
      if Ascii.eqb c "(" then
        match rev r with
        | d :: rmid =>
            let mid := rev rmid in
            if Ascii.eqb d ")" && negb (Nat.eqb (List.length mid) 0) && forallb (fun x => negb (is_paren x)) mid
            then Some mid else None
        | [] => None
        end
      else None
  | [] => None
  end.

(** The regular expression of [parseModelWithThinking], by backtracking:
    an anchored greedy group of [.] (longest prefix first; [.] does not match
    line terminators), then an opening parenthesis, a captured non-empty run
    of non-parenthesis characters, and a closing parenthesis at the end. *)
Fixpoint thinking_search (i : nat) (s : list ascii) : option (list ascii * list ascii) :=
  let attempt :=
    if forallb (fun c => negb (is_line_terminator c)) (firstn i s) then
      match suffix_group (skipn i s) with
      | Some mid => Some (firstn i s, mid)
      | None => None
      end
    else None in
  match attempt with
  | Some r => Some r
  | None => match i with O => None | S j => thinking_search j s end
  end.

Definition thinking_match (s : string) : option (string * string) :=
  let l := list_ascii_of_string s in
  match thinking_search (List.length l) l with
  | Some (g1, g2) => Some (string_of_list_ascii g1, string_of_list_ascii g2)
  | None => None
  end.

Definition parseModelWithThinking (value : string) : string * option ThinkingLevel :=
  let normalized0 := trim value in
  if is_empty normalized0 then ("", None)
  else
    match thinking_match normalized0 with
    | None => (normalized0, None)
    | Some (g1, g2) =>
        let baseModel := trim g1 in
        let rawLevel := toLowerCase (trim g2) in
        match level_of_string rawLevel with
        | Some lvl => if negb (is_empty baseModel) then (baseModel, Some lvl) else (normalized0, None)
        | None => (normalized0, None)
        end
    end.

Definition formatModelWithThinking (baseModel : string) (thinking : option ThinkingLevel) : string :=
  let normalized0 := trim baseModel in
  if is_empty normalized0 then ""
  else match thinking with
       | None => normalized0
       | Some lvl => normalized0 ++ "(" ++ level_string lvl ++ ")"
       end.

(* ------------------------------------------------------------------ *)
(** ** [maskKey], on UTF-16 code units *)

Module Mask.

Definition bullet : N := 8226%N.

(** [key.slice(-4)]. *)
Definition slice_last (n : nat) (l : list N) : list N := skipn (List.length l - n) l.

Definition maskKey (key : list N) : list N :=
  if Nat.leb (List.length key) 8 then repeat bullet 8
  else firstn 5 key ++ repeat bullet (Nat.min (List.length key - 8) 16) ++ slice_last 4 key.

End Mask.

(* ------------------------------------------------------------------ *)
(** ** Spec-side reading of [dedupeModels] *)

(** The case-insensitive key of a model's trimmed name. *)
Definition name_key (m : ModelInfo) : string := toLowerCase (trim m.(name)).

(** The models kept: a non-empty trimmed name whose key no earlier model
    of the input (in [prev]) has. *)
Fixpoint first_seen (prev : list ModelInfo) (ms : list ModelInfo) : list ModelInfo :=
  match ms with
  | [] => []
  | m :: r =>
      if negb (is_empty (trim m.(name)))
         && negb (existsb (fun p => String.eqb (name_key p) (name_key m)) prev)
      then m :: first_seen (prev ++ [m]) r
      else first_seen (prev ++ [m]) r
  end.

(** A kept model as output: trimmed name, alias only when non-empty and not
    the name up to case, description only when non-empty. *)
Definition clean_model (m : ModelInfo) : ModelInfo :=
  let n := trim m.(name) in
  let a := normalizeOpt m.(alias) in
  let d := normalizeOpt m.(description) in
  {| name := n;
     alias := if negb (is_empty a) && negb (String.eqb (toLowerCase a) (toLowerCase n))
              then Some a else None;
     description := if negb (is_empty d) then Some d else None |}.

(* ------------------------------------------------------------------ *)
(** ** Spec-side reading of wildcard patterns *)

(** Equality up to case, as [toLowerCase] sees it. *)
Definition ci_eq (s t : list ascii) : Prop := map lower_char s = map lower_char t.

(** What the anchored, case-insensitive [^seg1.*seg2...$] accepts: the
    literal runs in order, each equal up to case to a piece of the input,
    separated by runs of non-line-terminator characters. *)
Inductive glob_match : list (list ascii) -> list ascii -> Prop :=
| glob_last seg s :
    ci_eq seg s -> glob_match [seg] s
| glob_cons seg segs s1 mid s2 :
    segs <> [] -> ci_eq seg s1 -> forallb (fun c => negb (is_line_terminator c)) mid = true ->
    glob_match segs s2 -> glob_match (seg :: segs) (s1 ++ mid ++ s2).

Definition lit_tokens (seg : list ascii) : list rtoken := map (fun c => TkAtom (RLit c)) seg.
Definition lit_terms (seg : list ascii) : list rterm := map (fun c => RAtom (RLit c)) seg.

(** Tokens and terms of [join('.*')] of escaped segments. *)
Fixpoint wild_tokens (segs : list (list ascii)) : list rtoken :=
  match segs with
  | [] => []
  | [s] => lit_tokens s
  | s :: r => lit_tokens s ++ TkAtom RDot :: TkStar :: wild_tokens r
  end.

Fixpoint wild_terms (segs : list (list ascii)) : list rterm :=
  match segs with
  | [] => []
  | [s] => lit_terms s
  | s :: r => lit_terms s ++ RStar RDot :: wild_terms r
  end.

Definition all_chars : list ascii := map ascii_of_nat (seq 0 256).

(* ------------------------------------------------------------------ *)
(** ** Spec-side reading of the alias conventions *)

(** A non-empty alias that differs from the name up to case (both trimmed). *)
Definition alias_differs (n a : string) : bool :=
  negb (is_empty (trim a)) && negb (String.eqb (toLowerCase (trim a)) (toLowerCase (trim n))).

(** [{name: alias, alias: original name}]. *)
Definition swapped_model (n a : string) : ModelInfo :=
  {| name := trim a; alias := Some (trim n); description := None |}.

(** [{name: id, alias: display_name}]. *)
Definition kept_model (i d : string) : ModelInfo :=
  {| name := trim i; alias := Some (trim d); description := None |}.

(* ------------------------------------------------------------------ *)
(** ** Sample values *)

(** An auth-proxy entry as [buildAuthProviderEntries] makes it. *)
Definition sample_entry (k : string) (files : list string) : EndpointProviderEntry :=
  {| entry_id := "auth:" ++ k; sourceKind := AuthProxy; providerKey := k;
     entry_name := k; baseUrl := ""; keyOptions := []; order := 0;
     configuredModels := None; authFileNames := Some files; aliasLookup := None;
     excludedPatterns := None; realBaseUrl := None; realKeyOptions := None |}.

Definition sample_model (n : string) : ModelInfo :=
  {| name := n; alias := None; description := None |}.

(* ------------------------------------------------------------------ *)
(** ** One attempt of the thinking-suffix search *)

(** The attempt of [thinking_search] with the group ending at [i]. *)
Definition thinking_attempt (i : nat) (s : list ascii) : option (list ascii * list ascii) :=
  if forallb (fun c => negb (is_line_terminator c)) (firstn i s) then
    match suffix_group (skipn i s) with
    | Some mid => Some (firstn i s, mid)
    | None => None
    end
  else None.

(** A base name that is its own trim, non-empty, on one line. *)
Definition single_line_base (base : string) : bool :=
  String.eqb (trim base) base && negb (is_empty base)
  && forallb (fun c => negb (is_line_terminator c)) (list_ascii_of_string base).

(* ------------------------------------------------------------------ *)
(** ** Spec-side reading of the credential-file grouping *)

(** The trimmed [provider || type] of a file. *)
Definition file_raw_provider (f : AuthFileItem) : string :=
  trim (if truthy_str f.(af_provider) then normalizeOpt f.(af_provider)
        else normalizeOpt f.(af_type)).

(** Its lower-cased provider key. *)
Definition file_key (f : AuthFileItem) : string := normalizeProviderKey (file_raw_provider f).

(** A file that contributes: neither flag truthy, and both its provider key
    and its trimmed name non-empty. *)
Definition kept_file (f : AuthFileItem) : bool :=
  negb (isTruthyFlag f.(af_disabled) || isTruthyFlag f.(af_unavailable))
  && negb (is_empty (file_key f)) && negb (is_empty (trim f.(af_name))).

(** What the grouping map holds after the files [P]: one key per provider
    key of a kept file, each with the names of the kept files of that key. *)
Definition group_inv (P : list AuthFileItem) (G : dict group) : Prop :=
  NoDup (map fst G) /\
  (forall k, In k (map fst G) <-> exists f, In f P /\ kept_file f = true /\ file_key f = k) /\
  (forall k g n, dict_get G k = Some g ->
     (In n g.(files) <->
      exists f, In f P /\ kept_file f = true /\ file_key f = k /\ trim f.(af_name) = n)).

Definition auth_file (n : string) (ty : string) (disabled : jsval) : AuthFileItem :=
  {| af_name := n; af_provider := None; af_type := Some ty; af_disabled := disabled;
     af_unavailable := JUndef |}.

(* ------------------------------------------------------------------ *)
(** ** Spec-side reading of the model fallback *)

(** The models returned for [ms]: aliases applied, excluded models removed. *)
Definition post_models (entry : EndpointProviderEntry) (ms : list ModelInfo) : list ModelInfo :=
  filterExcludedModels (applyAliasLookup ms entry.(aliasLookup)) entry.(excludedPatterns).

(** The models of the per-file calls that succeeded, deduplicated. *)
Definition fallback_models (names : list string) (per_file : string -> outcome (list ApiModel))
  : list ModelInfo :=
  dedupeModels (flat_map (fun r => match r with Ok v => normalizeAuthApiModels v | Err _ => [] end)
                  (map per_file names)).

(* ------------------------------------------------------------------ *)
(** ** [buildKeyOptions] *)

(** [normalizeApiKeyList(keys).map((apiKey) => ({ apiKey }))]; a key option
    is modelled by its [apiKey]. *)
Definition buildKeyOptions (keys0 : list string) : list string :=
  ApiKeys.normalizeApiKeyList (JArr (map JStr keys0)).

(** The non-empty [normalizeText] of [model.name] and [model.alias] that
    [filterExcludedModels] tests against the patterns. *)
Definition exclusion_candidates (model : ModelInfo) : list string :=
  filter (fun c => negb (is_empty c)) [trim model.(name); normalizeOpt model.(alias)].

(* ------------------------------------------------------------------ *)
(** ** Key selection: [clampKeyIndex], [buildSelectionMap], [handleSelectKey] *)

(** [clampKeyIndex]; key indices are integers. *)
Definition clampKeyIndex (index keyCount : Z) : Z :=
  if Z.leb keyCount 0 then 0 else Z.min (Z.max index 0) (keyCount - 1).

(** [previous[entry.id] ?? 0]. *)
Definition index_or_zero (previous : dict Z) (k : string) : Z :=
  match dict_get previous k with Some v => v | None => 0 end.

Definition buildSelectionMap (entries : list EndpointProviderEntry) (previous : dict Z)
  : dict Z :=
  fold_left (fun next entry =>
               dict_set next entry.(entry_id)
                 (clampKeyIndex (index_or_zero previous entry.(entry_id))
                    (Z.of_nat (List.length entry.(keyOptions)))))
    entries [].

(** The updater [handleSelectKey] passes to [setSelectedKeyIndexByProvider]
    (its copy into [selectedKeyIndexRef] is not modelled). *)
Definition handleSelectKey (providerEntries : list EndpointProviderEntry)
  (providerId : string) (keyIndex : Z) (prev : dict Z) : dict Z :=
  match find (fun item => String.eqb item.(entry_id) providerId) providerEntries with
  | None => prev
  | Some entry =>
      dict_set prev providerId
        (clampKeyIndex keyIndex (Z.of_nat (List.length entry.(keyOptions))))
  end.

(* ------------------------------------------------------------------ *)
(** ** Search: [filteredProviders] and [sections] *)

(** [String.prototype.includes]. *)
Fixpoint includes (s keyword : string) : bool :=
  String.prefix keyword s
  || match s with EmptyString => false | String _ r => includes r keyword end.

(** [filteredProviders] of the page, for the given [search],
    [providerEntries] and [modelsByProvider]. *)
Definition filteredProviders (search : string) (providerEntries : list EndpointProviderEntry)
  (models_by_provider : dict ProviderModelsState) : list EndpointProviderEntry :=
  if is_empty (trim search) then providerEntries
  else
    let keyword := toLowerCase (trim search) in
    filter (fun entry =>
              let byName := includes (toLowerCase entry.(entry_name)) keyword in
              let byProviderKey := includes (toLowerCase entry.(providerKey)) keyword in
              let state := dict_get models_by_provider entry.(entry_id) in
              let byModels :=
                existsb (fun model =>
                           includes (toLowerCase model.(name)) keyword
                           || includes (toLowerCase (normalizeOpt model.(alias))) keyword)
                  (match state with Some st => st.(models) | None => [] end) in
              byName || byProviderKey || byModels)
      providerEntries.

Definition is_auth_proxy (k : EndpointSourceKind) : bool :=
  match k with AuthProxy => true | ConfiguredApi => false end.

Definition is_configured_api (k : EndpointSourceKind) : bool :=
  match k with AuthProxy => false | ConfiguredApi => true end.

(** [sections]: each section by its [id] and [items] (the [title] is a
    translation). *)
Definition sections (filtered : list EndpointProviderEntry)
  : list (string * list EndpointProviderEntry) :=
  [("auth-proxy", filter (fun item => is_auth_proxy item.(sourceKind)) filtered);
   ("configured-api", filter (fun item => is_configured_api item.(sourceKind)) filtered)].

(* ------------------------------------------------------------------ *)
(** ** A spec-side reading of [buildAliasLookup] *)

(** The trimmed alias of the last entry whose trimmed, lower-cased name is
    [k] and whose name and alias are both non-empty. *)
Definition last_alias_for (k : string) (es : list OAuthModelAliasEntry) : option string :=
  fold_left (fun found entry =>
               let name0 := toLowerCase (trim entry.(oa_name)) in
               let alias0 := trim entry.(oa_alias) in
               if negb (is_empty name0) && negb (is_empty alias0) && String.eqb name0 k
               then Some alias0 else found) es None.

(* ------------------------------------------------------------------ *)
(** ** The agent settings page: provider and model resolution *)

Module AgentSettings.

Inductive ModelSlotKey :=
| ANTHROPIC_MODEL | ANTHROPIC_DEFAULT_OPUS_MODEL
| ANTHROPIC_DEFAULT_SONNET_MODEL | ANTHROPIC_DEFAULT_HAIKU_MODEL.

Inductive ThinkingCapability := Codex | NonCodex | Unknown.

(** The page state the callbacks read: [providerEntries] and
    [modelsByProvider] from [useEndpointProviders], and the per-slot
    records [selectedProviderBySlot] and [thinkingBySlot]. *)
Record AgentPage := {
  providerEntries : list EndpointProviderEntry;
  pageModelsByProvider : dict ProviderModelsState;
  selectedProviderBySlot : ModelSlotKey -> string;
  thinkingBySlot : ModelSlotKey -> option ThinkingLevel }.

Definition matchesSearch (model : ModelInfo) (query : string) : bool :=
  if is_empty query then true
  else
    let q := toLowerCase query in
    let name0 := toLowerCase (trim model.(name)) in
    let alias0 := toLowerCase (normalizeOpt model.(alias)) in
    includes name0 q || includes alias0 q.

(** [uniqueModels]: [activeModels.filter] with a [seen] set of keys. *)
Definition uniqueModels (activeModels : list ModelInfo) : list ModelInfo :=
  snd (fold_left (fun (acc : list string * list ModelInfo) model =>
                    let key := toLowerCase (trim model.(name)) in
                    if is_empty key || existsb (fun s => String.eqb s key) (fst acc) then acc
                    else (key :: fst acc, snd acc ++ [model]))
         activeModels ([], [])).

Definition filteredModels (activeModels : list ModelInfo) (modelSearch : string)
  : list ModelInfo :=
  filter (fun model => matchesSearch model modelSearch) (uniqueModels activeModels).

Definition isCodexProvider (entry : option EndpointProviderEntry) : bool :=
  match entry with
  | None => false
  | Some e => String.eqb (toLowerCase (trim e.(providerKey))) "codex"
  end.

(** [providerById]: the entries by id (own keys only). *)
Definition providerById (p : AgentPage) : dict EndpointProviderEntry :=
  fold_left (fun map0 entry => dict_set map0 entry.(entry_id) entry) p.(providerEntries) [].

(** [sections] of the agent page: only the non-empty ones. *)
Definition sections (es : list EndpointProviderEntry)
  : list (string * list EndpointProviderEntry) :=
  let authItems := filter (fun entry => is_auth_proxy entry.(sourceKind)) es in
  let configuredItems := filter (fun entry => is_configured_api entry.(sourceKind)) es in
  (if Nat.ltb 0 (List.length authItems) then [("auth-proxy", authItems)] else [])
  ++ (if Nat.ltb 0 (List.length configuredItems) then [("configured-api", configuredItems)]
      else []).

(** [modelsByProvider[entry.id] ?? DEFAULT_MODELS_STATE], its models. *)
Definition state_models (p : AgentPage) (entry : EndpointProviderEntry) : list ModelInfo :=
  match dict_get p.(pageModelsByProvider) entry.(entry_id) with
  | Some st => st.(models)
  | None => []
  end.

Definition providerHasModel (p : AgentPage) (entry : EndpointProviderEntry)
  (modelName : string) : bool :=
  let normalizedModel := toLowerCase (trim modelName) in
  if is_empty normalizedModel then false
  else existsb (fun item =>
                  let name0 := toLowerCase (trim item.(name)) in
                  let alias0 := toLowerCase (normalizeOpt item.(alias)) in
                  String.eqb name0 normalizedModel || String.eqb alias0 normalizedModel)
         (state_models p entry).

Definition matchProviderByModel (p : AgentPage) (modelName : string)
  : option EndpointProviderEntry :=
  let normalizedModel := trim modelName in
  if is_empty normalizedModel then None
  else find (fun entry => providerHasModel p entry normalizedModel) p.(providerEntries).

(** [preferredProviderId || selectedProviderBySlot[slotKey]]. *)
Definition selected_provider_id (p : AgentPage) (slotKey : ModelSlotKey)
  (preferredProviderId : option string) : string :=
  match preferredProviderId with
  | Some s => if is_empty s then p.(selectedProviderBySlot) slotKey else s
  | None => p.(selectedProviderBySlot) slotKey
  end.

Definition resolveProviderForModel (p : AgentPage) (slotKey : ModelSlotKey)
  (modelName : string) (preferredProviderId : option string)
  : option EndpointProviderEntry :=
  let normalizedModel := trim modelName in
  if is_empty normalizedModel then None
  else
    let selectedProviderId := selected_provider_id p slotKey preferredProviderId in
    let fallback :=
      match matchProviderByModel p normalizedModel with
      | Some matchedByModel => Some matchedByModel
      | None => find (fun entry => Nat.ltb 0 (List.length entry.(keyOptions))) p.(providerEntries)
      end in
    if negb (is_empty selectedProviderId) then
      match dict_get (providerById p) selectedProviderId with
      | Some selectedEntry =>
          if providerHasModel p selectedEntry normalizedModel
             || Nat.ltb 0 (List.length selectedEntry.(keyOptions))
          then Some selectedEntry else fallback
      | None => fallback
      end
    else fallback.

Definition resolveThinkingCapability (p : AgentPage) (slotKey : ModelSlotKey)
  (modelName : string) (preferredProviderId : option string) : ThinkingCapability :=
  let normalizedModel := trim modelName in
  if is_empty normalizedModel then Unknown
  else
    let selectedProviderId := selected_provider_id p slotKey preferredProviderId in
    let fallback :=
      match matchProviderByModel p normalizedModel with
      | Some matchedProvider =>
          if isCodexProvider (Some matchedProvider) then Codex else NonCodex
      | None => Unknown
      end in
    if negb (is_empty selectedProviderId) then
      match dict_get (providerById p) selectedProviderId with
      | Some selectedProvider =>
          if providerHasModel p selectedProvider normalizedModel
          then (if isCodexProvider (Some selectedProvider) then Codex else NonCodex)
          else fallback
      | None => fallback
      end
    else fallback.

Definition buildModelValueForSlot (p : AgentPage) (slotKey : ModelSlotKey)
  (baseModel : string) (preferredProviderId : option string) : string :=
  let normalizedBase := trim baseModel in
  if is_empty normalizedBase then ""
  else
    match p.(thinkingBySlot) slotKey with
    | None => normalizedBase
    | Some thinking =>
        match resolveThinkingCapability p slotKey normalizedBase preferredProviderId with
        | Codex => formatModelWithThinking normalizedBase (Some thinking)
        | _ => normalizedBase
        end
    end.

End AgentSettings.

(* ------------------------------------------------------------------ *)
(** ** Configured providers: [buildConfiguredEntries] *)

(** [`${n}`] of a natural number. *)
Definition nat_to_string (n : nat) : string := NilEmpty.string_of_uint (Nat.to_uint n).

Definition opt_list {A} (o : option (list A)) : list A :=
  match o with Some l => l | None => [] end.

(** The fields of the configuration the page reads. *)
Record ApiKeyEntry := { entry_apiKey : string }.

Record OpenAIProviderConfig := {
  op_name : option string;
  op_baseUrl : option string;
  apiKeyEntries : option (list ApiKeyEntry);
  op_models : option (list ConfiguredModel) }.

(** [ProviderKeyConfig] and [GeminiKeyConfig]. *)
Record ProviderKeyConfig := {
  apiKey : string;
  pk_baseUrl : option string;
  pk_prefix : option string;
  pk_models : option (list ConfiguredModel) }.

Record Config := {
  openaiCompatibility : option (list OpenAIProviderConfig);
  codexApiKeys : option (list ProviderKeyConfig);
  claudeApiKeys : option (list ProviderKeyConfig);
  geminiApiKeys : option (list ProviderKeyConfig);
  vertexApiKeys : option (list ProviderKeyConfig) }.

Definition resolveSimpleProviderName (fallbackName : string) (index : nat)
  (item : ProviderKeyConfig) : string :=
  let prefix0 := normalizeOpt item.(pk_prefix) in
  if negb (is_empty prefix0) then prefix0
  else
    let baseUrl0 := normalizeOpt item.(pk_baseUrl) in
    if negb (is_empty baseUrl0) then baseUrl0
    else (fallbackName ++ "#" ++ nat_to_string (index + 1))%string.

(** [items.forEach((item, index) => entries.push(mk(index, order++, item)))]
    on the state [(order, entries)]. *)
Definition push_each {A} (mk : nat -> nat -> A -> EndpointProviderEntry) (items : list A)
  (st : nat * list EndpointProviderEntry) : nat * list EndpointProviderEntry :=
  snd (fold_left (fun (acc : nat * (nat * list EndpointProviderEntry)) item =>
                    let '(index, (order0, entries)) := acc in
                    (S index, (S order0, entries ++ [mk index order0 item])))
         items (0, st)).

(** The entries pushed by one [forEach], from index [k] and order [o]. *)
Fixpoint pushed {A} (mk : nat -> nat -> A -> EndpointProviderEntry) (k o : nat) (items : list A)
  : list EndpointProviderEntry :=
  match items with
  | [] => []
  | x :: r => mk k o x :: pushed mk (S k) (S o) r
  end.

Definition openai_entry (baseUrl0 : string) (keyOptions0 : list string) (index order0 : nat)
  (provider : OpenAIProviderConfig) : EndpointProviderEntry :=
  let name0 :=
    let n := normalizeOpt provider.(op_name) in
    if negb (is_empty n) then n else ("openai-compat#" ++ nat_to_string (index + 1))%string in
  let realKeyOptions0 :=
    buildKeyOptions (map entry_apiKey (opt_list provider.(apiKeyEntries))) in
  {| entry_id := ("configured:openai:" ++ nat_to_string index)%string;
     sourceKind := ConfiguredApi;
     providerKey :=
       normalizeProviderKey
         (match provider.(op_name) with
          | Some s => if is_empty s then name0 else s
          | None => name0
          end);
     entry_name := name0;
     baseUrl := baseUrl0;
     keyOptions := keyOptions0;
     order := order0;
     configuredModels := Some (convertConfiguredModels provider.(op_models));
     authFileNames := None;
     aliasLookup := None;
     excludedPatterns := None;
     realBaseUrl := Some (normalizeOpt provider.(op_baseUrl));
     realKeyOptions := Some realKeyOptions0 |}.

(** The codex, claude, gemini and vertex blocks, which differ only in
    [kind]. *)
Definition simple_entry (kind : string) (baseUrl0 : string) (keyOptions0 : list string)
  (index order0 : nat) (item : ProviderKeyConfig) : EndpointProviderEntry :=
  {| entry_id := ("configured:" ++ kind ++ ":" ++ nat_to_string index)%string;
     sourceKind := ConfiguredApi;
     providerKey := kind;
     entry_name := resolveSimpleProviderName kind index item;
     baseUrl := baseUrl0;
     keyOptions := keyOptions0;
     order := order0;
     configuredModels := Some (convertConfiguredModels item.(pk_models));
     authFileNames := None;
     aliasLookup := None;
     excludedPatterns := None;
     realBaseUrl := Some (normalizeOpt item.(pk_baseUrl));
     realKeyOptions := Some (buildKeyOptions [item.(apiKey)]) |}.

Definition buildConfiguredEntries (config : option Config) (baseUrl0 : string)
  (keyOptions0 : list string) : list EndpointProviderEntry :=
  match config with
  | None => []
  | Some c =>
      snd (push_each (simple_entry "vertex" baseUrl0 keyOptions0) (opt_list c.(vertexApiKeys))
      (push_each (simple_entry "gemini" baseUrl0 keyOptions0) (opt_list c.(geminiApiKeys))
      (push_each (simple_entry "claude" baseUrl0 keyOptions0) (opt_list c.(claudeApiKeys))
      (push_each (simple_entry "codex" baseUrl0 keyOptions0) (opt_list c.(codexApiKeys))
      (push_each (openai_entry baseUrl0 keyOptions0) (opt_list c.(openaiCompatibility))
         (0, []))))))
  end.

(** The provider list [loadPageData] builds: [[...authEntries, ...configuredEntries]]. *)
Definition page_entries (authFiles : list AuthFileItem)
  (aliasResult : dict (list OAuthModelAliasEntry)) (excludedResult : dict (list string))
  (config : option Config) (baseUrl0 : string) (keyOptions0 : list string)
  : list EndpointProviderEntry :=
  buildAuthProviderEntries authFiles aliasResult excludedResult baseUrl0 keyOptions0
  ++ buildConfiguredEntries config baseUrl0 keyOptions0.

(** The ids [prefix ++ `${i}`] for [i] from [k], [n] of them. *)
Definition ids_of (prefix0 : string) (k n : nat) : list string :=
  map (fun i => (prefix0 ++ nat_to_string i)%string) (seq k n).

(* ------------------------------------------------------------------ *)
(** ** The older endpoints page: [filteredGroups], [resolveApiKeys] *)

(** The fields of a [ModelGroup] the page reads. *)
Record ModelGroup := { group_id : string; group_label : string; items : list ModelInfo }.

Definition filteredGroups (search : string) (groupedModels : list ModelGroup) : list ModelGroup :=
  if is_empty (trim search) then groupedModels
  else
    let q := toLowerCase (trim search) in
    filter (fun g => Nat.ltb 0 (List.length g.(items)) || includes (toLowerCase g.(group_label)) q)
      (map (fun g =>
              {| group_id := g.(group_id);
                 group_label := g.(group_label);
                 items := filter (fun m =>
                                    includes (toLowerCase m.(name)) q
                                    || includes (toLowerCase g.(group_label)) q
                                    || match m.(alias) with
                                       | Some a => negb (is_empty a) && includes (toLowerCase a) q
                                       | None => false
                                       end) g.(items) |})
         groupedModels).

(** [fetchModels(forceRefresh)] and the [resolveApiKeys] it awaits read and
    write the ref [apiKeysCache.current], which starts as [[]]; calls that
    overlap (the load on mount and the refresh button) interleave at their
    [await]s.  A [key_step] is the code one call runs between two
    [await]s. *)
Inductive key_step :=
| FetchStart (forceRefresh : bool) (configApiKeys : jsval)
    (** [fetchModels] up to [await apiKeysApi.list()] in [resolveApiKeys],
        or up to the end of [resolveApiKeys] when it returns before it *)
| ListSettled (fromApi : outcome jsval)
    (** [resolveApiKeys] after [await apiKeysApi.list()] *)
| ReadKeys.
    (** [fetchModels] after [await resolveApiKeys()]: [keys[0]] passed to
        [fetchModelsFromStore] *)

Inductive key_effect := SetApiKeys (ks : list string) | FetchWithKey (k : option string).

(** One step on the cache: the new cache and the calls it makes. *)
Definition key_step_run (cache : list string) (s : key_step) : list string * list key_effect :=
  match s with
  | FetchStart forceRefresh configApiKeys =>
      let cache0 := if forceRefresh then [] else cache in
      match cache0 with
      | _ :: _ => (cache0, [SetApiKeys cache0])
      | [] =>
          let configKeys := LegacyApiKeys.normalizeApiKeyList configApiKeys in
          match configKeys with
          | _ :: _ => (configKeys, [SetApiKeys configKeys])
          | [] => (cache0, [])
          end
      end
  | ListSettled (Ok list0) =>
      let normalized := LegacyApiKeys.normalizeApiKeyList list0 in
      (match normalized with _ :: _ => normalized | [] => cache end, [SetApiKeys normalized])
  | ListSettled (Err _) => (cache, [])
  | ReadKeys => (cache, [FetchWithKey (hd_error cache)])
  end.

(** A schedule of steps, in the order they run. *)
Fixpoint run_key_steps (cache : list string) (steps : list key_step)
  : list string * list key_effect :=
  match steps with
  | [] => (cache, [])
  | s :: rest =>
      let '(cache1, eff1) := key_step_run cache s in
      let '(cache2, eff2) := run_key_steps cache1 rest in
      (cache2, eff1 ++ eff2)
  end.

Definition key_list_ok (ks : list string) : Prop :=
  NoDup ks /\ Forall (fun k => trim k = k /\ is_empty k = false) ks.

(* ------------------------------------------------------------------ *)
(** ** [loadProxyApiKeys] *)

Definition loadProxyApiKeys (configApiKeys : jsval) (fromApi : outcome jsval) : list string :=
  let fromConfig := ApiKeys.normalizeApiKeyList configApiKeys in
  match fromConfig with
  | _ :: _ => fromConfig
  | [] =>
      match fromApi with
      | Ok list0 => ApiKeys.normalizeApiKeyList list0
      | Err _ => []
      end
  end.

(* ------------------------------------------------------------------ *)
(** ** [agentSettingsApi]: the primary endpoint and its fallback *)

Inductive settings_endpoint :=
| ClaudeSettingsEndpoint   (** [/manage/agent/claude-settings] *)
| LocalFileEndpoint.       (** [/manage/local-file] *)

Section AgentSettingsApi.

(** Rejection values, with the [status] field read by [(e as {status?})?.status]. *)
Variable E : Type.
Variable status_of : E -> option Z.

Inductive api_result (A : Type) := ApiOk (a : A) | ApiErr (e : E).
Arguments ApiOk {A} a.
Arguments ApiErr {A} e.

(** [read] and [write]: the requests made, in order, and the settlement,
    for the server's answer to each request. *)
Definition settings_call {A} (respond : settings_endpoint -> api_result A)
  : list settings_endpoint * api_result A :=
  match respond ClaudeSettingsEndpoint with
  | ApiOk a => ([ClaudeSettingsEndpoint], ApiOk a)
  | ApiErr primaryError =>
      let status0 := status_of primaryError in
      if match status0 with Some s => Z.eqb s 404 | None => false end then
        match respond LocalFileEndpoint with
        | ApiOk a => ([ClaudeSettingsEndpoint; LocalFileEndpoint], ApiOk a)
        | ApiErr _ => ([ClaudeSettingsEndpoint; LocalFileEndpoint], ApiErr primaryError)
        end
      else ([ClaudeSettingsEndpoint], ApiErr primaryError)
  end.

End AgentSettingsApi.

Arguments ApiOk {E A} a.
Arguments ApiErr {E A} e.

(* ================================================================== *)
(** * Properties *)

Example api_keys_spec_example :
  ApiKeys.normalizeApiKeyList
    (JArr [JObj [("api-key", JStr "a")]; JStr "a"; JObj [("apiKey", JStr "b")]]) = ["a"; "b"].
Proof. reflexivity. Qed.

Example api_keys_trim : ApiKeys.normalizeApiKeyList (JArr [JStr "  k1 "; JNum 7; JObj [("key", JNum 12)]]) = ["k1"; "12"].
Proof. reflexivity. Qed.

Example api_keys_case : ApiKeys.normalizeApiKeyList (JArr [JStr "A"; JStr "a"]) = ["A"].
Proof. reflexivity. Qed.

Example legacy_api_keys_case : LegacyApiKeys.normalizeApiKeyList (JArr [JStr "A"; JStr "a"]) = ["A"; "a"].
Proof. reflexivity. Qed.

(** *** Proofs for [normalizeApiKeyList] *)

Section KeyFold.

Variable f : jsval -> string.
Variable key : string -> string.
Variable step : key_acc -> jsval -> key_acc.
Hypothesis Hstep : forall s it,
  step s it =
    if is_empty (f it) then s
    else if existsb (String.eqb (key (f it))) s.(seen) then s
    else {| seen := key (f it) :: s.(seen); keys := s.(keys) ++ [f it] |}.

Lemma seen_prev_existsb (s : key_acc) (prev : list string) (x : string) :
  (forall k, In k s.(seen) <-> exists p, In p prev /\ key p = k) ->
  existsb (String.eqb (key x)) s.(seen) =
  existsb (fun p => String.eqb (key p) (key x)) prev.
Proof.
  intros Hinv.
  destruct (existsb (String.eqb (key x)) s.(seen)) eqn:E1;
  destruct (existsb (fun p => String.eqb (key p) (key x)) prev) eqn:E2; auto.
  - apply existsb_exists in E1 as [k [Hk Hx]].
    apply String.eqb_eq in Hx; subst k.
    apply Hinv in Hk as [p [Hp Hpk]].
    assert (existsb (fun p => String.eqb (key p) (key x)) prev = true) as E3.
    { apply existsb_exists. exists p. split; auto. apply String.eqb_eq; auto. }
    congruence.
  - apply existsb_exists in E2 as [p [Hp Hpx]].
    apply String.eqb_eq in Hpx.
    assert (In (key x) s.(seen)) as Hin by (apply Hinv; eauto).
    assert (existsb (String.eqb (key x)) s.(seen) = true) as E3.
    { apply existsb_exists. exists (key x). split; auto. apply String.eqb_refl. }
    congruence.
Qed.

Lemma key_fold_spec (items : list jsval) :
  forall s prev,
  (forall k, In k s.(seen) <-> exists p, In p prev /\ key p = k) ->
  (fold_left step items s).(keys) =
  s.(keys) ++ first_occurrences_from key prev
                 (filter (fun x => negb (is_empty x)) (map f items)).
Proof.
  induction items as [|it items IH]; intros s prev Hinv; simpl.
  - rewrite app_nil_r. reflexivity.
  - rewrite Hstep.
    destruct (is_empty (f it)) eqn:Hemp; simpl.
    + apply IH; auto.
    + rewrite (seen_prev_existsb s prev (f it) Hinv).
      destruct (existsb (fun p => String.eqb (key p) (key (f it))) prev) eqn:Hex.
      * apply IH. intros k; rewrite Hinv. split.
        -- intros [p [Hp Hpk]]. exists p. split; auto. apply in_or_app; auto.
        -- intros [p [Hp Hpk]]. apply in_app_or in Hp as [Hp|Hp]; eauto.
           destruct Hp as [Hp|[]]; subst p.
           apply existsb_exists in Hex as [q [Hq Hqk]].
           apply String.eqb_eq in Hqk. exists q. split; congruence.
      * rewrite (IH _ (prev ++ [f it])); simpl.
        -- rewrite <- app_assoc. reflexivity.
        -- intros k. simpl. rewrite Hinv. split.
           ++ intros [Hk|[p [Hp Hpk]]].
              ** exists (f it). split; auto. apply in_or_app; simpl; auto.
              ** exists p. split; auto. apply in_or_app; auto.
           ++ intros [p [Hp Hpk]]. apply in_app_or in Hp as [Hp|Hp]; eauto.
              destruct Hp as [Hp|[]]; subst p. auto.
Qed.

End KeyFold.

Lemma ApiKeys_normalize_spec (items : list jsval) :
  ApiKeys.normalizeApiKeyList (JArr items) = spec_api_keys_ci items.
Proof.
  unfold ApiKeys.normalizeApiKeyList, spec_api_keys_ci, dedup_by.
  rewrite (key_fold_spec (fun it => normalizeText (api_key_value it)) toLowerCase ApiKeys.step)
    with (prev := []); [reflexivity| |].
  - intros s it. reflexivity.
  - simpl. intros k; split; [intros []|intros [p [[] _]]].
Qed.

Lemma LegacyApiKeys_normalize_spec (items : list jsval) :
  LegacyApiKeys.normalizeApiKeyList (JArr items) = spec_api_keys items.
Proof.
  unfold LegacyApiKeys.normalizeApiKeyList, spec_api_keys, dedup_by.
  rewrite (key_fold_spec (fun it => normalizeText (api_key_value it)) (fun s => s) LegacyApiKeys.step)
    with (prev := []); [reflexivity| |].
  - intros s it. unfold LegacyApiKeys.step. fold (normalizeText (api_key_value it)).
    destruct (is_empty (normalizeText (api_key_value it))); reflexivity.
  - simpl. intros k; split; [intros []|intros [p [[] _]]].
Qed.

(** *** Text lemmas *)

Lemma drop_ws_suffix (l : list ascii) : exists p, l = p ++ drop_ws l.
Proof.
  induction l as [|c r [p Hp]]; simpl.
  - exists []. reflexivity.
  - destruct (is_ws c).
    + exists (c :: p). simpl. congruence.
    + exists []. reflexivity.
Qed.

Lemma drop_ws_head (l : list ascii) :
  drop_ws l = [] \/ exists c r, drop_ws l = c :: r /\ is_ws c = false.
Proof.
  induction l as [|c r IH]; simpl; auto.
  destruct (is_ws c) eqn:E; auto. right. eauto.
Qed.

Lemma drop_ws_fix (l : list ascii) :
  (l = [] \/ exists c r, l = c :: r /\ is_ws c = false) -> drop_ws l = l.
Proof.
  intros [->|[c [r [-> Hc]]]]; simpl; [reflexivity|]. rewrite Hc. reflexivity.
Qed.

Definition trim_list (l : list ascii) : list ascii := rev (drop_ws (rev (drop_ws l))).

Lemma trim_list_idem (l : list ascii) : trim_list (trim_list l) = trim_list l.
Proof.
  unfold trim_list.
  set (a := drop_ws l).
  assert (Ha : a = [] \/ exists c r, a = c :: r /\ is_ws c = false) by apply drop_ws_head.
  set (b := rev (drop_ws (rev a))).
  assert (Hb : drop_ws b = b).
  { apply drop_ws_fix.
    destruct (drop_ws_suffix (rev a)) as [p Hp].
    assert (Ha' : a = b ++ rev p).
    { assert (H : rev (rev a) = rev (p ++ drop_ws (rev a))) by (f_equal; exact Hp).
      rewrite rev_involutive, rev_app_distr in H. exact H. }
    destruct b as [|c r]; auto. right. exists c, r. split; auto.
    destruct Ha as [Ha|[c' [r' [Ha Hc']]]].
    - rewrite Ha in Ha'. discriminate.
    - rewrite Ha in Ha'. simpl in Ha'. injection Ha' as -> _. exact Hc'. }
  rewrite Hb. unfold b. rewrite rev_involutive.
  rewrite drop_ws_fix; [reflexivity|].
  destruct (drop_ws_head (rev a)) as [H|[c [r [H Hc]]]]; rewrite H; eauto.
Qed.

Lemma trim_idem (s : string) : trim (trim s) = trim s.
Proof.
  unfold trim. rewrite list_ascii_of_string_of_list_ascii.
  exact (f_equal string_of_list_ascii (trim_list_idem (list_ascii_of_string s))).
Qed.

Lemma normalizeOpt_trim (s : string) : normalizeOpt (Some (trim s)) = trim s.
Proof. simpl. apply trim_idem. Qed.

Lemma smap_length (g : ascii -> ascii) (s : string) : String.length (smap g s) = String.length s.
Proof. induction s; simpl; auto. Qed.

Lemma is_empty_lower (s : string) : is_empty (toLowerCase s) = is_empty s.
Proof. destruct s; reflexivity. Qed.

(** *** Proofs for [dedupeModels] *)

Lemma dedupe_fold_spec (ms : list ModelInfo) :
  forall acc prev,
  (forall k, In k acc.(seen_names) <->
             exists p, In p prev /\ is_empty (trim p.(name)) = false /\ name_key p = k) ->
  (fold_left dedupe_step ms acc).(result) =
  acc.(result) ++ map clean_model (first_seen prev ms).
Proof.
  induction ms as [|m ms IH]; intros acc prev Hinv; simpl.
  - rewrite app_nil_r. reflexivity.
  - unfold dedupe_step at 2.
    destruct (is_empty (trim (name m))) eqn:Hemp; simpl.
    + apply IH. intros k. rewrite Hinv. split.
      * intros [p [Hp Hk]]. exists p. split; auto. apply in_or_app; auto.
      * intros [p [Hp [Hne Hk]]]. apply in_app_or in Hp as [Hp|[<-|[]]]; eauto.
        congruence.
    + assert (Hex : existsb (String.eqb (toLowerCase (trim (name m)))) acc.(seen_names) =
                    existsb (fun p => String.eqb (name_key p) (name_key m)) prev).
      { destruct (existsb (String.eqb (toLowerCase (trim (name m)))) acc.(seen_names)) eqn:E1;
        destruct (existsb (fun p => String.eqb (name_key p) (name_key m)) prev) eqn:E2; auto.
        - apply existsb_exists in E1 as [k [Hk Hx]]. apply String.eqb_eq in Hx; subst k.
          apply Hinv in Hk as [p [Hp [_ Hpk]]].
          assert (existsb (fun p => String.eqb (name_key p) (name_key m)) prev = true); [|congruence].
          apply existsb_exists. exists p. split; auto. apply String.eqb_eq. exact Hpk.
        - apply existsb_exists in E2 as [p [Hp Hpx]]. apply String.eqb_eq in Hpx.
          assert (Hp' : In (name_key m) acc.(seen_names)).
          { apply Hinv. exists p. split; auto. split; auto.
            rewrite <- is_empty_lower. fold (name_key p). rewrite Hpx. unfold name_key.
            rewrite is_empty_lower. exact Hemp. }
          assert (existsb (String.eqb (toLowerCase (trim (name m)))) acc.(seen_names) = true);
            [|congruence].
          apply existsb_exists. exists (name_key m). split; auto. apply String.eqb_refl. }
      rewrite Hex.
      destruct (existsb (fun p => String.eqb (name_key p) (name_key m)) prev) eqn:E; simpl.
      * apply IH. intros k. rewrite Hinv. split.
        -- intros [p [Hp Hk]]. exists p. split; auto. apply in_or_app; auto.
        -- intros [p [Hp [Hne Hk]]]. apply in_app_or in Hp as [Hp|[<-|[]]]; eauto.
           apply existsb_exists in E as [q [Hq Hqk]]. apply String.eqb_eq in Hqk.
           exists q. split; auto. split; [|congruence].
           rewrite <- is_empty_lower. fold (name_key q). rewrite Hqk. unfold name_key.
           rewrite is_empty_lower. exact Hemp.
      * rewrite (IH _ (prev ++ [m])).
        -- simpl. rewrite <- app_assoc. reflexivity.
        -- intros k. simpl. rewrite Hinv. split.
           ++ intros [Hk|[p [Hp Hk]]].
              ** exists m. split; [apply in_or_app; simpl; auto|]. split; auto.
              ** exists p. split; auto. apply in_or_app; auto.
           ++ intros [p [Hp Hk]]. apply in_app_or in Hp as [Hp|[<-|[]]]; eauto.
              left. destruct Hk as [_ Hk]. exact Hk.
Qed.

Lemma dedupeModels_spec (ms : list ModelInfo) :
  dedupeModels ms = map clean_model (first_seen [] ms).
Proof.
  unfold dedupeModels. rewrite (dedupe_fold_spec ms _ []); [reflexivity|].
  simpl. intros k. split; [intros []|intros [p [[] _]]].
Qed.

Lemma normalizeOpt_Some_idem (o : option string) :
  normalizeOpt (Some (normalizeOpt o)) = normalizeOpt o.
Proof. destruct o; simpl; [apply trim_idem|reflexivity]. Qed.

Lemma clean_model_idem (m : ModelInfo) : clean_model (clean_model m) = clean_model m.
Proof.
  unfold clean_model at 1. cbn [name alias description].
  unfold clean_model. cbn [name alias description]. rewrite trim_idem.
  destruct (negb (is_empty (normalizeOpt (alias m))) &&
            negb (String.eqb (toLowerCase (normalizeOpt (alias m))) (toLowerCase (trim (name m))))) eqn:Ea;
  destruct (negb (is_empty (normalizeOpt (description m)))) eqn:Ed;
  rewrite ?normalizeOpt_Some_idem, ?Ea, ?Ed; reflexivity.
Qed.

Lemma name_key_clean (m : ModelInfo) : name_key (clean_model m) = name_key m.
Proof. unfold name_key, clean_model. simpl. rewrite trim_idem. reflexivity. Qed.

Lemma first_seen_props (l : list ModelInfo) :
  forall prev,
  Forall (fun x => is_empty (trim x.(name)) = false) (first_seen prev l) /\
  (forall x p, In x (first_seen prev l) -> In p prev -> name_key p <> name_key x) /\
  NoDup (map name_key (first_seen prev l)).
Proof.
  induction l as [|m r IH]; intros prev; simpl.
  - split; [constructor|split; [intros _ _ []|constructor]].
  - destruct (IH (prev ++ [m])) as [H1 [H2 H3]].
    destruct (negb (is_empty (trim (name m)))
              && negb (existsb (fun p => String.eqb (name_key p) (name_key m)) prev)) eqn:E.
    + apply andb_true_iff in E as [E1 E2].
      apply negb_true_iff in E1, E2.
      split; [constructor; auto|split].
      * intros x p [Hx|Hx] Hp.
        -- subst x. intros Heq.
           assert (existsb (fun p => String.eqb (name_key p) (name_key m)) prev = true)
             by (apply existsb_exists; exists p; split; auto; apply String.eqb_eq; auto).
           congruence.
        -- apply H2; auto. apply in_or_app; auto.
      * simpl. constructor; auto.
        intros Hin. apply in_map_iff in Hin as [x [Hx Hin]].
        apply (H2 x m Hin); [apply in_or_app; simpl; auto|auto].
    + split; auto. split; auto.
      intros x p Hx Hp. apply H2; auto. apply in_or_app; auto.
Qed.

Lemma first_seen_fix (l : list ModelInfo) :
  forall prev,
  Forall (fun x => is_empty (trim x.(name)) = false) l ->
  (forall x p, In x l -> In p prev -> name_key p <> name_key x) ->
  NoDup (map name_key l) ->
  first_seen prev l = l.
Proof.
  induction l as [|m r IH]; intros prev H1 H2 H3; simpl; auto.
  inversion H1 as [|? ? Hm Hr]; subst. inversion H3 as [|? ? Hnin Hnd]; subst.
  rewrite Hm. simpl.
  destruct (existsb (fun p => String.eqb (name_key p) (name_key m)) prev) eqn:E.
  - apply existsb_exists in E as [p [Hp Hpm]]. apply String.eqb_eq in Hpm.
    exfalso. apply (H2 m p); simpl; auto.
  - simpl. f_equal. apply IH; auto.
    intros x p Hx Hp. apply in_app_or in Hp as [Hp|[<-|[]]].
    + apply H2; simpl; auto.
    + intros Heq. apply Hnin. rewrite Heq. apply in_map; auto.
Qed.

(** C8: [dedupeModels] is idempotent, and its output is, in input order,
    the first model of each case-insensitively distinct non-empty trimmed
    name, with its name trimmed, its alias dropped when empty or equal to
    the name up to case, and its description dropped when empty after
    trimming. *)
Theorem dedupeModels_idempotent_first_seen (ms : list ModelInfo) :
  dedupeModels (dedupeModels ms) = dedupeModels ms /\
  dedupeModels ms = map clean_model (first_seen [] ms).
Proof.
  split; [|apply dedupeModels_spec].
  rewrite !dedupeModels_spec.
  destruct (first_seen_props ms []) as [H1 [_ H3]].
  rewrite (first_seen_fix (map clean_model (first_seen [] ms)) []).
  - rewrite map_map. apply map_ext. apply clean_model_idem.
  - apply Forall_map. eapply Forall_impl; [|exact H1].
    intros x Hx. simpl. rewrite trim_idem. exact Hx.
  - intros _ _ _ [].
  - rewrite map_map. erewrite map_ext; [exact H3|]. apply name_key_clean.
Qed.

(** *** Proofs for [matchExcludePattern] *)

Lemma list_ascii_of_string_app (s t : string) :
  list_ascii_of_string (s ++ t) = list_ascii_of_string s ++ list_ascii_of_string t.
Proof. induction s; simpl; congruence. Qed.

Lemma special_not (c : ascii) :
  is_regex_special c = false ->
  Ascii.eqb c "\" = false /\ Ascii.eqb c "^" = false /\ Ascii.eqb c "$" = false /\
  Ascii.eqb c "." = false /\ Ascii.eqb c "*" = false.
Proof.
  intros H.
  repeat split;
  match goal with
  | |- Ascii.eqb c ?d = false =>
      destruct (Ascii.eqb_spec c d) as [->|]; [vm_compute in H; discriminate H|reflexivity]
  end.
Qed.

Lemma lex_escape (seg : string) (rest : list ascii) :
  lex_regex (list_ascii_of_string (escape_regex seg) ++ rest) =
  option_map (app (lit_tokens (list_ascii_of_string seg))) (lex_regex rest).
Proof.
  induction seg as [|c r IH]; simpl.
  - destruct (lex_regex rest); reflexivity.
  - destruct (is_regex_special c) eqn:Hs; simpl.
    + rewrite IH. destruct (lex_regex rest); reflexivity.
    + destruct (special_not c Hs) as [H1 [H2 [H3 [H4 H5]]]].
      rewrite H1, H2, H3, H4, H5, Hs, IH. destruct (lex_regex rest); reflexivity.
Qed.

Lemma split_char_nonempty (c : ascii) (s : string) : split_char c s <> [].
Proof.
  induction s as [|d r IH]; simpl; [discriminate|].
  destruct (Ascii.eqb d c); [discriminate|]. destruct (split_char c r); [contradiction|discriminate].
Qed.

Lemma lex_join (segs : list string) :
  segs <> [] ->
  lex_regex (list_ascii_of_string (join ".*" (map escape_regex segs) ++ "$")) =
  Some (wild_tokens (map list_ascii_of_string segs) ++ [TkEol]).
Proof.
  induction segs as [|s r IH]; intros Hne; [contradiction|].
  destruct r as [|s' r'].
  - simpl join. rewrite list_ascii_of_string_app, lex_escape. reflexivity.
  - change (join ".*" (map escape_regex (s :: s' :: r')))
      with (escape_regex s ++ ".*" ++ join ".*" (map escape_regex (s' :: r')))%string.
    replace (list_ascii_of_string ((escape_regex s ++ ".*" ++ join ".*" (map escape_regex (s' :: r'))) ++ "$")%string)
      with (list_ascii_of_string (escape_regex s) ++ "."%char :: "*"%char ::
            list_ascii_of_string (join ".*" (map escape_regex (s' :: r')) ++ "$")%string)
      by (rewrite !list_ascii_of_string_app, <- !app_assoc; reflexivity).
    rewrite lex_escape.
    change (lex_regex ("."%char :: "*"%char ::
              list_ascii_of_string (join ".*" (map escape_regex (s' :: r')) ++ "$")%string))
      with (option_map (cons (TkAtom RDot)) (option_map (cons TkStar)
              (lex_regex (list_ascii_of_string (join ".*" (map escape_regex (s' :: r')) ++ "$")%string)))).
    rewrite IH by discriminate.
    change (wild_tokens (map list_ascii_of_string (s :: s' :: r')))
      with (lit_tokens (list_ascii_of_string s) ++ TkAtom RDot :: TkStar ::
            wild_tokens (map list_ascii_of_string (s' :: r'))).
    cbn [option_map]. rewrite <- app_assoc. reflexivity.
Qed.

Lemma group_atom_nonstar (a : ratom) (rest : list rtoken) :
  (forall r, rest <> TkStar :: r) ->
  group_terms (TkAtom a :: rest) = option_map (cons (RAtom a)) (group_terms rest).
Proof.
  intros Hr. destruct rest as [|t r]; [reflexivity|].
  destruct t; try reflexivity. exfalso. eapply Hr. reflexivity.
Qed.

Lemma group_lits (seg : list ascii) (rest : list rtoken) :
  (forall r, rest <> TkStar :: r) ->
  group_terms (lit_tokens seg ++ rest) = option_map (app (lit_terms seg)) (group_terms rest).
Proof.
  intros Hr. induction seg as [|c seg IH].
  - simpl. destruct (group_terms rest); reflexivity.
  - change (lit_tokens (c :: seg) ++ rest) with (TkAtom (RLit c) :: (lit_tokens seg ++ rest)).
    rewrite group_atom_nonstar.
    + rewrite IH. destruct (group_terms rest); reflexivity.
    + destruct seg; simpl; [exact Hr|discriminate].
Qed.

Lemma group_wild (segs : list (list ascii)) :
  group_terms (wild_tokens segs ++ [TkEol]) = Some (wild_terms segs ++ [REol]).
Proof.
  induction segs as [|s r IH]; [reflexivity|].
  destruct r as [|s' r'].
  - simpl. rewrite group_lits by discriminate. reflexivity.
  - change (wild_tokens (s :: s' :: r')) with (lit_tokens s ++ TkAtom RDot :: TkStar :: wild_tokens (s' :: r')).
    change (wild_terms (s :: s' :: r')) with (lit_terms s ++ RStar RDot :: wild_terms (s' :: r')).
    rewrite <- app_assoc. rewrite group_lits by discriminate.
    change (group_terms ((TkAtom RDot :: TkStar :: wild_tokens (s' :: r')) ++ [TkEol]))
      with (option_map (cons (RStar RDot)) (group_terms (wild_tokens (s' :: r') ++ [TkEol]))).
    rewrite IH. cbn [option_map]. rewrite <- app_assoc. reflexivity.
Qed.

(** The source built for a pattern with [*] always compiles. *)
Lemma wildcard_source_parses (pattern : string) :
  parse_regex (wildcard_source pattern) =
  Some (RBol :: wild_terms (map list_ascii_of_string (split_char "*" pattern)) ++ [REol]).
Proof.
  unfold parse_regex, wildcard_source.
  change (list_ascii_of_string ("^" ++ join ".*" (map escape_regex (split_char "*" pattern)) ++ "$")%string)
    with ("^"%char :: list_ascii_of_string (join ".*" (map escape_regex (split_char "*" pattern)) ++ "$")).
  simpl lex_regex. rewrite lex_join by apply split_char_nonempty. simpl.
  rewrite group_wild. reflexivity.
Qed.

Lemma in_all_chars (a : ascii) : In a all_chars.
Proof.
  unfold all_chars. rewrite <- (ascii_nat_embedding a). apply in_map.
  apply in_seq. pose proof (nat_ascii_bounded a). lia.
Qed.

Lemma canon_lower_table :
  forallb (fun a => forallb (fun b =>
    Bool.eqb (N.eqb (canonicalize a) (canonicalize b)) (Ascii.eqb (lower_char a) (lower_char b)))
    all_chars) all_chars = true.
Proof. vm_compute. reflexivity. Qed.

(** On U+0000..U+00FF the [i] flag and [toLowerCase] identify the same
    characters. *)
Lemma canon_lower_iff (a b : ascii) :
  canonicalize a = canonicalize b <-> lower_char a = lower_char b.
Proof.
  pose proof canon_lower_table as T.
  rewrite forallb_forall in T. specialize (T a (in_all_chars a)).
  rewrite forallb_forall in T. specialize (T b (in_all_chars b)).
  apply Bool.eqb_prop in T.
  split; intros H.
  - apply Ascii.eqb_eq. rewrite <- T. apply N.eqb_eq. exact H.
  - apply N.eqb_eq. rewrite T. apply Ascii.eqb_eq. exact H.
Qed.

Lemma map_canon_lower (a b : list ascii) :
  map canonicalize a = map canonicalize b <-> ci_eq a b.
Proof.
  unfold ci_eq. revert b. induction a as [|x a IH]; intros [|y b]; simpl;
    try (split; intros; congruence).
  split; intros H; injection H as H1 H2; f_equal; try apply canon_lower_iff; auto;
    apply IH; auto.
Qed.

Lemma match_lits (seg : list ascii) (r : list rterm) :
  forall pos s,
  match_here (lit_terms seg ++ r) pos s = true <->
  exists s1 s2, s = s1 ++ s2 /\ map canonicalize seg = map canonicalize s1 /\
                match_here r (pos + List.length seg) s2 = true.
Proof.
  induction seg as [|c seg IH]; intros pos s.
  - simpl. rewrite Nat.add_0_r. split.
    + intros H. exists [], s. auto.
    + intros [s1 [s2 [-> [Hm H]]]]. destruct s1; [exact H|discriminate].
  - change (lit_terms (c :: seg) ++ r) with (RAtom (RLit c) :: (lit_terms seg ++ r)).
    destruct s as [|c' s'].
    + simpl. split; [discriminate|].
      intros [s1 [s2 [Hs [Hm _]]]]. destruct s1; [discriminate|discriminate].
    + simpl match_here. rewrite andb_true_iff, IH. split.
      * intros [Hc [s1 [s2 [-> [Hm H]]]]]. exists (c' :: s1), s2.
        split; [reflexivity|]. split.
        -- simpl. f_equal; auto. apply N.eqb_eq. exact Hc.
        -- simpl List.length. rewrite Nat.add_succ_r. exact H.
      * intros [s1 [s2 [Hs [Hm H]]]]. destruct s1 as [|d s1]; [discriminate|].
        injection Hs as -> ->. injection Hm as Hcd Hm.
        split; [apply N.eqb_eq; exact Hcd|].
        exists s1, s2. split; auto. split; auto.
        rewrite Nat.add_succ_r in H. exact H.
Qed.

Lemma match_star_cons (a : ratom) (r : list rterm) (pos : nat) (c : ascii) (s : list ascii) :
  match_here (RStar a :: r) pos (c :: s) =
  (atom_matches a c && match_here (RStar a :: r) (S pos) s) || match_here r pos (c :: s).
Proof. reflexivity. Qed.

Lemma match_star_nil (a : ratom) (r : list rterm) (pos : nat) :
  match_here (RStar a :: r) pos [] = match_here r pos [].
Proof. reflexivity. Qed.

Lemma match_star_dot (r : list rterm) :
  forall s pos,
  match_here (RStar RDot :: r) pos s = true <->
  exists mid s2, s = mid ++ s2 /\ forallb (fun c => negb (is_line_terminator c)) mid = true /\
                 match_here r (pos + List.length mid) s2 = true.
Proof.
  induction s as [|c s IH]; intros pos.
  - rewrite match_star_nil. split.
    + intros H. exists [], []. rewrite Nat.add_0_r. auto.
    + intros [mid [s2 [Hs [_ H]]]]. destruct mid; [|discriminate].
      simpl in Hs. subst s2. rewrite Nat.add_0_r in H. exact H.
  - rewrite match_star_cons, orb_true_iff, andb_true_iff, IH. simpl atom_matches. split.
    + intros [[Hc [mid [s2 [-> [Hmid H]]]]]|H].
      * exists (c :: mid), s2. simpl. rewrite Hc, Hmid. split; auto. split; auto.
        rewrite Nat.add_succ_r. exact H.
      * exists [], (c :: s). rewrite Nat.add_0_r. auto.
    + intros [mid [s2 [Hs [Hmid H]]]]. destruct mid as [|d mid].
      * right. simpl in Hs. subst s2. rewrite Nat.add_0_r in H. exact H.
      * left. injection Hs as -> ->. simpl in Hmid. apply andb_true_iff in Hmid as [Hd Hmid].
        split; auto. exists mid, s2. split; auto. split; auto.
        simpl List.length in H. rewrite Nat.add_succ_r in H. exact H.
Qed.

Lemma match_eol (pos : nat) (s : list ascii) : match_here [REol] pos s = true <-> s = [].
Proof. destruct s; simpl; split; congruence. Qed.

Lemma test_from_bol (ts : list rterm) (s : list ascii) :
  forall pos, test_from (RBol :: ts) (S pos) s = false.
Proof. induction s as [|c s IH]; intros pos; simpl; auto. Qed.

Lemma regex_test_bol (ts : list rterm) (input : string) :
  regex_test (RBol :: ts) input = match_here ts 0 (list_ascii_of_string input).
Proof.
  unfold regex_test. destruct (list_ascii_of_string input) as [|c s]; simpl.
  - rewrite orb_false_r. reflexivity.
  - rewrite test_from_bol, orb_false_r. reflexivity.
Qed.

Lemma wild_match (segs : list (list ascii)) :
  segs <> [] ->
  forall pos s, match_here (wild_terms segs ++ [REol]) pos s = true <-> glob_match segs s.
Proof.
  induction segs as [|seg segs IH]; intros Hne pos s; [contradiction|].
  destruct segs as [|seg' segs'].
  - simpl wild_terms. rewrite match_lits. split.
    + intros [s1 [s2 [-> [Hm H]]]]. apply match_eol in H. subst s2. rewrite app_nil_r.
      constructor. apply map_canon_lower. exact Hm.
    + intros H. inversion H; subst.
      * exists s, []. rewrite app_nil_r. split; auto. split; [apply map_canon_lower; auto|].
        apply match_eol. reflexivity.
      * match goal with Hn : [] <> [] |- _ => contradiction Hn; reflexivity end.
  - change (wild_terms (seg :: seg' :: segs')) with (lit_terms seg ++ RStar RDot :: wild_terms (seg' :: segs')).
    rewrite <- app_assoc, match_lits. simpl app at 1.
    split.
    + intros [s1 [s2 [-> [Hm H]]]].
      apply match_star_dot in H as [mid [s3 [-> [Hmid H]]]].
      apply IH in H; [|discriminate].
      constructor; auto; [discriminate|apply map_canon_lower; auto].
    + intros H. inversion H as [? ? Hci|? ? s1 mid s3 Hn Hci Hmid Hg]; subst.
      exists s1, (mid ++ s3). split; auto. split; [apply map_canon_lower; auto|].
      apply match_star_dot. exists mid, s3. split; auto. split; auto.
      apply IH; auto.
Qed.

(* ================================================================== *)
(** * Claims *)

(** C6: without [*] in the pattern, [matchExcludePattern] is equality up to
    case; with [*], it holds exactly when the model is matched, anchored
    at both ends and up to case, by the literal runs between the [*]s in
    order, separated by arbitrary runs of characters other than line
    terminators (the meaning of [.*]); [gpt-*-preview] matches
    [GPT-4-Preview] and not [gpt-4]. *)
Theorem matchExcludePattern_glob (model pattern : string) :
  (has_char "*" pattern = false ->
     (matchExcludePattern model pattern = true <-> toLowerCase model = toLowerCase pattern)) /\
  (has_char "*" pattern = true ->
     (matchExcludePattern model pattern = true <->
      glob_match (map list_ascii_of_string (split_char "*" pattern)) (list_ascii_of_string model))) /\
  matchExcludePattern "GPT-4-Preview" "gpt-*-preview" = true /\
  matchExcludePattern "gpt-4" "gpt-*-preview" = false.
Proof.
  split; [|split; [|split; reflexivity]].
  - intros H. unfold matchExcludePattern. rewrite H. simpl. apply String.eqb_eq.
  - intros H. unfold matchExcludePattern. rewrite H. simpl.
    rewrite wildcard_source_parses, regex_test_bol. apply wild_match.
    destruct (split_char "*" pattern) eqn:E; [|discriminate].
    exfalso. exact (split_char_nonempty _ _ E).
Qed.

(** C2 (as stated): deduplication by exact match would keep both ["A"] and
    ["a"]; the endpoints page's [normalizeApiKeyList] keeps only ["A"]. *)
Lemma normalizeApiKeyList_case_counterexample :
  ApiKeys.normalizeApiKeyList (JArr [JStr "A"; JStr "a"]) <> spec_api_keys [JStr "A"; JStr "a"].
Proof. vm_compute. discriminate. Qed.

(** C2 (amended): both copies of [normalizeApiKeyList] return, in input
    order, the non-empty trimmed keys read from plain strings or from the
    first non-null of [api-key], [apiKey], [key], [Key]; the endpoints
    page (part_002) keeps the first key of each class up to case, the older
    copy (part_000) the first of each exact value; on
    [[{api-key:"a"}, "a", {apiKey:"b"}]] both give [["a"; "b"]]. *)
Theorem normalizeApiKeyList_keys (items : list jsval) :
  ApiKeys.normalizeApiKeyList (JArr items) = spec_api_keys_ci items /\
  LegacyApiKeys.normalizeApiKeyList (JArr items) = spec_api_keys items /\
  ApiKeys.normalizeApiKeyList
    (JArr [JObj [("api-key", JStr "a")]; JStr "a"; JObj [("apiKey", JStr "b")]]) = ["a"; "b"] /\
  LegacyApiKeys.normalizeApiKeyList
    (JArr [JObj [("api-key", JStr "a")]; JStr "a"; JObj [("apiKey", JStr "b")]]) = ["a"; "b"].
Proof.
  split; [apply ApiKeys_normalize_spec|].
  split; [apply LegacyApiKeys_normalize_spec|].
  split; reflexivity.
Qed.

(** *** Proofs for the model list builder *)

Lemma first_seen_app (a b prev : list ModelInfo) :
  first_seen prev (a ++ b) = first_seen prev a ++ first_seen (prev ++ a) b.
Proof.
  revert prev. induction a as [|m a IH]; intros prev; simpl.
  - rewrite app_nil_r. reflexivity.
  - rewrite IH, <- app_assoc. simpl.
    destruct (_ && _); reflexivity.
Qed.

(** A model whose key no earlier model has is kept, cleaned. *)
Lemma dedupe_keeps (a b : list ModelInfo) (x : ModelInfo) :
  is_empty (trim x.(name)) = false ->
  (forall p, In p a -> name_key p <> name_key x) ->
  In (clean_model x) (dedupeModels (a ++ x :: b)).
Proof.
  intros Hx Ha. rewrite dedupeModels_spec, first_seen_app. simpl.
  rewrite Hx. simpl.
  destruct (existsb (fun p => String.eqb (name_key p) (name_key x)) a) eqn:E.
  - apply existsb_exists in E as [p [Hp Hpx]]. apply String.eqb_eq in Hpx.
    exfalso. exact (Ha p Hp Hpx).
  - apply in_map. apply in_or_app. right. left. reflexivity.
Qed.

Lemma flat_map_option_in {A} (g : A -> option ModelInfo) (l : list A) (m : ModelInfo) :
  In m (flat_map (fun x => match g x with Some y => [y] | None => [] end) l) ->
  exists p, In p l /\ g p = Some m.
Proof.
  intros H. apply in_flat_map in H as [p [Hp Hm]].
  destruct (g p) eqn:E; [|destruct Hm]. destruct Hm as [<-|[]]. eauto.
Qed.

Lemma alias_differs_sym_lower (n a : string) :
  alias_differs n a = true ->
  negb (is_empty (trim a)) = true /\
  String.eqb (toLowerCase (trim n)) (toLowerCase (trim a)) = false.
Proof.
  unfold alias_differs. intros H. apply andb_true_iff in H as [H1 H2].
  split; auto. apply negb_true_iff in H2. rewrite String.eqb_sym. exact H2.
Qed.


Lemma convert_swapped (it : ConfiguredModel) (a : string) :
  cm_alias it = Some a ->
  is_empty (trim (cm_name it)) = false ->
  alias_differs (cm_name it) a = true ->
  convert_configured_model it = Some (swapped_model (cm_name it) a).
Proof.
  intros Ha Hn Hd. unfold convert_configured_model. rewrite Hn, Ha. simpl normalizeOpt.
  unfold alias_differs in Hd. rewrite Hd. reflexivity.
Qed.

Lemma auth_kept (it : ApiModel) (d : string) :
  display_name it = Some d ->
  is_empty (trim (id it)) = false ->
  alias_differs (id it) d = true ->
  normalize_auth_api_model it = Some (kept_model (id it) d).
Proof.
  intros Ha Hn Hd. unfold normalize_auth_api_model. rewrite Hn, Ha. simpl normalizeOpt.
  unfold alias_differs in Hd. rewrite Hd. reflexivity.
Qed.

Lemma clean_swapped (n a : string) :
  is_empty (trim n) = false -> alias_differs n a = true ->
  clean_model (swapped_model n a) = swapped_model n a.
Proof.
  intros Hn Hd. apply alias_differs_sym_lower in Hd as [_ Hd].
  unfold clean_model, swapped_model. cbn [name alias description normalizeOpt].
  rewrite !trim_idem, Hn, Hd. reflexivity.
Qed.

Lemma clean_kept (i d : string) :
  alias_differs i d = true ->
  clean_model (kept_model i d) = kept_model i d.
Proof.
  intros Hd. unfold alias_differs in Hd.
  unfold clean_model, kept_model. cbn [name alias description normalizeOpt].
  rewrite !trim_idem, Hd. reflexivity.
Qed.

Lemma flat_map_option_app {A} (g : A -> option ModelInfo) (pre post : list A) (it : A) (x : ModelInfo) :
  g it = Some x ->
  flat_map (fun m => match g m with Some y => [y] | None => [] end) (pre ++ it :: post) =
  flat_map (fun m => match g m with Some y => [y] | None => [] end) pre ++ x ::
  flat_map (fun m => match g m with Some y => [y] | None => [] end) post.
Proof. intros H. rewrite flat_map_app. simpl. rewrite H. reflexivity. Qed.

(* ================================================================== *)
(** * Claims, continued *)

(** Claim C4, as stated: the counterexample.  An earlier item converting to
    the same name hides the swapped pair: [{name:"b"}, {name:"a", alias:"b"}]
    converts to [{name:"b"}] alone, so [{name:"b", alias:"a"}] is not output
    although the second item has a non-empty alias differing from its name. *)
Lemma convertConfiguredModels_alias_counterexample :
  let it := {| cm_name := "a"; cm_alias := Some "b" |} in
  let ms := [{| cm_name := "b"; cm_alias := None |}; it] in
  In it ms /\ alias_differs "a" "b" = true /\
  convertConfiguredModels (Some ms) = [{| name := "b"; alias := None; description := None |}] /\
  ~ In (swapped_model "a" "b") (convertConfiguredModels (Some ms)).
Proof.
  split; [right; left; reflexivity|]. split; [reflexivity|].
  split; [vm_compute; reflexivity|].
  vm_compute. intros [H|[]]. discriminate H.
Qed.

(** Claim C4 (amended): the two builders apply inverse alias conventions.
    A configured item with a non-empty trimmed name [n] and an alias [a]
    that is non-empty and differs from [n] up to case yields
    [{name: a, alias: n}] (trimmed) in [convertConfiguredModels]; an API
    model with a non-empty trimmed id [i] and a display name [d] differing
    from it up to case yields [{name: i, alias: d}] in
    [normalizeAuthApiModels]; in both cases provided no earlier item of the
    list converts to a name equal to that output name up to case (the
    first-seen dedupe would keep that earlier one instead).  The two
    examples of the spec hold. *)
Theorem convert_alias_conventions :
  (forall (pre post : list ConfiguredModel) (it : ConfiguredModel) (a : string),
      cm_alias it = Some a ->
      is_empty (trim (cm_name it)) = false ->
      alias_differs (cm_name it) a = true ->
      (forall p m, In p pre -> convert_configured_model p = Some m ->
                   name_key m <> toLowerCase (trim a)) ->
      In (swapped_model (cm_name it) a) (convertConfiguredModels (Some (pre ++ it :: post)))) /\
  (forall (pre post : list ApiModel) (it : ApiModel) (d : string),
      display_name it = Some d ->
      is_empty (trim (id it)) = false ->
      alias_differs (id it) d = true ->
      (forall p m, In p pre -> normalize_auth_api_model p = Some m ->
                   name_key m <> toLowerCase (trim (id it))) ->
      In (kept_model (id it) d) (normalizeAuthApiModels (pre ++ it :: post))) /\
  convertConfiguredModels (Some [{| cm_name := "gpt-4"; cm_alias := Some "GPT-4 Turbo" |}])
    = [{| name := "GPT-4 Turbo"; alias := Some "gpt-4"; description := None |}] /\
  normalizeAuthApiModels [{| id := "gpt-4"; display_name := Some "GPT-4 Turbo" |}]
    = [{| name := "gpt-4"; alias := Some "GPT-4 Turbo"; description := None |}].
Proof.
  split; [|split; [|split]].
  - intros pre post it a Ha Hn Hd Hpre.
    unfold convertConfiguredModels.
    rewrite (flat_map_option_app _ pre post it _ (convert_swapped it a Ha Hn Hd)).
    rewrite <- (clean_swapped (cm_name it) a Hn Hd) at 1.
    apply dedupe_keeps.
    + unfold swapped_model. cbn [name]. rewrite trim_idem.
      apply alias_differs_sym_lower in Hd as [Hd _]. apply negb_true_iff in Hd. exact Hd.
    + intros p Hp. apply flat_map_option_in in Hp as [q [Hq Hqp]].
      unfold swapped_model, name_key at 2. cbn [name]. rewrite trim_idem.
      exact (Hpre q p Hq Hqp).
  - intros pre post it d Ha Hn Hd Hpre.
    unfold normalizeAuthApiModels.
    rewrite (flat_map_option_app _ pre post it _ (auth_kept it d Ha Hn Hd)).
    rewrite <- (clean_kept (id it) d Hd) at 1.
    apply dedupe_keeps.
    + unfold kept_model. cbn [name]. rewrite trim_idem. exact Hn.
    + intros p Hp. apply flat_map_option_in in Hp as [q [Hq Hqp]].
      unfold kept_model, name_key at 2. cbn [name]. rewrite trim_idem.
      exact (Hpre q p Hq Hqp).
  - vm_compute. reflexivity.
  - vm_compute. reflexivity.
Qed.


(** *** Proofs for the page state *)

Lemma dict_get_set {A} (d : dict A) (k k' : string) (v : A) :
  dict_get (dict_set d k v) k' = if String.eqb k' k then Some v else dict_get d k'.
Proof.
  induction d as [|[k0 v0] r IH]; simpl.
  - destruct (String.eqb k' k); reflexivity.
  - destruct (String.eqb_spec k k0) as [->|Hne]; simpl.
    + destruct (String.eqb k' k0); reflexivity.
    + destruct (String.eqb_spec k' k0) as [->|Hne'].
      * destruct (String.eqb_spec k0 k) as [->|]; [congruence|reflexivity].
      * exact IH.
Qed.

Lemma refresh_all_fold (prev : dict ProviderModelsState) (entries : list EndpointProviderEntry)
  (acc : dict ProviderModelsState) :
  (forall k st, dict_get acc k = Some st -> st = loading_state prev k) ->
  forall k st,
  dict_get (fold_left (fun next entry =>
              dict_set next entry.(entry_id) (loading_state prev entry.(entry_id)))
            entries acc) k = Some st ->
  st = loading_state prev k.
Proof.
  revert acc. induction entries as [|e r IH]; intros acc Hacc; simpl.
  - exact Hacc.
  - apply IH. intros k st. rewrite dict_get_set.
    destruct (String.eqb_spec k (entry_id e)) as [->|_].
    + congruence.
    + apply Hacc.
Qed.

Lemma refresh_finish_tokens (s : PageState) (e : EndpointProviderEntry) (t : nat)
  (r : outcome (list ModelInfo)) :
  tokens (refresh_finish s e t r) = tokens s.
Proof.
  unfold refresh_finish. destruct (negb _); [reflexivity|]. destruct r; reflexivity.
Qed.

Lemma refresh_finish_stale (s : PageState) (e : EndpointProviderEntry) (t : nat)
  (r : outcome (list ModelInfo)) :
  dict_get s.(tokens) e.(entry_id) <> Some t -> refresh_finish s e t r = s.
Proof.
  intros H. unfold refresh_finish.
  destruct (dict_get (tokens s) (entry_id e)) as [t'|]; [|reflexivity].
  destruct (Nat.eqb_spec t' t) as [->|]; [congruence|reflexivity].
Qed.

(** Claim C7: every update of the models map leaves each provider that is
    [loading] afterwards with the models list it had before the update
    (the empty list if it had none): entering [loading], through
    [refreshSingleProviderModels] or [refreshAllProviderModels], never
    clears the stale models. *)
Theorem loading_keeps_previous_models (u : models_update) (prev : dict ProviderModelsState)
  (k : string) (st : ProviderModelsState) :
  dict_get (apply_update u prev) k = Some st ->
  st.(status) = Loading ->
  st.(models) = prev_models prev k.
Proof.
  intros Hget Hload. destruct u as [e|e ms|e err|entries|]; simpl in Hget.
  - rewrite dict_get_set in Hget.
    destruct (String.eqb_spec k (entry_id e)) as [->|_].
    + injection Hget as <-. reflexivity.
    + unfold prev_models. rewrite Hget. reflexivity.
  - rewrite dict_get_set in Hget.
    destruct (String.eqb_spec k (entry_id e)) as [->|_].
    + injection Hget as <-. discriminate Hload.
    + unfold prev_models. rewrite Hget. reflexivity.
  - rewrite dict_get_set in Hget.
    destruct (String.eqb_spec k (entry_id e)) as [->|_].
    + injection Hget as <-. discriminate Hload.
    + unfold prev_models. rewrite Hget. reflexivity.
  - unfold refresh_all_loading in Hget. destruct entries as [|e r]; [discriminate Hget|].
    apply refresh_all_fold in Hget; [subst st; reflexivity|].
    intros k' st' H. discriminate H.
  - discriminate Hget.
Qed.

Lemma loading_keeps_previous_models_witness :
  let prev := [("auth:claude", {| status := Success; models := [sample_model "m"]; error := None |})] in
  dict_get (apply_update (UAllLoading [sample_entry "claude" ["a.json"]]) prev) "auth:claude"
    = Some (loading_state prev "auth:claude") /\
  (loading_state prev "auth:claude").(status) = Loading /\
  (loading_state prev "auth:claude").(models) = prev_models prev "auth:claude" /\
  (loading_state prev "auth:claude").(models) = [sample_model "m"].
Proof.
  intros prev.
  assert (H1 : dict_get (apply_update (UAllLoading [sample_entry "claude" ["a.json"]]) prev)
                 "auth:claude" = Some (loading_state prev "auth:claude")) by reflexivity.
  assert (H2 : (loading_state prev "auth:claude").(status) = Loading) by reflexivity.
  split; [exact H1|]. split; [exact H2|].
  split; [exact (loading_keeps_previous_models _ prev "auth:claude" _ H1 H2)|reflexivity].
Defined.

(** Claim C1: two overlapping refreshes of the same provider id (both have
    taken their token before either settles) leave the state the later-
    started call alone produces, whichever settles first and whatever the
    earlier one settled with; and a call whose token is no longer the
    current one changes nothing when it settles. *)
Theorem refresh_last_started_wins (s0 : PageState) (e1 e2 : EndpointProviderEntry)
  (r1 r2 : outcome (list ModelInfo)) :
  e1.(entry_id) = e2.(entry_id) ->
  let (s1, t1) := refresh_start s0 e1 in
  let (s2, t2) := refresh_start s1 e2 in
  refresh_finish (refresh_finish s2 e1 t1 r1) e2 t2 r2 = refresh_finish s2 e2 t2 r2 /\
  refresh_finish (refresh_finish s2 e2 t2 r2) e1 t1 r1 = refresh_finish s2 e2 t2 r2 /\
  (forall s e t r, dict_get s.(tokens) e.(entry_id) <> Some t -> refresh_finish s e t r = s).
Proof.
  intros Hid.
  set (k := entry_id e1).
  destruct (refresh_start s0 e1) as [s1 t1'] eqn:E1.
  unfold refresh_start in E1. injection E1 as Es1 Et1.
  destruct (refresh_start s1 e2) as [s2 t2] eqn:E2.
  unfold refresh_start in E2. injection E2 as Es2 Et2.
  assert (Htok1 : dict_get (tokens s1) k = Some t1').
  { subst s1. simpl. rewrite dict_get_set, String.eqb_refl. subst t1'. reflexivity. }
  assert (Htok2 : dict_get (tokens s2) k = Some t2).
  { subst s2. simpl. rewrite <- Hid. fold k. rewrite dict_get_set, String.eqb_refl.
    subst t2. rewrite <- Hid. fold k. reflexivity. }
  assert (Hlt : t2 = S t1').
  { subst t2. rewrite <- Hid. fold k. rewrite Htok1. reflexivity. }
  assert (Hstale : dict_get (tokens s2) (entry_id e1) <> Some t1').
  { fold k. rewrite Htok2, Hlt. intros H. injection H. lia. }
  split; [|split].
  - rewrite (refresh_finish_stale s2 e1 t1' r1 Hstale). reflexivity.
  - apply refresh_finish_stale. rewrite refresh_finish_tokens. exact Hstale.
  - exact refresh_finish_stale.
Qed.

Lemma refresh_last_started_wins_witness :
  "auth:claude" = "auth:claude" /\
  let s0 := {| tokens := []; modelsByProvider := [] |} in
  let e := sample_entry "claude" ["a.json"] in
  let r1 := Ok [sample_model "old"] in
  let r2 := Ok [sample_model "new"] in
  let (s1, t1) := refresh_start s0 e in
  let (s2, t2) := refresh_start s1 e in
  refresh_finish (refresh_finish s2 e t1 r1) e t2 r2 = refresh_finish s2 e t2 r2 /\
  refresh_finish (refresh_finish s2 e t2 r2) e t1 r1 = refresh_finish s2 e t2 r2 /\
  (forall s e t r, dict_get s.(tokens) e.(entry_id) <> Some t -> refresh_finish s e t r = s).
Proof.
  split; [reflexivity|].
  exact (refresh_last_started_wins {| tokens := []; modelsByProvider := [] |}
           (sample_entry "claude" ["a.json"]) (sample_entry "claude" ["a.json"])
           (Ok [sample_model "old"]) (Ok [sample_model "new"]) eq_refl).
Defined.


(** Claim C10: a key of at most 8 code units masks to eight bullets whatever
    it is; a longer key masks to its first five code units, then
    min(length - 8, 16) bullets, then its last four code units; so a key of
    exactly 9 code units masks to the whole key with a single bullet
    inserted after its fifth code unit. *)
Theorem maskKey_shape (key : list N) :
  (List.length key <= 8 -> Mask.maskKey key = repeat Mask.bullet 8) /\
  (9 <= List.length key ->
     Mask.maskKey key = firstn 5 key ++ repeat Mask.bullet (Nat.min (List.length key - 8) 16)
                          ++ skipn (List.length key - 4) key /\
     List.length (skipn (List.length key - 4) key) = 4) /\
  (List.length key = 9 -> Mask.maskKey key = firstn 5 key ++ [Mask.bullet] ++ skipn 5 key).
Proof.
  unfold Mask.maskKey, Mask.slice_last. split; [|split].
  - intros H. apply Nat.leb_le in H. rewrite H. reflexivity.
  - intros H. assert (Hb : Nat.leb (List.length key) 8 = false) by (apply Nat.leb_gt; lia).
    rewrite Hb. split; [reflexivity|]. rewrite length_skipn. lia.
  - intros H. rewrite H. reflexivity.
Qed.

Lemma maskKey_shape_witness :
  Mask.maskKey [97;98;99;100;101;102;103;104;105]%N
    = firstn 5 [97;98;99;100;101;102;103;104;105]%N ++ [Mask.bullet]
      ++ skipn 5 [97;98;99;100;101;102;103;104;105]%N /\
  Mask.maskKey [97;98;99]%N = repeat Mask.bullet 8.
Proof.
  split.
  - exact (proj2 (proj2 (maskKey_shape [97;98;99;100;101;102;103;104;105]%N)) eq_refl).
  - exact (proj1 (maskKey_shape [97;98;99]%N) ltac:(simpl; lia)).
Defined.


(** *** Proofs for the thinking-level suffix *)

Lemma thinking_search_eq (i : nat) (s : list ascii) :
  thinking_search i s =
  match thinking_attempt i s with
  | Some r => Some r
  | None => match i with O => None | S j => thinking_search j s end
  end.
Proof. destruct i; reflexivity. Qed.

Lemma drop_ws_length (l : list ascii) : List.length (drop_ws l) <= List.length l.
Proof.
  destruct (drop_ws_suffix l) as [p Hp].
  rewrite Hp at 2. rewrite length_app. lia.
Qed.

Lemma trim_list_head (c : ascii) (r : list ascii) :
  trim_list (c :: r) = c :: r -> is_ws c = false.
Proof.
  intros H. destruct (is_ws c) eqn:E; [|reflexivity]. exfalso.
  assert (Hl : List.length (trim_list (c :: r)) <= List.length r).
  { unfold trim_list. simpl drop_ws. rewrite E.
    rewrite length_rev. eapply Nat.le_trans; [apply drop_ws_length|].
    rewrite length_rev. apply drop_ws_length. }
  rewrite H in Hl. simpl in Hl. lia.
Qed.

Lemma trim_list_string (s : string) :
  list_ascii_of_string (trim s) = trim_list (list_ascii_of_string s).
Proof. unfold trim, trim_list. apply list_ascii_of_string_of_list_ascii. Qed.

Lemma trim_first_char (base : string) :
  trim base = base -> is_empty base = false ->
  exists c r, list_ascii_of_string base = c :: r /\ is_ws c = false.
Proof.
  intros Ht He. destruct base as [|c r]; [discriminate He|].
  exists c, (list_ascii_of_string r). split; [reflexivity|].
  apply (trim_list_head c (list_ascii_of_string r)).
  change (c :: list_ascii_of_string r) with (list_ascii_of_string (String c r)).
  rewrite <- trim_list_string, Ht. reflexivity.
Qed.

(** The per-level facts: the level's text is lower case, trimmed, has no
    parenthesis and is recognised. *)
Lemma level_facts (l : ThinkingLevel) :
  list_ascii_of_string (level_string l) <> [] /\
  forallb (fun x => negb (is_paren x)) (list_ascii_of_string (level_string l)) = true /\
  level_of_string (toLowerCase (trim (level_string l))) = Some l.
Proof. destruct l; vm_compute; repeat split; discriminate. Qed.

Lemma no_paren_not_open (L : list ascii) (x : ascii) :
  forallb (fun x => negb (is_paren x)) L = true -> In x (L ++ [")"%char]) -> x <> "("%char.
Proof.
  intros HL Hx. apply in_app_or in Hx as [Hx|[<-|[]]]; [|discriminate].
  rewrite forallb_forall in HL. specialize (HL x Hx).
  intros ->. discriminate HL.
Qed.

Lemma suffix_group_skip (r : list ascii) (k : nat) :
  (forall x, In x r -> x <> "("%char) -> suffix_group (skipn k r) = None.
Proof.
  intros Hr. destruct (skipn k r) as [|x t] eqn:E; [reflexivity|].
  assert (Hx : In x r).
  { rewrite <- (firstn_skipn k r), E. apply in_or_app. right. left. reflexivity. }
  simpl. destruct (Ascii.eqb_spec x "("%char) as [->|]; [|reflexivity].
  exfalso. exact (Hr _ Hx eq_refl).
Qed.

Lemma thinking_search_skip (b r : list ascii) (k : nat) :
  (forall x, In x r -> x <> "("%char) -> k <= List.length r ->
  thinking_search (List.length b + 1 + k) (b ++ "("%char :: r) =
  thinking_search (List.length b) (b ++ "("%char :: r).
Proof.
  intros Hr. induction k as [|k IH]; intros Hk.
  - rewrite thinking_search_eq.
    replace (List.length b + 1 + 0) with (S (List.length b)) by lia.
    unfold thinking_attempt.
    replace (skipn (S (List.length b)) (b ++ "("%char :: r)) with (skipn 0 r).
    2:{ rewrite skipn_app, (skipn_all2 b) by lia.
        replace (S (List.length b) - List.length b) with 1 by lia. reflexivity. }
    rewrite (suffix_group_skip r 0 Hr). destruct (forallb _ _); reflexivity.
  - rewrite thinking_search_eq.
    replace (List.length b + 1 + S k) with (S (List.length b + 1 + k)) by lia.
    unfold thinking_attempt.
    replace (skipn (S (List.length b + 1 + k)) (b ++ "("%char :: r)) with (skipn (S k) r).
    2:{ rewrite skipn_app, (skipn_all2 b) by lia.
        replace (S (List.length b + 1 + k) - List.length b) with (S (S k)) by lia.
        reflexivity. }
    rewrite (suffix_group_skip r (S k) Hr).
    rewrite <- IH by lia. destruct (forallb _ _); reflexivity.
Qed.

Lemma suffix_group_level (L : list ascii) :
  L <> [] -> forallb (fun x => negb (is_paren x)) L = true ->
  suffix_group ("("%char :: L ++ [")"%char]) = Some L.
Proof.
  intros Hne Hp. simpl. rewrite rev_app_distr. simpl. rewrite rev_involutive.
  destruct (Nat.eqb_spec (List.length L) 0) as [H0|_].
  - destruct L; [congruence|discriminate H0].
  - rewrite Hp. reflexivity.
Qed.

Lemma trim_formatted (base s : string) :
  trim base = base -> is_empty base = false ->
  trim (base ++ "(" ++ s ++ ")") = (base ++ "(" ++ s ++ ")")%string.
Proof.
  intros Ht He. destruct (trim_first_char base Ht He) as [c [r [Hb Hc]]].
  rewrite <- (string_of_list_ascii_of_string (trim _)), trim_list_string.
  rewrite <- (string_of_list_ascii_of_string (base ++ _)) at 2. f_equal.
  rewrite !list_ascii_of_string_app, Hb. simpl.
  set (m := list_ascii_of_string s).
  unfold trim_list. rewrite (drop_ws_fix (c :: r ++ "("%char :: m ++ [")"%char]))
    by (right; eauto).
  replace (c :: r ++ "("%char :: m ++ [")"%char])
    with ((c :: r ++ "("%char :: m) ++ [")"%char]) by (simpl; rewrite <- app_assoc; reflexivity).
  rewrite rev_app_distr.
  set (X := c :: r ++ "("%char :: m).
  replace (drop_ws (rev [")"%char] ++ rev X)) with (rev [")"%char] ++ rev X) by reflexivity.
  rewrite <- rev_app_distr, rev_involutive. reflexivity.
Qed.

(* ================================================================== *)
(** * Claims, thinking-level suffix *)

(** Claim C9, as stated: the counterexample.  The base ["a" LF "b"] is
    non-empty and its own trim, yet its formatted value with level [high]
    does not parse back: [.] stops at the line feed, the regular expression
    fails, and the whole value is returned with no level. *)
Lemma thinking_roundtrip_counterexample :
  let base := String "a"%char (String "010"%char (String "b"%char EmptyString)) in
  trim base = base /\ is_empty base = false /\
  formatModelWithThinking base (Some High)
    = String "a"%char (String "010"%char (String "b"%char "(high)")) /\
  parseModelWithThinking (formatModelWithThinking base (Some High))
    = (String "a"%char (String "010"%char (String "b"%char "(high)")), None).
Proof. vm_compute. repeat split. Qed.

(** Claim C9 (amended): ["gpt-5(high)"] parses to base ["gpt-5"] with level
    [high] and formatting them gives the value back; and for every base
    model name that is non-empty, its own trim and free of line terminators,
    and every level among low, medium, high, xhigh, parsing the formatted
    value recovers that base and that level. *)
Theorem thinking_roundtrip (base : string) (l : ThinkingLevel) :
  single_line_base base = true ->
  parseModelWithThinking "gpt-5(high)" = ("gpt-5", Some High) /\
  formatModelWithThinking "gpt-5" (Some High) = "gpt-5(high)" /\
  parseModelWithThinking (formatModelWithThinking base (Some l)) = (base, Some l).
Proof.
  intros Hs. split; [vm_compute; reflexivity|]. split; [vm_compute; reflexivity|].
  unfold single_line_base in Hs.
  apply andb_true_iff in Hs as [Hs Hlt]. apply andb_true_iff in Hs as [Ht He].
  apply String.eqb_eq in Ht. apply negb_true_iff in He.
  destruct (level_facts l) as [HLne [HLp HLv]].
  unfold formatModelWithThinking. rewrite Ht, He.
  unfold parseModelWithThinking. rewrite (trim_formatted base _ Ht He).
  destruct (trim_first_char base Ht He) as [c [r [Hb _]]].
  replace (is_empty (base ++ "(" ++ level_string l ++ ")")) with false
    by (destruct base; [discriminate He|reflexivity]).
  set (b := list_ascii_of_string base) in *.
  set (L := list_ascii_of_string (level_string l)) in *.
  assert (Hfl : list_ascii_of_string (base ++ "(" ++ level_string l ++ ")")
                = b ++ "("%char :: (L ++ [")"%char])).
  { rewrite !list_ascii_of_string_app. reflexivity. }
  unfold thinking_match. rewrite Hfl.
  assert (Hlen : List.length (b ++ "("%char :: L ++ [")"%char])
                 = List.length b + 1 + List.length (L ++ [")"%char])).
  { rewrite length_app. simpl. lia. }
  rewrite Hlen.
  rewrite (thinking_search_skip b (L ++ [")"%char]) _ (fun x => no_paren_not_open L x HLp) (le_n _)).
  rewrite thinking_search_eq. unfold thinking_attempt.
  replace (firstn (List.length b) (b ++ "("%char :: L ++ [")"%char])) with b
    by (rewrite firstn_app, firstn_all, Nat.sub_diag; simpl; rewrite app_nil_r; reflexivity).
  replace (skipn (List.length b) (b ++ "("%char :: L ++ [")"%char]))
    with ("("%char :: L ++ [")"%char])
    by (rewrite skipn_app, skipn_all, Nat.sub_diag; reflexivity).
  rewrite Hlt.
  rewrite (suffix_group_level L HLne HLp).
  unfold b, L. rewrite !string_of_list_ascii_of_string.
  rewrite Ht, HLv, He. reflexivity.
Qed.

Lemma thinking_roundtrip_witness :
  single_line_base "claude-sonnet-4" = true /\
  parseModelWithThinking (formatModelWithThinking "claude-sonnet-4" (Some XHigh))
    = ("claude-sonnet-4", Some XHigh).
Proof.
  assert (H : single_line_base "claude-sonnet-4" = true) by (vm_compute; reflexivity).
  split; [exact H|].
  exact (proj2 (proj2 (thinking_roundtrip "claude-sonnet-4" XHigh H))).
Defined.


(** *** Proofs for the credential-file grouping *)

Lemma dict_set_keys {A} (d : dict A) (k x : string) (v : A) :
  In x (map fst (dict_set d k v)) <-> x = k \/ In x (map fst d).
Proof.
  induction d as [|[k0 v0] r IH]; simpl.
  - split; [intros [->|[]]; left; reflexivity|intros [->|[]]; left; reflexivity].
  - destruct (String.eqb_spec k k0) as [->|Hne]; simpl.
    + split; [intros [->|H]; [left; reflexivity|right; right; exact H]|].
      intros [->|[->|H]]; [left; reflexivity|left; reflexivity|right; exact H].
    + rewrite IH. tauto.
Qed.

Lemma dict_set_nodup {A} (d : dict A) (k : string) (v : A) :
  NoDup (map fst d) -> NoDup (map fst (dict_set d k v)).
Proof.
  induction d as [|[k0 v0] r IH]; simpl; intros Hd.
  - constructor; [intros []|constructor].
  - inversion Hd as [|? ? Hk0 Hr]; subst.
    destruct (String.eqb_spec k k0) as [->|Hne]; simpl.
    + constructor; assumption.
    + constructor; [|exact (IH Hr)].
      rewrite dict_set_keys. intros [->|H]; [congruence|contradiction].
Qed.

Lemma dict_get_keys {A} (d : dict A) (k : string) :
  dict_get d k = None <-> ~ In k (map fst d).
Proof.
  induction d as [|[k0 v0] r IH]; simpl.
  - tauto.
  - destruct (String.eqb_spec k k0) as [->|Hne].
    + split; [discriminate|]. intros H. exfalso. apply H. left. reflexivity.
    + rewrite IH. split; [intros H [->|H']; [congruence|contradiction]|tauto].
Qed.

Lemma dict_get_In {A} (d : dict A) (k : string) (v : A) :
  NoDup (map fst d) -> In (k, v) d -> dict_get d k = Some v.
Proof.
  induction d as [|[k0 v0] r IH]; simpl; [intros _ []|].
  intros Hd [H|H]; inversion Hd as [|? ? Hk0 Hr]; subst.
  - injection H as -> ->. rewrite String.eqb_refl. reflexivity.
  - destruct (String.eqb_spec k k0) as [->|Hne].
    + exfalso. apply Hk0. change k0 with (fst (k0, v)). apply in_map. exact H.
    + exact (IH Hr H).
Qed.

Lemma set_add_In (x y : string) (l : list string) : In x (set_add y l) <-> x = y \/ In x l.
Proof.
  unfold set_add. destruct (existsb (String.eqb y) l) eqn:E.
  - apply existsb_exists in E as [z [Hz Hyz]]. apply String.eqb_eq in Hyz. subst z.
    split; [tauto|]. intros [->|H]; assumption.
  - rewrite in_app_iff. simpl. split.
    + intros [H|[->|[]]]; [right; exact H|left; reflexivity].
    + intros [->|H]; [right; left; reflexivity|left; exact H].
Qed.

Lemma insert_by_order_perm (x : string * group) (l : list (string * group)) :
  Permutation (insert_by_order x l) (x :: l).
Proof.
  induction l as [|y r IH]; simpl; [reflexivity|].
  destruct (Nat.leb _ _); [reflexivity|].
  eapply perm_trans; [apply perm_skip, IH|apply perm_swap].
Qed.

Lemma sort_by_order_perm (l : list (string * group)) : Permutation (sort_by_order l) l.
Proof.
  induction l as [|x r IH]; simpl; [reflexivity|].
  eapply perm_trans; [apply insert_by_order_perm|]. apply perm_skip, IH.
Qed.

Lemma group_step_skip (acc : group_acc) (f : AuthFileItem) :
  kept_file f = false -> group_step acc f = acc.
Proof.
  unfold kept_file, group_step, file_key, file_raw_provider. intros H.
  destruct (isTruthyFlag _ || isTruthyFlag _); [reflexivity|]. simpl in H. cbv zeta.
  destruct (is_empty (normalizeProviderKey _)); [reflexivity|]. simpl in H.
  rewrite negb_false_iff in H. rewrite H. reflexivity.
Qed.

Lemma group_step_kept (acc : group_acc) (f : AuthFileItem) :
  kept_file f = true ->
  group_step acc f =
  match dict_get acc.(grouped) (file_key f) with
  | Some existing =>
      {| grouped := dict_set acc.(grouped) (file_key f)
                      {| label := existing.(label); g_order := existing.(g_order);
                         files := set_add (trim f.(af_name)) existing.(files) |};
         next_order := acc.(next_order) |}
  | None =>
      {| grouped := dict_set acc.(grouped) (file_key f)
                      {| label := file_raw_provider f; g_order := acc.(next_order);
                         files := [trim f.(af_name)] |};
         next_order := S acc.(next_order) |}
  end.
Proof.
  unfold kept_file, group_step, file_key, file_raw_provider. intros H.
  apply andb_true_iff in H as [H H3]. apply andb_true_iff in H as [H1 H2].
  apply negb_true_iff in H1, H2, H3. rewrite H1. cbv zeta. rewrite H2, H3. reflexivity.
Qed.

Lemma group_inv_skip (P : list AuthFileItem) (G : dict group) (f : AuthFileItem) :
  kept_file f = false -> group_inv P G -> group_inv (P ++ [f]) G.
Proof.
  intros Hf [Hnd [Hk Hn]]. split; [exact Hnd|split].
  - intros k. rewrite Hk. split; intros [g [Hg Hrest]].
    + exists g. split; [apply in_or_app; left; exact Hg|exact Hrest].
    + exists g. split; [|exact Hrest]. apply in_app_or in Hg as [Hg|[<-|[]]]; [exact Hg|].
      destruct Hrest as [Hkept _]. congruence.
  - intros k g n Hget. rewrite (Hn k g n Hget). split; intros [h [Hh Hrest]].
    + exists h. split; [apply in_or_app; left; exact Hh|exact Hrest].
    + exists h. split; [|exact Hrest]. apply in_app_or in Hh as [Hh|[<-|[]]]; [exact Hh|].
      destruct Hrest as [Hkept _]. congruence.
Qed.

Lemma group_inv_step (P : list AuthFileItem) (acc : group_acc) (f : AuthFileItem) :
  group_inv P acc.(grouped) -> group_inv (P ++ [f]) (group_step acc f).(grouped).
Proof.
  intros Hinv. destruct (kept_file f) eqn:Hf.
  2:{ rewrite group_step_skip by exact Hf. apply group_inv_skip; assumption. }
  destruct Hinv as [Hnd [Hk Hn]].
  rewrite group_step_kept by exact Hf.
  set (pk := file_key f). set (n0 := trim f.(af_name)).
  (* membership of the extended list *)
  assert (Hex : forall (Q : AuthFileItem -> Prop),
             (exists h, In h (P ++ [f]) /\ Q h) <-> (exists h, In h P /\ Q h) \/ Q f).
  { intros Q. split.
    - intros [h [Hh HQ]]. apply in_app_or in Hh as [Hh|[<-|[]]]; [left; eauto|right; exact HQ].
    - intros [[h [Hh HQ]]|HQ].
      + exists h. split; [apply in_or_app; left|]; assumption.
      + exists f. split; [apply in_or_app; right; left; reflexivity|exact HQ]. }
  destruct (dict_get (grouped acc) pk) as [existing|] eqn:Hget; simpl.
  - assert (HpkIn : In pk (map fst (grouped acc))).
    { destruct (In_dec String.string_dec pk (map fst (grouped acc))) as [H|H]; [exact H|].
      apply dict_get_keys in H. congruence. }
    split; [apply dict_set_nodup, Hnd|split].
    + intros k. rewrite dict_set_keys, (Hex (fun h => kept_file h = true /\ file_key h = k)), <- Hk.
      split; [intros [->|H]; [left; exact HpkIn|left; exact H]|].
      intros [H|[_ H]]; [right; exact H|left; symmetry; exact H].
    + intros k g n Hg. rewrite dict_get_set in Hg.
      rewrite (Hex (fun h => kept_file h = true /\ file_key h = k /\ trim (af_name h) = n)).
      destruct (String.eqb_spec k pk) as [->|Hne].
      * injection Hg as <-. simpl. rewrite set_add_In, (Hn pk existing n Hget).
        split; [intros [->|H]; [right; auto|left; exact H]|].
        intros [H|[_ [_ H]]]; [right; exact H|left; symmetry; exact H].
      * rewrite (Hn k g n Hg). split; [intros H; left; exact H|].
        intros [H|[_ [Hk' _]]]; [exact H|]. exfalso. apply Hne. symmetry. exact Hk'.
  - assert (HpkOut : ~ In pk (map fst (grouped acc))) by (apply dict_get_keys; exact Hget).
    split; [apply dict_set_nodup, Hnd|split].
    + intros k. rewrite dict_set_keys, (Hex (fun h => kept_file h = true /\ file_key h = k)), <- Hk.
      split; [intros [->|H]; [right; auto|left; exact H]|].
      intros [H|[_ H]]; [right; exact H|left; symmetry; exact H].
    + intros k g n Hg. rewrite dict_get_set in Hg.
      rewrite (Hex (fun h => kept_file h = true /\ file_key h = k /\ trim (af_name h) = n)).
      destruct (String.eqb_spec k pk) as [->|Hne].
      * injection Hg as <-. simpl.
        split; [intros [Heq|[]]; right; split; [exact Hf|split; [reflexivity|exact Heq]]|].
        intros [[h [Hh [Hkh [Hkey _]]]]|[_ [_ H]]]; [|left; exact H].
        exfalso. apply HpkOut. apply Hk. exists h. auto.
      * rewrite (Hn k g n Hg). split; [intros H; left; exact H|].
        intros [H|[_ [Hk' _]]]; [exact H|]. exfalso. apply Hne. symmetry. exact Hk'.
Qed.

Lemma group_inv_fold (files0 P : list AuthFileItem) (acc : group_acc) :
  group_inv P acc.(grouped) ->
  group_inv (P ++ files0) (fold_left group_step files0 acc).(grouped).
Proof.
  revert P acc. induction files0 as [|f r IH]; intros P acc H; simpl.
  - rewrite app_nil_r. exact H.
  - replace (P ++ f :: r) with ((P ++ [f]) ++ r) by (rewrite <- app_assoc; reflexivity).
    apply IH. apply group_inv_step. exact H.
Qed.

Lemma group_inv_build (authFiles : list AuthFileItem) :
  group_inv authFiles
    (fold_left group_step authFiles {| grouped := []; next_order := 0 |}).(grouped).
Proof.
  apply (group_inv_fold authFiles []).
  split; [constructor|split].
  - intros k. simpl. split; [intros []|intros [f [[] _]]].
  - intros k g n H. discriminate H.
Qed.

Lemma build_entries_In aF aM eM b0 k0 (e : EndpointProviderEntry) :
  In e (buildAuthProviderEntries aF aM eM b0 k0) ->
  exists pk data,
    In (pk, data) (fold_left group_step aF {| grouped := []; next_order := 0 |}).(grouped) /\
    e.(providerKey) = pk /\ e.(entry_id) = ("auth:" ++ pk)%string /\
    e.(sourceKind) = AuthProxy /\ e.(authFileNames) = Some data.(files).
Proof.
  unfold buildAuthProviderEntries. intros H. apply in_map_iff in H as [[pk data] [<- Hin]].
  exists pk, data. split; [|repeat split].
  apply (Permutation_in _ (sort_by_order_perm _)). exact Hin.
Qed.

Lemma build_entries_keys aF aM eM b0 k0 :
  Permutation (map providerKey (buildAuthProviderEntries aF aM eM b0 k0))
    (map fst (fold_left group_step aF {| grouped := []; next_order := 0 |}).(grouped)).
Proof.
  unfold buildAuthProviderEntries. rewrite map_map.
  erewrite map_ext; [apply Permutation_map, sort_by_order_perm|].
  intros [pk data]. reflexivity.
Qed.

(* ================================================================== *)
(** * Claims, credential-file grouping *)

(** Claim C5, as stated: the counterexample.  A file with an empty name
    (neither flag set, provider type [claude]) yields no entry at all,
    where the claim asks for one entry for the key [claude]. *)
Lemma buildAuthProviderEntries_empty_name_counterexample :
  isTruthyFlag JUndef = false /\
  normalizeProviderKey "claude" = "claude" /\
  buildAuthProviderEntries [auth_file "" "claude" JUndef] [] [] "" [] = [].
Proof. vm_compute. repeat split. Qed.

(** Claim C5 (amended): a file contributes exactly when neither its
    [disabled] nor its [unavailable] flag is truthy (true, a non-zero number,
    or a string that trimmed and lower-cased is true, 1, yes, y or on), and
    its lower-cased provider key and its trimmed name are both non-empty.
    The entries carry pairwise distinct provider keys, exactly the keys of
    the contributing files; the [authFileNames] of each entry are exactly
    the trimmed names of the contributing files of its key.  A file with
    [disabled: "yes"] is dropped, one with [disabled: "no"] kept, and two
    files of the same type give one entry with both names. *)
Theorem buildAuthProviderEntries_groups (authFiles : list AuthFileItem)
  (aliasMap : dict (list OAuthModelAliasEntry)) (excludedMap : dict (list string))
  (baseUrl0 : string) (keyOptions0 : list string) :
  let es := buildAuthProviderEntries authFiles aliasMap excludedMap baseUrl0 keyOptions0 in
  NoDup (map providerKey es) /\
  (forall k, In k (map providerKey es) <->
             exists f, In f authFiles /\ kept_file f = true /\ file_key f = k) /\
  (forall e n, In e es ->
     (exists names, e.(authFileNames) = Some names /\
        (In n names <-> exists f, In f authFiles /\ kept_file f = true /\
                                  file_key f = e.(providerKey) /\ trim f.(af_name) = n))) /\
  buildAuthProviderEntries [auth_file "a.json" "claude" (JStr "yes")] [] [] "" [] = [] /\
  map authFileNames (buildAuthProviderEntries [auth_file "a.json" "claude" (JStr "no")] [] [] "" [])
    = [Some ["a.json"]] /\
  map authFileNames
    (buildAuthProviderEntries [auth_file "a.json" "claude" JUndef; auth_file "b.json" "Claude" JUndef]
       [] [] "" [])
    = [Some ["a.json"; "b.json"]].
Proof.
  intros es. destruct (group_inv_build authFiles) as [Hnd [Hk Hn]].
  split; [|split; [|split; [|split; [|split]]]].
  - eapply Permutation_NoDup; [symmetry; apply build_entries_keys|exact Hnd].
  - intros k. rewrite <- Hk. split; apply Permutation_in;
      [apply build_entries_keys|symmetry; apply build_entries_keys].
  - intros e n He. apply build_entries_In in He as [pk [data [Hin [Hpk [_ [_ Hf]]]]]].
    exists data.(files). split; [exact Hf|]. rewrite Hpk.
    apply Hn. apply dict_get_In; assumption.
  - vm_compute. reflexivity.
  - vm_compute. reflexivity.
  - vm_compute. reflexivity.
Qed.


(** *** Proofs for the model fallback *)

Lemma lower_char_ws (c : ascii) : is_ws (lower_char c) = is_ws c.
Proof. destruct c as [[|] [|] [|] [|] [|] [|] [|] [|]]; reflexivity. Qed.

Lemma drop_ws_nonempty (l : list ascii) (c : ascii) :
  In c l -> is_ws c = false -> drop_ws l <> [].
Proof.
  induction l as [|x r IH]; simpl; [intros []|].
  intros [->|H] Hc.
  - rewrite Hc. discriminate.
  - destruct (is_ws x); [exact (IH H Hc)|discriminate].
Qed.

Lemma trim_nonempty_of (s : string) (c : ascii) :
  In c (list_ascii_of_string s) -> is_ws c = false -> is_empty (trim s) = false.
Proof.
  intros Hc Hws.
  assert (H : trim_list (list_ascii_of_string s) <> []).
  { unfold trim_list. intros H. apply (f_equal (@rev ascii)) in H.
    rewrite rev_involutive in H. revert H.
    destruct (drop_ws_head (list_ascii_of_string s)) as [H0|[d [r [Hd Hdws]]]].
    - exfalso. exact (drop_ws_nonempty _ c Hc Hws H0).
    - rewrite Hd. apply (drop_ws_nonempty (rev (d :: r)) d); [|exact Hdws].
      apply in_rev. rewrite rev_involutive. left. reflexivity. }
  destruct (trim s) eqn:E; [|reflexivity].
  exfalso. apply H. rewrite <- trim_list_string, E. reflexivity.
Qed.

Lemma provider_key_nonempty (f : AuthFileItem) :
  kept_file f = true -> is_empty (normalizeProviderKey (file_key f)) = false.
Proof.
  unfold kept_file. intros H.
  apply andb_true_iff in H as [H _]. apply andb_true_iff in H as [_ H].
  apply negb_true_iff in H.
  unfold normalizeProviderKey. rewrite is_empty_lower.
  unfold file_key, normalizeProviderKey in *. rewrite is_empty_lower in H.
  destruct (trim_first_char (trim (file_raw_provider f)) (trim_idem _) H) as [c [r [Hcr Hc]]].
  apply (trim_nonempty_of _ (lower_char c)); [|rewrite lower_char_ws; exact Hc].
  destruct (trim (file_raw_provider f)) as [|c' r'] eqn:E; [discriminate Hcr|].
  simpl in Hcr. injection Hcr as -> _. simpl. left. reflexivity.
Qed.

Lemma built_entry_props aF aM eM b0 k0 (e : EndpointProviderEntry) :
  In e (buildAuthProviderEntries aF aM eM b0 k0) ->
  e.(sourceKind) = AuthProxy /\
  is_empty (normalizeProviderKey e.(providerKey)) = false /\
  exists names, e.(authFileNames) = Some names /\ names <> [].
Proof.
  intros He. destruct (group_inv_build aF) as [Hnd [Hk Hn]].
  apply build_entries_In in He as [pk [data [Hin [Hpk [_ [Hsk Hf]]]]]].
  assert (Hkey : In pk (map fst (fold_left group_step aF {| grouped := []; next_order := 0 |}).(grouped))).
  { change pk with (fst (pk, data)). apply in_map. exact Hin. }
  apply Hk in Hkey as [f [Hfin [Hkept Hfk]]].
  split; [exact Hsk|split].
  - rewrite Hpk, <- Hfk. apply provider_key_nonempty. exact Hkept.
  - exists data.(files). split; [exact Hf|].
    assert (Hnm : In (trim f.(af_name)) data.(files)).
    { apply (Hn pk data _ (dict_get_In _ _ _ Hnd Hin)). exists f. auto. }
    destruct (files data); [destruct Hnm|discriminate].
Qed.

Lemma existsb_is_ok_false {A} (l : list (outcome A)) :
  existsb is_ok l = false -> forall r, In r l -> is_ok r = false.
Proof.
  intros H r Hr. destruct (is_ok r) eqn:E; [|reflexivity].
  rewrite <- H. symmetry. apply existsb_exists. eauto.
Qed.

(* ================================================================== *)
(** * Claims, model fallback *)

(** Claim C3: for every entry of [buildAuthProviderEntries] (which has
    credential file names), the provider-level definitions come first and
    are used when they yield models; when the definitions call failed or
    yielded none and at least one per-file call succeeds, the models
    collected from the successful calls are used and any definitions failure
    is swallowed; and the resolution fails exactly when the definitions call
    failed and every per-file call failed, with the definitions error.  The
    definitions request rejects with an [Error] object, as the API client
    does, so its rejection value is truthy. *)
Theorem fetchAuthProxyModels_fallback aF aM eM b0 k0 (e : EndpointProviderEntry)
  (defs : outcome (list ApiModel)) (per_file : string -> outcome (list ApiModel)) :
  In e (buildAuthProviderEntries aF aM eM b0 k0) ->
  (forall err, defs = Err err -> error_truthy err = true) ->
  exists names, e.(authFileNames) = Some names /\ names <> [] /\
  (forall dm, defs = Ok dm -> normalizeAuthApiModels dm <> [] ->
     fetchAuthProxyModels e defs per_file = Ok (post_models e (normalizeAuthApiModels dm))) /\
  ((forall dm, defs = Ok dm -> normalizeAuthApiModels dm = []) ->
   existsb is_ok (map per_file names) = true ->
     fetchAuthProxyModels e defs per_file = Ok (post_models e (fallback_models names per_file))) /\
  (forall err, fetchAuthProxyModels e defs per_file = Err err <->
     defs = Err err /\ forall n, In n names -> is_ok (per_file n) = false).
Proof.
  intros He Htruthy. destruct (built_entry_props aF aM eM b0 k0 e He) as [_ [Hpk [names [Hnames Hne]]]].
  exists names. split; [exact Hnames|split; [exact Hne|]].
  destruct names as [|n1 rest]; [contradiction|].
  unfold fetchAuthProxyModels, post_models, fallback_models. rewrite Hpk, Hnames.
  split; [|split].
  - intros dm -> Hdm. cbv zeta. destruct (normalizeAuthApiModels dm); [contradiction|reflexivity].
  - intros Hdefs Hok. rewrite Hok.
    destruct defs as [dm|err]; cbv zeta.
    + rewrite (Hdefs dm eq_refl). reflexivity.
    + reflexivity.
  - intros err. destruct defs as [dm|err0]; cbv zeta.
    + split; [|intros [H _]; discriminate H].
      destruct (normalizeAuthApiModels dm); [|discriminate].
      destruct (existsb is_ok _); discriminate.
    + destruct (existsb is_ok (map per_file (n1 :: rest))) eqn:Hok.
      * split; [discriminate|]. intros [_ Hall]. exfalso.
        apply existsb_exists in Hok as [r [Hr Hrok]].
        apply in_map_iff in Hr as [n [<- Hn]]. rewrite (Hall n Hn) in Hrok. discriminate.
      * rewrite (Htruthy err0 eq_refl). split.
        -- intros H. injection H as <-. split; [reflexivity|].
           intros n Hn. apply (existsb_is_ok_false _ Hok). apply in_map. exact Hn.
        -- intros [H _]. injection H as <-. reflexivity.
Qed.

Lemma fetchAuthProxyModels_fallback_witness :
  let files0 := [auth_file "a.json" "claude" JUndef; auth_file "b.json" "claude" JUndef] in
  exists e, In e (buildAuthProviderEntries files0 [] [] "" []) /\
  fetchAuthProxyModels e (Err (ErrInstance "404"))
    (fun n => if String.eqb n "a.json" then Err (ErrInstance "401")
              else Ok [{| id := "claude-sonnet-4"; display_name := None |}])
    = Ok [sample_model "claude-sonnet-4"] /\
  fetchAuthProxyModels e (Err (ErrInstance "404")) (fun _ => Err (ErrInstance "401"))
    = Err (ErrInstance "404").
Proof.
  intros files0.
  set (es := buildAuthProviderEntries files0 [] [] "" []).
  assert (Hin : In (hd (sample_entry "" []) es) es) by (left; reflexivity).
  exists (hd (sample_entry "" []) es). split; [exact Hin|]. split; [vm_compute; reflexivity|].
  assert (Ht : forall err, @Err (list ApiModel) (ErrInstance "404") = Err err ->
                          error_truthy err = true)
    by (intros err H; injection H as <-; reflexivity).
  destruct (fetchAuthProxyModels_fallback files0 [] [] "" [] _ (Err (ErrInstance "404"))
              (fun _ => Err (ErrInstance "401")) Hin Ht) as [names [Hn [Hne [_ [_ Hfail]]]]].
  apply (proj2 (Hfail (ErrInstance "404"))). split; [reflexivity|].
  intros n _. reflexivity.
Defined.


(* ================================================================== *)
(** * Further properties of the endpoints page *)

(** *** Key lists *)

Lemma first_occ_in (key : string -> string) (l : list string) :
  forall prev x, In x (first_occurrences_from key prev l) -> In x l.
Proof.
  induction l as [|y r IH]; intros prev x; simpl; [intros []|].
  destruct (existsb _ prev).
  - intros H. right. exact (IH _ _ H).
  - intros [->|H]; [left; reflexivity|right; exact (IH _ _ H)].
Qed.

Lemma first_occ_distinct (key : string -> string) (l : list string) :
  forall prev,
  (forall x p, In x (first_occurrences_from key prev l) -> In p prev -> key p <> key x) /\
  NoDup (map key (first_occurrences_from key prev l)).
Proof.
  induction l as [|y r IH]; intros prev; simpl.
  - split; [intros _ _ []|constructor].
  - destruct (IH (prev ++ [y])) as [H1 H2].
    destruct (existsb (fun p => String.eqb (key p) (key y)) prev) eqn:E.
    + split; [|exact H2]. intros x p Hx Hp. apply H1; [exact Hx|apply in_or_app; left; exact Hp].
    + split.
      * intros x p [<-|Hx] Hp.
        -- intros Heq.
           assert (existsb (fun p => String.eqb (key p) (key y)) prev = true)
             by (apply existsb_exists; exists p; split; [exact Hp|apply String.eqb_eq; exact Heq]).
           congruence.
        -- apply H1; [exact Hx|apply in_or_app; left; exact Hp].
      * simpl. constructor; [|exact H2].
        intros Hin. apply in_map_iff in Hin as [x [Hx Hin]].
        refine (H1 x y Hin _ (eq_sym Hx)). apply in_or_app. right. left. reflexivity.
Qed.

Lemma first_occ_fix (key : string -> string) (l : list string) :
  forall prev,
  NoDup (map key l) -> (forall x p, In x l -> In p prev -> key p <> key x) ->
  first_occurrences_from key prev l = l.
Proof.
  induction l as [|y r IH]; intros prev Hnd Hprev; simpl; [reflexivity|].
  inversion Hnd as [|? ? Hy Hr]; subst.
  destruct (existsb (fun p => String.eqb (key p) (key y)) prev) eqn:E.
  - exfalso. apply existsb_exists in E as [p [Hp Hpy]]. apply String.eqb_eq in Hpy.
    exact (Hprev y p (or_introl eq_refl) Hp Hpy).
  - f_equal. apply IH; [exact Hr|].
    intros x p Hx Hp. apply in_app_or in Hp as [Hp|[<-|[]]].
    + apply Hprev; [right; exact Hx|exact Hp].
    + intros Heq. apply Hy. rewrite Heq. apply in_map. exact Hx.
Qed.

Lemma filter_all {A} (g : A -> bool) (l : list A) :
  (forall x, In x l -> g x = true) -> filter g l = l.
Proof.
  induction l as [|x r IH]; simpl; intros H; [reflexivity|].
  rewrite (H x (or_introl eq_refl)). f_equal. apply IH. intros y Hy. apply H. right. exact Hy.
Qed.

Lemma spec_keys_props (key : string -> string) (items : list jsval) :
  NoDup (map key (dedup_by key (filter (fun s => negb (is_empty s))
                                   (map (fun it => normalizeText (api_key_value it)) items)))) /\
  Forall (fun k => trim k = k /\ is_empty k = false)
    (dedup_by key (filter (fun s => negb (is_empty s))
                     (map (fun it => normalizeText (api_key_value it)) items))).
Proof.
  unfold dedup_by. split.
  - apply first_occ_distinct.
  - apply Forall_forall. intros k Hk. apply first_occ_in in Hk.
    apply filter_In in Hk as [Hk He]. apply in_map_iff in Hk as [it [<- _]].
    apply negb_true_iff in He. split; [unfold normalizeText; apply trim_idem|exact He].
Qed.

Lemma buildKeyOptions_spec (ks : list string) :
  buildKeyOptions ks = dedup_by toLowerCase (filter (fun s => negb (is_empty s)) (map trim ks)).
Proof.
  unfold buildKeyOptions. rewrite ApiKeys_normalize_spec. unfold spec_api_keys_ci.
  rewrite map_map. reflexivity.
Qed.

Lemma buildKeyOptions_props (ks : list string) :
  NoDup (map toLowerCase (buildKeyOptions ks)) /\
  Forall (fun k => trim k = k /\ is_empty k = false) (buildKeyOptions ks).
Proof.
  unfold buildKeyOptions. rewrite ApiKeys_normalize_spec. apply spec_keys_props.
Qed.

Lemma buildKeyOptions_idem (ks : list string) :
  buildKeyOptions (buildKeyOptions ks) = buildKeyOptions ks.
Proof.
  destruct (buildKeyOptions_props ks) as [Hnd Hf]. rewrite Forall_forall in Hf.
  rewrite (buildKeyOptions_spec (buildKeyOptions ks)).
  rewrite (map_ext_in trim (fun k => k)) by (intros k Hk; apply (Hf k Hk)).
  rewrite map_id, filter_all by (intros k Hk; apply negb_true_iff, (Hf k Hk)).
  apply first_occ_fix; [exact Hnd|intros _ _ _ []].
Qed.

(** [normalizeExcludedPatterns] keeps the patterns as [buildKeyOptions]
    keeps keys. *)
Lemma normalizeExcludedPatterns_keys (ps : list string) :
  normalizeExcludedPatterns (Some ps) = buildKeyOptions ps.
Proof.
  unfold normalizeExcludedPatterns, buildKeyOptions, ApiKeys.normalizeApiKeyList.
  destruct ps as [|p ps]; [reflexivity|].
  match goal with |- (fold_left ?g _ _).(normalized) = _ => set (G := g) end.
  assert (H : forall l acc, (fold_left G l acc).(normalized) =
     (fold_left ApiKeys.step (map JStr l)
        {| seen := seen_patterns acc; keys := normalized acc |}).(keys)).
  { induction l as [|q l IH]; intros acc; [reflexivity|].
    simpl. rewrite IH. f_equal. f_equal.
    unfold G, ApiKeys.step. change (normalizeText (api_key_value (JStr q))) with (trim q).
    destruct (is_empty (trim q)); [reflexivity|]. simpl.
    destruct (existsb _ _); reflexivity. }
  apply H.
Qed.

(** *** Model lists *)

Lemma first_seen_in (l : list ModelInfo) :
  forall prev x, In x (first_seen prev l) -> In x l.
Proof.
  induction l as [|m r IH]; intros prev x; simpl; [intros []|].
  destruct (_ && _).
  - intros [->|H]; [left; reflexivity|right; exact (IH _ _ H)].
  - intros H. right. exact (IH _ _ H).
Qed.

Lemma name_key_empty (m : ModelInfo) : is_empty (name_key m) = is_empty (trim m.(name)).
Proof. unfold name_key. apply is_empty_lower. Qed.

Lemma first_seen_covers (l : list ModelInfo) :
  forall prev m0, In m0 l -> is_empty (trim m0.(name)) = false ->
  (exists p, In p prev /\ name_key p = name_key m0) \/
  (exists x, In x (first_seen prev l) /\ name_key x = name_key m0).
Proof.
  induction l as [|m r IH]; intros prev m0 Hin Hne; [destruct Hin|].
  simpl.
  destruct (negb (is_empty (trim (name m)))
            && negb (existsb (fun p => String.eqb (name_key p) (name_key m)) prev)) eqn:E.
  - destruct Hin as [->|Hin].
    + right. exists m0. split; [left|]; reflexivity.
    + destruct (IH (prev ++ [m]) m0 Hin Hne) as [[p [Hp Hpk]]|[x [Hx Hxk]]].
      * apply in_app_or in Hp as [Hp|[->|[]]].
        -- left. eauto.
        -- right. exists p. split; [left; reflexivity|exact Hpk].
      * right. exists x. split; [right; exact Hx|exact Hxk].
  - assert (Hdup : forall y, name_key y = name_key m -> is_empty (trim y.(name)) = false ->
                    exists p, In p prev /\ name_key p = name_key y).
    { intros y Hy Hyne. apply andb_false_iff in E as [E|E].
      - apply negb_false_iff in E. rewrite <- name_key_empty, Hy, name_key_empty in Hyne.
        congruence.
      - apply negb_false_iff, existsb_exists in E as [p [Hp Hpm]].
        apply String.eqb_eq in Hpm. exists p. split; [exact Hp|congruence]. }
    destruct Hin as [->|Hin].
    + left. apply Hdup; [reflexivity|exact Hne].
    + destruct (IH (prev ++ [m]) m0 Hin Hne) as [[p [Hp Hpk]]|[x [Hx Hxk]]].
      * apply in_app_or in Hp as [Hp|[->|[]]].
        -- left. eauto.
        -- left. apply Hdup; [symmetry; exact Hpk|exact Hne].
      * right. exists x. split; [exact Hx|exact Hxk].
Qed.

Lemma dedupeModels_props (ms : list ModelInfo) :
  NoDup (map name_key (dedupeModels ms)) /\
  Forall (fun m => trim m.(name) = m.(name) /\ is_empty m.(name) = false) (dedupeModels ms).
Proof.
  rewrite dedupeModels_spec. destruct (first_seen_props ms []) as [Hf [_ Hnd]].
  split.
  - rewrite map_map. rewrite (map_ext _ _ name_key_clean). exact Hnd.
  - apply Forall_map. eapply Forall_impl; [|exact Hf].
    intros m Hm. unfold clean_model. simpl. rewrite trim_idem. split; [reflexivity|exact Hm].
Qed.

Lemma NoDup_map_filter {A B} (f : A -> B) (g : A -> bool) (l : list A) :
  NoDup (map f l) -> NoDup (map f (filter g l)).
Proof.
  induction l as [|x r IH]; simpl; intros H; [constructor|].
  inversion H as [|? ? Hx Hr]; subst.
  destruct (g x); simpl; [|exact (IH Hr)].
  constructor; [|exact (IH Hr)].
  intros Hin. apply Hx. apply in_map_iff in Hin as [y [Hy Hin]].
  rewrite <- Hy. apply in_map. apply filter_In in Hin as [Hin _]. exact Hin.
Qed.

Lemma filterExcludedModels_filter (ms : list ModelInfo) (ps : option (list string)) :
  filterExcludedModels ms ps =
  filter (fun model =>
            negb (existsb (fun candidate =>
                     existsb (fun pattern => matchExcludePattern candidate pattern)
                       (normalizeExcludedPatterns ps)) (exclusion_candidates model))) ms.
Proof.
  unfold filterExcludedModels, exclusion_candidates.
  destruct (normalizeExcludedPatterns ps) as [|p0 pr].
  - symmetry. apply filter_all. intros m _.
    generalize (filter (fun c => negb (is_empty c)) [trim (name m); normalizeOpt (alias m)]).
    intros l. induction l as [|c l IH]; [reflexivity|exact IH].
  - apply filter_ext. intros m.
    destruct (filter (fun c => negb (is_empty c)) [trim (name m); normalizeOpt (alias m)]);
      reflexivity.
Qed.

Lemma applyAliasLookup_dedupe (ms : list ModelInfo) (lk : option (dict string)) :
  exists ms', applyAliasLookup ms lk = dedupeModels ms'.
Proof. unfold applyAliasLookup. destruct lk as [[|]|]; eexists; reflexivity. Qed.

Lemma post_models_props (e : EndpointProviderEntry) (ms : list ModelInfo) :
  NoDup (map name_key (post_models e ms)) /\
  Forall (fun m => trim m.(name) = m.(name) /\ is_empty m.(name) = false) (post_models e ms).
Proof.
  unfold post_models. rewrite filterExcludedModels_filter.
  destruct (applyAliasLookup_dedupe ms (aliasLookup e)) as [ms' ->].
  destruct (dedupeModels_props ms') as [Hnd Hf]. split.
  - apply NoDup_map_filter. exact Hnd.
  - apply Forall_forall. intros m Hm. apply filter_In in Hm as [Hm _].
    rewrite Forall_forall in Hf. exact (Hf m Hm).
Qed.

(** What [dedupeModels] returns: pairwise distinct names up to case, each
    trimmed and non-empty; every input model with a non-empty trimmed name
    is represented by a model of the same name up to case, and every output
    name comes from the input. *)
Theorem dedupeModels_names (ms : list ModelInfo) :
  NoDup (map name_key (dedupeModels ms)) /\
  Forall (fun m => trim m.(name) = m.(name) /\ is_empty m.(name) = false) (dedupeModels ms) /\
  (forall m0, In m0 ms -> is_empty (trim m0.(name)) = false ->
     exists m, In m (dedupeModels ms) /\ name_key m = name_key m0) /\
  (forall m, In m (dedupeModels ms) -> exists m0, In m0 ms /\ name_key m0 = name_key m).
Proof.
  destruct (dedupeModels_props ms) as [H1 H2].
  split; [exact H1|split; [exact H2|split]]; rewrite dedupeModels_spec.
  - intros m0 Hin Hne. destruct (first_seen_covers ms [] m0 Hin Hne) as [[p [[] _]]|[x [Hx Hk]]].
    exists (clean_model x). split; [apply in_map; exact Hx|]. rewrite name_key_clean. exact Hk.
  - intros m Hm. apply in_map_iff in Hm as [x [<- Hx]].
    exists x. split; [exact (first_seen_in ms [] x Hx)|]. rewrite name_key_clean. reflexivity.
Qed.

(** Whatever the settlements, a model list that [fetchAuthProxyModels]
    resolves to has pairwise distinct names up to case, each trimmed and
    non-empty. *)
Theorem fetchAuthProxyModels_distinct_names (e : EndpointProviderEntry)
  (defs : outcome (list ApiModel)) (per_file : string -> outcome (list ApiModel))
  (ms : list ModelInfo) :
  fetchAuthProxyModels e defs per_file = Ok ms ->
  NoDup (map name_key ms) /\
  Forall (fun m => trim m.(name) = m.(name) /\ is_empty m.(name) = false) ms.
Proof.
  unfold fetchAuthProxyModels. fold (post_models e).
  destruct (is_empty _).
  { intros H. injection H as <-. split; constructor. }
  cbv zeta. intros H.
  repeat match type of H with
         | context [match ?x with _ => _ end] => destruct x
         end;
  try discriminate H; injection H as <-; apply post_models_props.
Qed.

Lemma fetchAuthProxyModels_distinct_names_witness :
  let e := sample_entry "claude" ["a.json"] in
  let defs := Ok [{| id := "m"; display_name := None |}; {| id := "M "; display_name := None |}] in
  fetchAuthProxyModels e defs (fun _ => Err (ErrOther false)) = Ok [sample_model "m"] /\
  NoDup (map name_key [sample_model "m"]).
Proof.
  intros e defs.
  assert (H : fetchAuthProxyModels e defs (fun _ => Err (ErrOther false)) = Ok [sample_model "m"])
    by (vm_compute; reflexivity).
  split; [exact H|].
  exact (proj1 (fetchAuthProxyModels_distinct_names e defs _ _ H)).
Defined.

(** [normalizeApiKeyList] of either page copy returns trimmed non-empty
    keys, pairwise distinct (up to case in the endpoints page, exactly in
    the older copy), for any input value. *)
Theorem normalizeApiKeyList_distinct_trimmed (input : jsval) :
  NoDup (map toLowerCase (ApiKeys.normalizeApiKeyList input)) /\
  Forall (fun k => trim k = k /\ is_empty k = false) (ApiKeys.normalizeApiKeyList input) /\
  NoDup (LegacyApiKeys.normalizeApiKeyList input) /\
  Forall (fun k => trim k = k /\ is_empty k = false) (LegacyApiKeys.normalizeApiKeyList input).
Proof.
  destruct input as [| | | | |items|];
    try (repeat split; constructor).
  rewrite ApiKeys_normalize_spec, LegacyApiKeys_normalize_spec.
  destruct (spec_keys_props toLowerCase items) as [H1 H2].
  destruct (spec_keys_props (fun s => s) items) as [H3 H4].
  rewrite map_id in H3. repeat split; assumption.
Qed.

(** [buildKeyOptions] is idempotent: its keys are already trimmed,
    non-empty and distinct up to case. *)
Theorem buildKeyOptions_idempotent (ks : list string) :
  buildKeyOptions (buildKeyOptions ks) = buildKeyOptions ks /\
  NoDup (map toLowerCase (buildKeyOptions ks)) /\
  Forall (fun k => trim k = k /\ is_empty k = false) (buildKeyOptions ks).
Proof.
  split; [apply buildKeyOptions_idem|apply buildKeyOptions_props].
Qed.

(** [normalizeExcludedPatterns] returns trimmed non-empty patterns,
    pairwise distinct up to case, and is idempotent. *)
Theorem normalizeExcludedPatterns_idempotent (ps : option (list string)) :
  NoDup (map toLowerCase (normalizeExcludedPatterns ps)) /\
  Forall (fun k => trim k = k /\ is_empty k = false) (normalizeExcludedPatterns ps) /\
  normalizeExcludedPatterns (Some (normalizeExcludedPatterns ps)) = normalizeExcludedPatterns ps.
Proof.
  destruct ps as [ps|]; [|repeat split; constructor].
  rewrite !normalizeExcludedPatterns_keys. split; [|split].
  - apply buildKeyOptions_props.
  - apply buildKeyOptions_props.
  - apply buildKeyOptions_idem.
Qed.

(** [filterExcludedModels] only removes models, keeping the order of the
    others: a model stays exactly when none of its non-empty trimmed name
    and alias matches one of the normalized patterns; with no non-empty
    pattern the list is returned unchanged. *)
Theorem filterExcludedModels_keeps (ms : list ModelInfo) (ps : option (list string)) :
  (normalizeExcludedPatterns ps = [] -> filterExcludedModels ms ps = ms) /\
  (exists keep, filterExcludedModels ms ps = filter keep ms) /\
  (forall m, In m (filterExcludedModels ms ps) <->
     In m ms /\
     forall c pat, In c (exclusion_candidates m) -> In pat (normalizeExcludedPatterns ps) ->
                   matchExcludePattern c pat = false).
Proof.
  rewrite filterExcludedModels_filter. split; [|split].
  - intros ->. apply filter_all. intros m _.
    induction (exclusion_candidates m) as [|c l IH]; [reflexivity|exact IH].
  - eexists. reflexivity.
  - intros m. rewrite filter_In. rewrite negb_true_iff.
    split; intros [Hm H]; split; try exact Hm.
    + intros c pat Hc Hp. destruct (matchExcludePattern c pat) eqn:E; [|reflexivity].
      exfalso. assert (Hx : existsb (fun candidate => existsb (fun pattern =>
                                matchExcludePattern candidate pattern)
                              (normalizeExcludedPatterns ps)) (exclusion_candidates m) = true).
      { apply existsb_exists. exists c. split; [exact Hc|].
        apply existsb_exists. exists pat. split; assumption. }
      congruence.
    + destruct (existsb _ _) eqn:E; [|reflexivity].
      apply existsb_exists in E as [c [Hc E]]. apply existsb_exists in E as [pat [Hp E]].
      rewrite (H c pat Hc Hp) in E. discriminate E.
Qed.


(** *** Dictionaries built by a loop of assignments *)

Lemma fold_dict_set_other {A B} (key : A -> string) (val : A -> B) (l : list A) :
  forall d k, ~ In k (map key l) ->
  dict_get (fold_left (fun acc x => dict_set acc (key x) (val x)) l d) k = dict_get d k.
Proof.
  induction l as [|y r IH]; intros d k Hk; simpl; [reflexivity|].
  rewrite IH by (intros H; apply Hk; right; exact H).
  rewrite dict_get_set. destruct (String.eqb_spec k (key y)) as [->|]; [|reflexivity].
  exfalso. apply Hk. left. reflexivity.
Qed.

Lemma fold_dict_set_in {A B} (key : A -> string) (val : A -> B) (l : list A) :
  forall d k, In k (map key l) ->
  exists x, In x l /\ key x = k /\
    dict_get (fold_left (fun acc x => dict_set acc (key x) (val x)) l d) k = Some (val x).
Proof.
  induction l as [|y r IH]; intros d k Hk; [destruct Hk|]. simpl.
  destruct (in_dec string_dec k (map key r)) as [Hr|Hr].
  - destruct (IH (dict_set d (key y) (val y)) k Hr) as [x [Hx [Hxk Hget]]].
    exists x. split; [right; exact Hx|split; assumption].
  - destruct Hk as [Hy|Hk]; [|contradiction].
    exists y. split; [left; reflexivity|split; [exact Hy|]].
    rewrite fold_dict_set_other by exact Hr. rewrite dict_get_set, Hy, String.eqb_refl.
    reflexivity.
Qed.

Lemma fold_dict_set_keys {A B} (key : A -> string) (val : A -> B) (l : list A) :
  forall d k,
  In k (map fst (fold_left (fun acc x => dict_set acc (key x) (val x)) l d)) <->
  In k (map key l) \/ In k (map fst d).
Proof.
  induction l as [|y r IH]; intros d k; simpl; [tauto|].
  rewrite IH, dict_set_keys. split.
  - intros [H|[H|H]]; [left; right; exact H|left; left; symmetry; exact H|right; exact H].
  - intros [[H|H]|H]; [right; left; symmetry; exact H|left; exact H|right; right; exact H].
Qed.

Lemma fold_dict_set_nodup {A B} (key : A -> string) (val : A -> B) (l : list A) :
  forall d, NoDup (map fst d) ->
  NoDup (map fst (fold_left (fun acc x => dict_set acc (key x) (val x)) l d)).
Proof.
  induction l as [|y r IH]; intros d Hd; simpl; [exact Hd|].
  apply IH. apply dict_set_nodup. exact Hd.
Qed.

Lemma NoDup_map_inj {A B} (f : A -> B) (l : list A) (x y : A) :
  NoDup (map f l) -> In x l -> In y l -> f x = f y -> x = y.
Proof.
  induction l as [|z r IH]; simpl; [intros _ []|].
  intros Hnd Hx Hy Hxy. inversion Hnd as [|? ? Hz Hr]; subst.
  destruct Hx as [<-|Hx], Hy as [<-|Hy]; try reflexivity.
  - exfalso. apply Hz. rewrite Hxy. apply in_map. exact Hy.
  - exfalso. apply Hz. rewrite <- Hxy. apply in_map. exact Hx.
  - exact (IH Hr Hx Hy Hxy).
Qed.

Lemma fold_left_ext_in {A B} (f g : A -> B -> A) (l : list B) :
  forall a, (forall acc x, In x l -> f acc x = g acc x) -> fold_left f l a = fold_left g l a.
Proof.
  induction l as [|x r IH]; intros a H; simpl; [reflexivity|].
  rewrite (H a x (or_introl eq_refl)). apply IH. intros acc y Hy. apply H. right. exact Hy.
Qed.

(** *** Key selection *)

Lemma clamp_props (i n : Z) :
  (0 <= clampKeyIndex i n /\
  (0 < n -> clampKeyIndex i n < n) /\
  (0 <= i < n -> clampKeyIndex i n = i) /\
  clampKeyIndex (clampKeyIndex i n) n = clampKeyIndex i n)%Z.
Proof.
  unfold clampKeyIndex. destruct (Z.leb_spec n 0) as [Hn|Hn].
  - repeat split; lia.
  - repeat split; lia.
Qed.

Lemma buildSelectionMap_get (es : list EndpointProviderEntry) (prev : dict Z)
  (e : EndpointProviderEntry) :
  NoDup (map entry_id es) -> In e es ->
  dict_get (buildSelectionMap es prev) e.(entry_id) =
  Some (clampKeyIndex (index_or_zero prev e.(entry_id)) (Z.of_nat (List.length e.(keyOptions)))).
Proof.
  intros Hnd He. unfold buildSelectionMap.
  destruct (fold_dict_set_in entry_id
              (fun entry => clampKeyIndex (index_or_zero prev entry.(entry_id))
                              (Z.of_nat (List.length entry.(keyOptions)))) es [] (entry_id e)
              (in_map _ _ _ He)) as [x [Hx [Hxk Hget]]].
  rewrite Hget. rewrite (NoDup_map_inj entry_id es x e Hnd Hx He Hxk). reflexivity.
Qed.

Lemma buildSelectionMap_ext (es : list EndpointProviderEntry) (p q : dict Z) :
  (forall e, In e es ->
     clampKeyIndex (index_or_zero p e.(entry_id)) (Z.of_nat (List.length e.(keyOptions))) =
     clampKeyIndex (index_or_zero q e.(entry_id)) (Z.of_nat (List.length e.(keyOptions)))) ->
  buildSelectionMap es p = buildSelectionMap es q.
Proof.
  intros H. unfold buildSelectionMap. apply fold_left_ext_in.
  intros acc x Hx. rewrite (H x Hx). reflexivity.
Qed.

Lemma handleSelectKey_find (es : list EndpointProviderEntry) (e : EndpointProviderEntry) :
  NoDup (map entry_id es) -> In e es ->
  find (fun item => String.eqb item.(entry_id) e.(entry_id)) es = Some e.
Proof.
  intros Hnd He.
  destruct (find (fun item => String.eqb item.(entry_id) e.(entry_id)) es) as [x|] eqn:E.
  - apply find_some in E as [Hx Hxe]. apply String.eqb_eq in Hxe.
    f_equal. exact (NoDup_map_inj entry_id es x e Hnd Hx He Hxe).
  - exfalso. apply (find_none _ _ E) in He. rewrite String.eqb_refl in He. discriminate He.
Qed.

(** [clampKeyIndex] returns an index of the key list: never negative,
    below the key count when there are keys, 0 without keys; an index
    already in range is kept, and clamping twice changes nothing. *)
Theorem clampKeyIndex_range (i n : Z) :
  (0 <= clampKeyIndex i n /\
  (0 < n -> clampKeyIndex i n < n) /\
  (n <= 0 -> clampKeyIndex i n = 0) /\
  (0 <= i < n -> clampKeyIndex i n = i) /\
  clampKeyIndex (clampKeyIndex i n) n = clampKeyIndex i n)%Z.
Proof.
  destruct (clamp_props i n) as [H1 [H2 [H3 H4]]].
  repeat split; try assumption.
  intros Hn. unfold clampKeyIndex. destruct (Z.leb_spec n 0); [reflexivity|lia].
Qed.

(** [buildSelectionMap] has one key per provider id and no other (stale
    selections are dropped); the value stored for an id is the clamped
    previous index (0 when absent) for a provider with that id, so it is a
    valid index of that provider's key options. *)
Theorem buildSelectionMap_keys (es : list EndpointProviderEntry) (prev : dict Z) :
  (forall k, In k (map fst (buildSelectionMap es prev)) <-> In k (map entry_id es)) /\
  NoDup (map fst (buildSelectionMap es prev)) /\
  (forall k v, dict_get (buildSelectionMap es prev) k = Some v ->
     exists e, In e es /\ e.(entry_id) = k /\
       v = clampKeyIndex (index_or_zero prev k) (Z.of_nat (List.length e.(keyOptions))) /\
       (0 <= v)%Z /\ (e.(keyOptions) <> [] -> (v < Z.of_nat (List.length e.(keyOptions)))%Z)).
Proof.
  unfold buildSelectionMap. split; [|split].
  - intros k. rewrite fold_dict_set_keys. simpl. tauto.
  - apply fold_dict_set_nodup. constructor.
  - intros k v Hget.
    destruct (in_dec string_dec k (map entry_id es)) as [Hk|Hk].
    + destruct (fold_dict_set_in entry_id
                  (fun entry => clampKeyIndex (index_or_zero prev entry.(entry_id))
                                  (Z.of_nat (List.length entry.(keyOptions)))) es [] k Hk)
        as [x [Hx [<- Hx']]].
      rewrite Hget in Hx'. injection Hx' as ->.
      exists x. split; [exact Hx|split; [reflexivity|split; [reflexivity|]]].
      destruct (clamp_props (index_or_zero prev (entry_id x)) (Z.of_nat (List.length (keyOptions x))))
        as [H1 [H2 _]].
      split; [exact H1|]. intros Hne. apply H2.
      destruct (keyOptions x); [contradiction|simpl; lia].
    + rewrite fold_dict_set_other in Hget by exact Hk. discriminate Hget.
Qed.

(** With distinct provider ids, [buildSelectionMap] is stable: rebuilding
    the selection from its own result gives the same map. *)
Theorem buildSelectionMap_stable (es : list EndpointProviderEntry) (prev : dict Z) :
  NoDup (map entry_id es) ->
  buildSelectionMap es (buildSelectionMap es prev) = buildSelectionMap es prev.
Proof.
  intros Hnd. apply buildSelectionMap_ext. intros e He.
  unfold index_or_zero at 1. rewrite (buildSelectionMap_get es prev e Hnd He).
  apply clamp_props.
Qed.

Lemma buildSelectionMap_stable_witness :
  let es := [sample_entry "a" []; sample_entry "b" []] in
  NoDup (map entry_id es) /\
  buildSelectionMap es (buildSelectionMap es [("auth:a", 3%Z)]) =
  buildSelectionMap es [("auth:a", 3%Z)].
Proof.
  intros es. assert (H : NoDup (map entry_id es)).
  { simpl. constructor; [simpl; intros [H|[]]; discriminate H|].
    constructor; [intros []|constructor]. }
  split; [exact H|apply (buildSelectionMap_stable es _ H)].
Defined.

(** [handleSelectKey] leaves the selection unchanged for an unknown
    provider id, never touches another provider's selection, and for a
    provider of the list stores the requested index clamped to that
    provider's key count. *)
Theorem handleSelectKey_update (es : list EndpointProviderEntry) (pid : string) (i : Z)
  (prev : dict Z) :
  (~ In pid (map entry_id es) -> handleSelectKey es pid i prev = prev) /\
  (forall k, k <> pid -> dict_get (handleSelectKey es pid i prev) k = dict_get prev k) /\
  (forall e, NoDup (map entry_id es) -> In e es -> e.(entry_id) = pid ->
     dict_get (handleSelectKey es pid i prev) pid =
     Some (clampKeyIndex i (Z.of_nat (List.length e.(keyOptions))))).
Proof.
  unfold handleSelectKey. split; [|split].
  - intros Hn. destruct (find _ es) as [x|] eqn:E; [|reflexivity].
    exfalso. apply find_some in E as [Hx Hxe]. apply String.eqb_eq in Hxe.
    apply Hn. rewrite <- Hxe. apply in_map. exact Hx.
  - intros k Hk. destruct (find _ es); [|reflexivity].
    rewrite dict_get_set. destruct (String.eqb_spec k pid); [contradiction|reflexivity].
  - intros e Hnd He <-. rewrite (handleSelectKey_find es e Hnd He).
    rewrite dict_get_set, String.eqb_refl. reflexivity.
Qed.

(** A key chosen with [handleSelectKey] survives the next
    [buildSelectionMap] (run when the page data is reloaded): with distinct
    provider ids, the rebuilt map still selects the clamped chosen index. *)
Theorem handleSelectKey_survives_reload (es : list EndpointProviderEntry)
  (e : EndpointProviderEntry) (i : Z) (prev : dict Z) :
  NoDup (map entry_id es) -> In e es ->
  dict_get (buildSelectionMap es (handleSelectKey es e.(entry_id) i prev)) e.(entry_id) =
  Some (clampKeyIndex i (Z.of_nat (List.length e.(keyOptions)))).
Proof.
  intros Hnd He. rewrite (buildSelectionMap_get es _ e Hnd He). f_equal.
  unfold index_or_zero, handleSelectKey. rewrite (handleSelectKey_find es e Hnd He).
  rewrite dict_get_set, String.eqb_refl. apply clamp_props.
Qed.

Lemma handleSelectKey_survives_reload_witness :
  let e := {| entry_id := "config:x"; sourceKind := ConfiguredApi; providerKey := "x";
              entry_name := "x"; baseUrl := ""; keyOptions := ["k1"; "k2"]; order := 0;
              configuredModels := None; authFileNames := None; aliasLookup := None;
              excludedPatterns := None; realBaseUrl := None; realKeyOptions := None |} in
  let es := [sample_entry "a" []; e] in
  NoDup (map entry_id es) /\ In e es /\
  dict_get (buildSelectionMap es (handleSelectKey es e.(entry_id) 7 [])) e.(entry_id) =
  Some 1%Z.
Proof.
  intros e es. assert (Hnd : NoDup (map entry_id es)).
  { simpl. constructor; [simpl; intros [H|[]]; discriminate H|].
    constructor; [intros []|constructor]. }
  assert (He : In e es) by (right; left; reflexivity).
  split; [exact Hnd|split; [exact He|]].
  exact (handleSelectKey_survives_reload es e 7 [] Hnd He).
Defined.


(** *** Search *)

Lemma list_ascii_smap (f : ascii -> ascii) (s : string) :
  list_ascii_of_string (smap f s) = map f (list_ascii_of_string s).
Proof. induction s as [|c r IH]; simpl; [reflexivity|]. rewrite IH. reflexivity. Qed.

Lemma smap_string_of (f : ascii -> ascii) (l : list ascii) :
  string_of_list_ascii (map f l) = smap f (string_of_list_ascii l).
Proof. induction l as [|c r IH]; simpl; [reflexivity|]. rewrite IH. reflexivity. Qed.

Lemma drop_ws_lower (l : list ascii) :
  drop_ws (map lower_char l) = map lower_char (drop_ws l).
Proof.
  induction l as [|c r IH]; simpl; [reflexivity|].
  rewrite lower_char_ws. destruct (is_ws c); [exact IH|reflexivity].
Qed.

Lemma trim_toLowerCase (s : string) : trim (toLowerCase s) = toLowerCase (trim s).
Proof.
  unfold trim, toLowerCase. rewrite list_ascii_smap, drop_ws_lower, <- map_rev,
    drop_ws_lower, <- map_rev, smap_string_of. reflexivity.
Qed.

Lemma lower_char_idem (c : ascii) : lower_char (lower_char c) = lower_char c.
Proof. destruct c as [[|] [|] [|] [|] [|] [|] [|] [|]]; reflexivity. Qed.

Lemma toLowerCase_idem (s : string) : toLowerCase (toLowerCase s) = toLowerCase s.
Proof.
  unfold toLowerCase. induction s as [|c r IH]; simpl; [reflexivity|].
  rewrite lower_char_idem, IH. reflexivity.
Qed.

(** The search box of the endpoints page ignores case and surrounding
    whitespace: a blank search shows every provider; otherwise
    [filteredProviders] only removes providers, keeping the order of the
    rest, and keeps every provider whose name contains the keyword. *)
Theorem filteredProviders_search (search : string) (es : list EndpointProviderEntry)
  (mbp : dict ProviderModelsState) :
  (is_empty (trim search) = true -> filteredProviders search es mbp = es) /\
  (exists keep, filteredProviders search es mbp = filter keep es) /\
  filteredProviders (trim search) es mbp = filteredProviders search es mbp /\
  filteredProviders (toLowerCase search) es mbp = filteredProviders search es mbp /\
  (forall e, In e es ->
     includes (toLowerCase e.(entry_name)) (toLowerCase (trim search)) = true ->
     In e (filteredProviders search es mbp)).
Proof.
  unfold filteredProviders. split; [|split; [|split; [|split]]].
  - intros ->. reflexivity.
  - destruct (is_empty (trim search)).
    + exists (fun _ => true). symmetry. apply filter_all. reflexivity.
    + eexists. reflexivity.
  - rewrite trim_idem. reflexivity.
  - rewrite trim_toLowerCase, is_empty_lower, toLowerCase_idem. reflexivity.
  - intros e He Hinc. destruct (is_empty (trim search)); [exact He|].
    apply filter_In. split; [exact He|]. rewrite Hinc. reflexivity.
Qed.

(** The two sections of the page split the filtered providers by source
    kind: every provider lands in exactly the section of its kind, each
    section keeps the filtered order, and nothing is lost or added. *)
Theorem sections_partition (filtered : list EndpointProviderEntry) :
  Permutation (List.concat (map snd (sections filtered))) filtered /\
  map fst (sections filtered) = ["auth-proxy"; "configured-api"] /\
  (exists keep, snd (nth 0 (sections filtered) ("", [])) = filter keep filtered) /\
  (exists keep, snd (nth 1 (sections filtered) ("", [])) = filter keep filtered) /\
  Forall (fun e => e.(sourceKind) = AuthProxy) (snd (nth 0 (sections filtered) ("", []))) /\
  Forall (fun e => e.(sourceKind) = ConfiguredApi) (snd (nth 1 (sections filtered) ("", []))).
Proof.
  unfold sections. simpl. rewrite app_nil_r. split; [|split; [reflexivity|split; [|split; [|split]]]].
  - induction filtered as [|x r IH]; simpl; [constructor|].
    destruct (sourceKind x); simpl.
    + apply perm_skip. exact IH.
    + apply Permutation_sym. eapply perm_trans; [apply perm_skip, Permutation_sym, IH|].
      apply Permutation_middle.
  - eexists. reflexivity.
  - eexists. reflexivity.
  - apply Forall_forall. intros e He. apply filter_In in He as [_ He].
    destruct (sourceKind e); [reflexivity|discriminate He].
  - apply Forall_forall. intros e He. apply filter_In in He as [_ He].
    destruct (sourceKind e); [discriminate He|reflexivity].
Qed.

(** *** Alias lookup *)

(** [buildAliasLookup] maps each key other than ["__proto__"] to the alias
    of the last entry with that trimmed, lower-cased name (entries with an
    empty name or alias are skipped); an entry named ["__proto__"] is never
    stored, since that assignment does nothing on a plain object.  Each key
    is held once, and every key and alias is non-empty. *)
Theorem buildAliasLookup_last_wins (entries : option (list OAuthModelAliasEntry)) (k : string) :
  (k <> "__proto__" ->
   dict_get (buildAliasLookup entries) k =
     last_alias_for k (match entries with Some es => es | None => [] end)) /\
  ~ In "__proto__" (map fst (buildAliasLookup entries)) /\
  NoDup (map fst (buildAliasLookup entries)) /\
  Forall (fun kv => is_empty (fst kv) = false /\ is_empty (snd kv) = false /\
                    trim (snd kv) = snd kv) (buildAliasLookup entries).
Proof.
  set (f := fun lookup (entry : OAuthModelAliasEntry) =>
              let name0 := toLowerCase (trim entry.(oa_name)) in
              let alias0 := trim entry.(oa_alias) in
              if is_empty name0 || is_empty alias0 then lookup
              else obj_set lookup name0 alias0).
  assert (Hgen : k <> "__proto__" -> forall l d found, dict_get d k = found ->
     dict_get (fold_left f l d) k =
     fold_left (fun found entry =>
               let name0 := toLowerCase (trim entry.(oa_name)) in
               let alias0 := trim entry.(oa_alias) in
               if negb (is_empty name0) && negb (is_empty alias0) && String.eqb name0 k
               then Some alias0 else found) l found).
  { intros Hk. induction l as [|x r IH]; intros d found Hd; simpl; [exact Hd|].
    apply IH. unfold f. destruct (is_empty (toLowerCase (trim (oa_name x)))); simpl; [exact Hd|].
    destruct (is_empty (trim (oa_alias x))); simpl; [exact Hd|].
    unfold obj_set. destruct (String.eqb (toLowerCase (trim (oa_name x))) "__proto__") eqn:Ep.
    - apply String.eqb_eq in Ep. rewrite Ep.
      destruct (String.eqb "__proto__" k) eqn:Ek; [apply String.eqb_eq in Ek; congruence|exact Hd].
    - rewrite dict_get_set, String.eqb_sym. destruct (String.eqb (toLowerCase (trim (oa_name x))) k); [reflexivity|exact Hd]. }
  assert (Hinv : forall l d,
     ~ In "__proto__" (map fst d) ->
     NoDup (map fst d) ->
     Forall (fun kv => is_empty (fst kv) = false /\ is_empty (snd kv) = false /\
                       trim (snd kv) = snd kv) d ->
     ~ In "__proto__" (map fst (fold_left f l d)) /\
     NoDup (map fst (fold_left f l d)) /\
     Forall (fun kv => is_empty (fst kv) = false /\ is_empty (snd kv) = false /\
                       trim (snd kv) = snd kv) (fold_left f l d)).
  { induction l as [|x r IH]; intros d Hp Hnd Hf; simpl; [split; [|split]; assumption|].
    apply IH; unfold f; cbv zeta;
      destruct (is_empty (toLowerCase (trim (oa_name x)))) eqn:E1; simpl; try assumption;
      destruct (is_empty (trim (oa_alias x))) eqn:E2; simpl; try assumption;
      unfold obj_set; destruct (String.eqb (toLowerCase (trim (oa_name x))) "__proto__") eqn:Ep;
      try assumption.
    - intros Hin. apply dict_set_keys in Hin as [H|H]; [|exact (Hp H)].
      rewrite <- H, String.eqb_refl in Ep. discriminate.
    - apply dict_set_nodup; exact Hnd.
    - clear IH Hnd Hp. induction d as [|[k0 v0] d IHd]; simpl.
      + constructor; [|constructor]. simpl. split; [exact E1|split; [exact E2|apply trim_idem]].
      + inversion Hf as [|? ? H0 Hr]; subst.
        destruct (String.eqb _ k0) eqn:E.
        * apply String.eqb_eq in E. subst k0. constructor; [|exact Hr].
          simpl. split; [exact E1|split; [exact E2|apply trim_idem]].
        * constructor; [exact H0|exact (IHd Hr)]. }
  destruct entries as [es|];
    [|split; [intros _; reflexivity|split; [intros []|split; constructor]]].
  unfold buildAliasLookup. destruct es as [|e0 es];
    [split; [intros _; reflexivity|split; [intros []|split; constructor]]|].
  fold f. split; [intros Hk; apply (Hgen Hk); reflexivity|].
  apply Hinv; [intros []|constructor|constructor].
Qed.

(** *** Refreshing every provider *)

(** [refreshAllProviderModels] sets the loading state under exactly the
    ids of the current providers, once each: states of providers no longer
    listed are dropped, and each listed id gets the loading state carrying
    its previous models. *)
Theorem refresh_all_loading_keys (es : list EndpointProviderEntry)
  (prev : dict ProviderModelsState) :
  (forall k, In k (map fst (refresh_all_loading es prev)) <-> In k (map entry_id es)) /\
  NoDup (map fst (refresh_all_loading es prev)) /\
  (forall e, In e es ->
     dict_get (refresh_all_loading es prev) e.(entry_id) = Some (loading_state prev e.(entry_id))).
Proof.
  unfold refresh_all_loading. destruct es as [|e0 es].
  { split; [|split]; [intros k; simpl; tauto|constructor|intros _ []]. }
  split; [|split].
  - intros k. rewrite fold_dict_set_keys. simpl. tauto.
  - apply fold_dict_set_nodup. constructor.
  - intros e He.
    destruct (fold_dict_set_in entry_id (fun entry => loading_state prev entry.(entry_id))
                (e0 :: es) [] (entry_id e) (in_map _ _ _ He)) as [x [_ [Hx Hget]]].
    rewrite Hget, Hx. reflexivity.
Qed.


(** *** The agent settings page *)

Lemma parse_format_level (base : string) (l : ThinkingLevel) :
  single_line_base base = true ->
  parseModelWithThinking (formatModelWithThinking base (Some l)) = (base, Some l).
Proof.
  intros Hs. unfold single_line_base in Hs.
  apply andb_true_iff in Hs as [Hs Hlt]. apply andb_true_iff in Hs as [Ht He].
  apply String.eqb_eq in Ht. apply negb_true_iff in He.
  destruct (level_facts l) as [HLne [HLp HLv]].
  unfold formatModelWithThinking. rewrite Ht, He.
  unfold parseModelWithThinking. rewrite (trim_formatted base _ Ht He).
  destruct (trim_first_char base Ht He) as [c [r [Hb _]]].
  replace (is_empty (base ++ "(" ++ level_string l ++ ")")) with false
    by (destruct base; [discriminate He|reflexivity]).
  set (b := list_ascii_of_string base) in *.
  set (L := list_ascii_of_string (level_string l)) in *.
  assert (Hfl : list_ascii_of_string (base ++ "(" ++ level_string l ++ ")")
                = b ++ "("%char :: (L ++ [")"%char])).
  { rewrite !list_ascii_of_string_app. reflexivity. }
  unfold thinking_match. rewrite Hfl.
  assert (Hlen : List.length (b ++ "("%char :: L ++ [")"%char])
                 = List.length b + 1 + List.length (L ++ [")"%char])).
  { rewrite length_app. simpl. lia. }
  rewrite Hlen.
  rewrite (thinking_search_skip b (L ++ [")"%char]) _ (fun x => no_paren_not_open L x HLp) (le_n _)).
  rewrite thinking_search_eq. unfold thinking_attempt.
  replace (firstn (List.length b) (b ++ "("%char :: L ++ [")"%char])) with b
    by (rewrite firstn_app, firstn_all, Nat.sub_diag; simpl; rewrite app_nil_r; reflexivity).
  replace (skipn (List.length b) (b ++ "("%char :: L ++ [")"%char]))
    with ("("%char :: L ++ [")"%char])
    by (rewrite skipn_app, skipn_all, Nat.sub_diag; reflexivity).
  rewrite Hlt.
  rewrite (suffix_group_level L HLne HLp).
  unfold b, L. rewrite !string_of_list_ascii_of_string.
  rewrite Ht, HLv, He. reflexivity.
Qed.

Lemma parse_no_level (s : string) :
  snd (parseModelWithThinking s) = None -> parseModelWithThinking s = (trim s, None).
Proof.
  unfold parseModelWithThinking. destruct (is_empty (trim s)) eqn:E.
  - intros _. unfold is_empty in E. apply String.eqb_eq in E. rewrite E. reflexivity.
  - destruct (thinking_match (trim s)) as [[g1 g2]|]; [|reflexivity].
    destruct (level_of_string _); [|reflexivity].
    destruct (negb _); [discriminate|reflexivity].
Qed.

Lemma fold_dict_set_some {A B} (key : A -> string) (val : A -> B) (l : list A) (d : dict B)
  (k : string) (v : B) :
  dict_get (fold_left (fun acc x => dict_set acc (key x) (val x)) l d) k = Some v ->
  (exists x, In x l /\ key x = k /\ val x = v) \/ dict_get d k = Some v.
Proof.
  intros H. destruct (in_dec string_dec k (map key l)) as [Hk|Hk].
  - left. destruct (fold_dict_set_in key val l d k Hk) as [x [Hx [Hxk Hget]]].
    rewrite Hget in H. injection H as <-. exists x. auto.
  - right. rewrite fold_dict_set_other in H by exact Hk. exact H.
Qed.

Lemma providerById_In (p : AgentSettings.AgentPage) (k : string) (e : EndpointProviderEntry) :
  dict_get (AgentSettings.providerById p) k = Some e ->
  In e p.(AgentSettings.providerEntries) /\ e.(entry_id) = k.
Proof.
  unfold AgentSettings.providerById. intros H.
  destruct (fold_dict_set_some entry_id (fun entry => entry) _ [] k e H)
    as [[x [Hx [Hxk <-]]]|H']; [auto|discriminate H'].
Qed.

Lemma providerHasModel_trim (p : AgentSettings.AgentPage) (e : EndpointProviderEntry) (s : string) :
  AgentSettings.providerHasModel p e (trim s) = AgentSettings.providerHasModel p e s.
Proof. unfold AgentSettings.providerHasModel. rewrite trim_idem. reflexivity. Qed.

Lemma find_none_iff {A} (f : A -> bool) (l : list A) :
  find f l = None <-> forall x, In x l -> f x = false.
Proof.
  split; [apply find_none|].
  intros H. destruct (find f l) as [x|] eqn:E; [|reflexivity].
  apply find_some in E as [Hx Hfx]. rewrite (H x Hx) in Hfx. discriminate Hfx.
Qed.

Lemma matchProviderByModel_spec (p : AgentSettings.AgentPage) (s : string) :
  is_empty (trim s) = false ->
  (AgentSettings.matchProviderByModel p s = None <->
   forall e, In e p.(AgentSettings.providerEntries) -> AgentSettings.providerHasModel p e s = false) /\
  (forall e, AgentSettings.matchProviderByModel p s = Some e ->
   In e p.(AgentSettings.providerEntries) /\ AgentSettings.providerHasModel p e s = true).
Proof.
  intros Hne. unfold AgentSettings.matchProviderByModel. rewrite Hne. split.
  - rewrite find_none_iff. split; intros H e He.
    + rewrite <- providerHasModel_trim. exact (H e He).
    + rewrite providerHasModel_trim. exact (H e He).
  - intros e He. apply find_some in He as [He Hh]. rewrite providerHasModel_trim in Hh. auto.
Qed.

Lemma uniqueModels_fold (l : list ModelInfo) :
  forall seen kept prev,
  (forall k, is_empty k = false ->
     existsb (fun q => String.eqb (name_key q) k) prev = existsb (fun s => String.eqb s k) seen) ->
  snd (fold_left (fun (acc : list string * list ModelInfo) model =>
                    let key := toLowerCase (trim model.(name)) in
                    if is_empty key || existsb (fun s => String.eqb s key) (fst acc) then acc
                    else (key :: fst acc, snd acc ++ [model])) l (seen, kept))
  = kept ++ first_seen prev l.
Proof.
  induction l as [|m r IH]; intros seen kept prev Hinv; simpl; [rewrite app_nil_r; reflexivity|].
  fold (name_key m). rewrite <- (name_key_empty m), <- is_empty_lower.
  fold (name_key m). rewrite is_empty_lower.
  destruct (is_empty (name_key m)) eqn:Hk; simpl.
  - apply (IH seen kept (prev ++ [m])).
    intros k Hke. rewrite existsb_app, Hinv by exact Hke. simpl.
    destruct (String.eqb_spec (name_key m) k) as [<-|]; [congruence|].
    rewrite orb_false_r. reflexivity.
  - rewrite <- (Hinv _ Hk).
    destruct (existsb (fun q => String.eqb (name_key q) (name_key m)) prev) eqn:E; simpl.
    + apply IH. intros k Hke. rewrite existsb_app, Hinv by exact Hke. simpl.
      destruct (String.eqb_spec (name_key m) k) as [<-|]; [|rewrite orb_false_r; reflexivity].
      rewrite <- (Hinv _ Hk), E. reflexivity.
    + transitivity ((kept ++ [m]) ++ first_seen (prev ++ [m]) r);
        [|rewrite <- app_assoc; reflexivity].
      apply (IH (name_key m :: seen) (kept ++ [m]) (prev ++ [m])).
      * intros k Hke. rewrite existsb_app, Hinv by exact Hke. simpl.
        rewrite orb_false_r, orb_comm. reflexivity.
Qed.

(** The agent page's [uniqueModels] keeps the same models as the endpoints
    page's [dedupeModels] (the first model of each non-empty name up to
    case), unchanged where [dedupeModels] cleans them; [filteredModels]
    only removes models from it, and an empty search removes none. *)
Theorem uniqueModels_matches_dedupe (ms : list ModelInfo) (q : string) :
  AgentSettings.uniqueModels ms = first_seen [] ms /\
  dedupeModels ms = map clean_model (AgentSettings.uniqueModels ms) /\
  NoDup (map name_key (AgentSettings.uniqueModels ms)) /\
  AgentSettings.filteredModels ms "" = AgentSettings.uniqueModels ms /\
  (exists keep, AgentSettings.filteredModels ms q = filter keep (AgentSettings.uniqueModels ms)).
Proof.
  assert (Hu : AgentSettings.uniqueModels ms = first_seen [] ms).
  { unfold AgentSettings.uniqueModels. apply (uniqueModels_fold ms [] [] []).
    intros k _. reflexivity. }
  split; [exact Hu|split; [|split; [|split]]].
  - rewrite Hu. apply dedupeModels_spec.
  - rewrite Hu. apply first_seen_props.
  - unfold AgentSettings.filteredModels. apply filter_all. reflexivity.
  - eexists. reflexivity.
Qed.

Lemma sections_concat_perm (filtered : list EndpointProviderEntry) :
  Permutation (List.concat (map snd (sections filtered))) filtered.
Proof.
  unfold sections. simpl. rewrite app_nil_r.
  induction filtered as [|x r IH]; simpl; [constructor|].
  destruct (sourceKind x); simpl.
  - apply perm_skip. exact IH.
  - apply Permutation_sym. eapply perm_trans; [apply perm_skip, Permutation_sym, IH|].
    apply Permutation_middle.
Qed.

Lemma concat_filter_nonempty {A B} (L : list (A * list B)) :
  List.concat (map snd (filter (fun s => negb (Nat.eqb (List.length (snd s)) 0)) L)) =
  List.concat (map snd L).
Proof.
  induction L as [|[a l] r IH]; simpl; [reflexivity|].
  destruct l; simpl; rewrite IH; reflexivity.
Qed.

(** The agent page shows only the non-empty source sections: exactly the
    endpoints page's sections that have items, in the same order. *)
Theorem agent_sections_nonempty (es : list EndpointProviderEntry) :
  AgentSettings.sections es = filter (fun s => negb (Nat.eqb (List.length (snd s)) 0)) (sections es) /\
  Forall (fun s => snd s <> []) (AgentSettings.sections es) /\
  Permutation (List.concat (map snd (AgentSettings.sections es))) es.
Proof.
  assert (Heq : AgentSettings.sections es =
                filter (fun s => negb (Nat.eqb (List.length (snd s)) 0)) (sections es)).
  { unfold AgentSettings.sections, sections. simpl.
    destruct (filter (fun entry => is_auth_proxy (sourceKind entry)) es);
    destruct (filter (fun entry => is_configured_api (sourceKind entry)) es); reflexivity. }
  split; [exact Heq|split].
  - rewrite Heq. apply Forall_forall. intros s Hs. apply filter_In in Hs as [_ Hs].
    intros Hn. rewrite Hn in Hs. discriminate Hs.
  - rewrite Heq, concat_filter_nonempty. apply sections_concat_perm.
Qed.

(** [resolveThinkingCapability] is unknown exactly when the model name is
    blank or no listed provider offers the model; it is codex (non-codex)
    only for a model that a listed provider whose key is (is not) codex
    offers. *)
Theorem resolveThinkingCapability_sound (p : AgentSettings.AgentPage)
  (slot : AgentSettings.ModelSlotKey) (modelName : string) (pref : option string) :
  (AgentSettings.resolveThinkingCapability p slot modelName pref = AgentSettings.Unknown <->
   is_empty (trim modelName) = true \/
   forall e, In e p.(AgentSettings.providerEntries) ->
             AgentSettings.providerHasModel p e modelName = false) /\
  (AgentSettings.resolveThinkingCapability p slot modelName pref = AgentSettings.Codex ->
   exists e, In e p.(AgentSettings.providerEntries) /\
             AgentSettings.isCodexProvider (Some e) = true /\
             AgentSettings.providerHasModel p e modelName = true) /\
  (AgentSettings.resolveThinkingCapability p slot modelName pref = AgentSettings.NonCodex ->
   exists e, In e p.(AgentSettings.providerEntries) /\
             AgentSettings.isCodexProvider (Some e) = false /\
             AgentSettings.providerHasModel p e modelName = true).
Proof.
  unfold AgentSettings.resolveThinkingCapability.
  destruct (is_empty (trim modelName)) eqn:Hnm.
  { split; [split; [intros _; left; reflexivity|reflexivity]|split; discriminate]. }
  destruct (matchProviderByModel_spec p (trim modelName)) as [Hnone Hsome];
    [rewrite trim_idem; exact Hnm|].
  assert (Hfb : forall c,
     match AgentSettings.matchProviderByModel p (trim modelName) with
     | Some mp => if AgentSettings.isCodexProvider (Some mp) then AgentSettings.Codex
                  else AgentSettings.NonCodex
     | None => AgentSettings.Unknown
     end = c ->
     (c = AgentSettings.Unknown <->
      false = true \/ forall e, In e p.(AgentSettings.providerEntries) ->
                               AgentSettings.providerHasModel p e modelName = false) /\
     (c = AgentSettings.Codex -> exists e, In e p.(AgentSettings.providerEntries) /\
        AgentSettings.isCodexProvider (Some e) = true /\
        AgentSettings.providerHasModel p e modelName = true) /\
     (c = AgentSettings.NonCodex -> exists e, In e p.(AgentSettings.providerEntries) /\
        AgentSettings.isCodexProvider (Some e) = false /\
        AgentSettings.providerHasModel p e modelName = true)).
  { intros c <-. destruct (AgentSettings.matchProviderByModel p (trim modelName)) as [mp|] eqn:E.
    - destruct (Hsome mp eq_refl) as [Hin Hh]. rewrite providerHasModel_trim in Hh.
      split; [|split].
      + split; [destruct (AgentSettings.isCodexProvider _); discriminate|].
        intros [H|H]; [discriminate H|]. rewrite (H mp Hin) in Hh. discriminate Hh.
      + intros Hc. exists mp. destruct (AgentSettings.isCodexProvider _); [auto|discriminate Hc].
      + intros Hc. exists mp. destruct (AgentSettings.isCodexProvider _); [discriminate Hc|auto].
    - split; [|split; discriminate].
      split; [intros _; right|reflexivity].
      intros e He. rewrite <- providerHasModel_trim. apply (proj1 Hnone eq_refl e He). }
  destruct (negb (is_empty _)).
  2: { apply Hfb. reflexivity. }
  destruct (dict_get (AgentSettings.providerById p) _) as [sp|] eqn:Hsp.
  2: { apply Hfb. reflexivity. }
  destruct (providerById_In p _ sp Hsp) as [Hin _].
  destruct (AgentSettings.providerHasModel p sp (trim modelName)) eqn:Hh.
  2: { apply Hfb. reflexivity. }
  rewrite providerHasModel_trim in Hh. split; [|split].
  - split; [destruct (AgentSettings.isCodexProvider _); discriminate|].
    intros [H|H]; [discriminate H|]. rewrite (H sp Hin) in Hh. discriminate Hh.
  - intros Hc. exists sp. destruct (AgentSettings.isCodexProvider _); [auto|discriminate Hc].
  - intros Hc. exists sp. destruct (AgentSettings.isCodexProvider _); [discriminate Hc|auto].
Qed.

(** [resolveProviderForModel] returns a listed provider that offers the
    model or has API keys, and returns none exactly when the model name is
    blank or no listed provider offers the model or has keys. *)
Theorem resolveProviderForModel_sound (p : AgentSettings.AgentPage)
  (slot : AgentSettings.ModelSlotKey) (modelName : string) (pref : option string) :
  (forall e, AgentSettings.resolveProviderForModel p slot modelName pref = Some e ->
     In e p.(AgentSettings.providerEntries) /\
     (AgentSettings.providerHasModel p e modelName = true \/ e.(keyOptions) <> [])) /\
  (AgentSettings.resolveProviderForModel p slot modelName pref = None <->
   is_empty (trim modelName) = true \/
   forall e, In e p.(AgentSettings.providerEntries) ->
     AgentSettings.providerHasModel p e modelName = false /\ e.(keyOptions) = []).
Proof.
  unfold AgentSettings.resolveProviderForModel.
  destruct (is_empty (trim modelName)) eqn:Hnm.
  { split; [discriminate|split; [intros _; left; reflexivity|reflexivity]]. }
  destruct (matchProviderByModel_spec p (trim modelName)) as [Hnone Hsome];
    [rewrite trim_idem; exact Hnm|].
  assert (Hkeys : forall e : EndpointProviderEntry,
             Nat.ltb 0 (List.length e.(keyOptions)) = true <-> e.(keyOptions) <> []).
  { intros e. destruct (keyOptions e); simpl; split; auto; [discriminate|congruence]. }
  assert (Hfb : forall r,
     match AgentSettings.matchProviderByModel p (trim modelName) with
     | Some m => Some m
     | None => find (fun entry => Nat.ltb 0 (List.length entry.(keyOptions)))
                 p.(AgentSettings.providerEntries)
     end = r ->
     (forall e, r = Some e -> In e p.(AgentSettings.providerEntries) /\
        (AgentSettings.providerHasModel p e modelName = true \/ e.(keyOptions) <> [])) /\
     (r = None <-> false = true \/ forall e, In e p.(AgentSettings.providerEntries) ->
        AgentSettings.providerHasModel p e modelName = false /\ e.(keyOptions) = [])).
  { intros r <-. destruct (AgentSettings.matchProviderByModel p (trim modelName)) as [mp|] eqn:E.
    - destruct (Hsome mp eq_refl) as [Hin Hh]. rewrite providerHasModel_trim in Hh.
      split.
      + intros e He. injection He as <-. auto.
      + split; [discriminate|]. intros [H|H]; [discriminate H|].
        rewrite (proj1 (H mp Hin)) in Hh. discriminate Hh.
    - assert (Hno : forall e, In e p.(AgentSettings.providerEntries) ->
                      AgentSettings.providerHasModel p e modelName = false).
      { intros e He. rewrite <- providerHasModel_trim. apply (proj1 Hnone eq_refl e He). }
      split.
      + intros e He. apply find_some in He as [Hin Hk]. split; [exact Hin|right].
        apply Hkeys. exact Hk.
      + rewrite find_none_iff. split.
        * intros H. right. intros e He. split; [exact (Hno e He)|].
          specialize (H e He). destruct (keyOptions e); [reflexivity|discriminate H].
        * intros [H|H]; [discriminate H|]. intros e He.
          rewrite (proj2 (H e He)). reflexivity. }
  destruct (negb (is_empty _)).
  2: { apply Hfb. reflexivity. }
  destruct (dict_get (AgentSettings.providerById p) _) as [sp|] eqn:Hsp.
  2: { apply Hfb. reflexivity. }
  destruct (providerById_In p _ sp Hsp) as [Hin _].
  rewrite providerHasModel_trim.
  destruct (AgentSettings.providerHasModel p sp modelName
            || Nat.ltb 0 (List.length sp.(keyOptions))) eqn:Hc.
  2: { apply Hfb. reflexivity. }
  apply orb_true_iff in Hc. split.
  - intros e He. injection He as <-. split; [exact Hin|].
    destruct Hc as [Hc|Hc]; [left; exact Hc|right; apply Hkeys; exact Hc].
  - split; [discriminate|]. intros [H|H]; [discriminate H|].
    destruct (H sp Hin) as [H1 H2]. destruct Hc as [Hc|Hc]; [congruence|].
    rewrite H2 in Hc. discriminate Hc.
Qed.

(** The value [buildModelValueForSlot] writes for a slot parses back to the
    trimmed base model, carrying the slot's thinking level only when the
    model resolves to a codex provider; this holds for a single-line base
    model that does not itself end in a thinking-level group. *)
Theorem buildModelValueForSlot_roundtrip (p : AgentSettings.AgentPage)
  (slot : AgentSettings.ModelSlotKey) (base : string) (pref : option string) :
  single_line_base (trim base) = true ->
  snd (parseModelWithThinking base) = None ->
  parseModelWithThinking (AgentSettings.buildModelValueForSlot p slot base pref) =
  (trim base,
   match p.(AgentSettings.thinkingBySlot) slot,
         AgentSettings.resolveThinkingCapability p slot (trim base) pref with
   | Some l, AgentSettings.Codex => Some l
   | _, _ => None
   end).
Proof.
  intros Hs Hn. pose proof (parse_no_level base Hn) as Hp.
  assert (Hne : is_empty (trim base) = false).
  { unfold single_line_base in Hs. apply andb_true_iff in Hs as [Hs _].
    apply andb_true_iff in Hs as [_ Hs]. apply negb_true_iff. exact Hs. }
  assert (Hp' : parseModelWithThinking (trim base) = (trim base, None)).
  { unfold parseModelWithThinking. rewrite trim_idem. exact Hp. }
  unfold AgentSettings.buildModelValueForSlot. rewrite Hne.
  destruct (AgentSettings.thinkingBySlot p slot) as [l|]; [|exact Hp'].
  destruct (AgentSettings.resolveThinkingCapability p slot (trim base) pref); try exact Hp'.
  apply parse_format_level. exact Hs.
Qed.

Lemma buildModelValueForSlot_roundtrip_witness :
  let codex := {| entry_id := "auth:codex"; sourceKind := AuthProxy; providerKey := "codex";
                  entry_name := "codex"; baseUrl := ""; keyOptions := []; order := 0;
                  configuredModels := None; authFileNames := None; aliasLookup := None;
                  excludedPatterns := None; realBaseUrl := None; realKeyOptions := None |} in
  let p := {| AgentSettings.providerEntries := [codex];
              AgentSettings.pageModelsByProvider :=
                [("auth:codex", {| status := Success; models := [sample_model "gpt-5"];
                                   error := None |})];
              AgentSettings.selectedProviderBySlot := fun _ => "";
              AgentSettings.thinkingBySlot := fun _ => Some High |} in
  single_line_base (trim " gpt-5 ") = true /\
  snd (parseModelWithThinking " gpt-5 ") = None /\
  parseModelWithThinking
    (AgentSettings.buildModelValueForSlot p AgentSettings.ANTHROPIC_MODEL " gpt-5 " None) =
  ("gpt-5", Some High).
Proof.
  intros codex p.
  assert (H1 : single_line_base (trim " gpt-5 ") = true) by (vm_compute; reflexivity).
  assert (H2 : snd (parseModelWithThinking " gpt-5 ") = None) by (vm_compute; reflexivity).
  split; [exact H1|split; [exact H2|]].
  rewrite (buildModelValueForSlot_roundtrip p AgentSettings.ANTHROPIC_MODEL " gpt-5 " None H1 H2).
  vm_compute. reflexivity.
Defined.


(** *** Configured providers and the page's provider list *)

Lemma push_each_spec {A} (mk : nat -> nat -> A -> EndpointProviderEntry) (items : list A)
  (st : nat * list EndpointProviderEntry) :
  push_each mk items st = (fst st + List.length items, snd st ++ pushed mk 0 (fst st) items).
Proof.
  unfold push_each.
  match goal with |- snd (fold_left ?g _ _) = _ => set (G := g) end.
  assert (H : forall l k o es, fold_left G l (k, (o, es)) =
                               (k + List.length l, (o + List.length l, es ++ pushed mk k o l))).
  { induction l as [|x r IH]; intros k o es; simpl.
    - rewrite !Nat.add_0_r, app_nil_r. reflexivity.
    - rewrite IH, <- app_assoc, !Nat.add_succ_r. reflexivity. }
  destruct st as [o es]. rewrite H. reflexivity.
Qed.

Lemma pushed_order {A} (mk : nat -> nat -> A -> EndpointProviderEntry) (items : list A) :
  (forall i o x, (mk i o x).(order) = o) ->
  forall k o, map order (pushed mk k o items) = seq o (List.length items).
Proof.
  intros Hmk. induction items as [|x r IH]; intros k o; simpl; [reflexivity|].
  rewrite Hmk, IH. reflexivity.
Qed.

Lemma pushed_ids {A} (mk : nat -> nat -> A -> EndpointProviderEntry) (prefix0 : string)
  (items : list A) :
  (forall i o x, (mk i o x).(entry_id) = (prefix0 ++ nat_to_string i)%string) ->
  forall k o, map entry_id (pushed mk k o items) = ids_of prefix0 k (List.length items).
Proof.
  intros Hmk. induction items as [|x r IH]; intros k o; simpl; [reflexivity|].
  rewrite Hmk, IH. reflexivity.
Qed.

Lemma pushed_Forall {A} (P : EndpointProviderEntry -> Prop)
  (mk : nat -> nat -> A -> EndpointProviderEntry) (items : list A) :
  (forall i o x, P (mk i o x)) -> forall k o, Forall P (pushed mk k o items).
Proof.
  intros Hmk. induction items as [|x r IH]; intros k o; simpl; constructor; auto.
Qed.

Lemma length_pushed {A} (mk : nat -> nat -> A -> EndpointProviderEntry) (items : list A) :
  forall k o, List.length (pushed mk k o items) = List.length items.
Proof. induction items as [|x r IH]; intros k o; simpl; [reflexivity|]. rewrite IH. reflexivity. Qed.

Lemma buildConfiguredEntries_eq (c : Config) (b : string) (ks : list string) :
  let n1 := List.length (opt_list c.(openaiCompatibility)) in
  let n2 := List.length (opt_list c.(codexApiKeys)) in
  let n3 := List.length (opt_list c.(claudeApiKeys)) in
  let n4 := List.length (opt_list c.(geminiApiKeys)) in
  buildConfiguredEntries (Some c) b ks =
  pushed (openai_entry b ks) 0 0 (opt_list c.(openaiCompatibility)) ++
  pushed (simple_entry "codex" b ks) 0 n1 (opt_list c.(codexApiKeys)) ++
  pushed (simple_entry "claude" b ks) 0 (n1 + n2) (opt_list c.(claudeApiKeys)) ++
  pushed (simple_entry "gemini" b ks) 0 (n1 + n2 + n3) (opt_list c.(geminiApiKeys)) ++
  pushed (simple_entry "vertex" b ks) 0 (n1 + n2 + n3 + n4) (opt_list c.(vertexApiKeys)).
Proof.
  intros n1 n2 n3 n4. unfold buildConfiguredEntries. rewrite !push_each_spec. simpl.
  rewrite <- !app_assoc. reflexivity.
Qed.

Lemma string_app_assoc (a b c : string) : ((a ++ b) ++ c)%string = (a ++ (b ++ c))%string.
Proof. induction a as [|x a IH]; simpl; [reflexivity|]. rewrite IH. reflexivity. Qed.

Lemma string_app_cancel (p s1 s2 : string) : (p ++ s1)%string = (p ++ s2)%string -> s1 = s2.
Proof. induction p as [|x p IH]; simpl; intros H; [exact H|injection H as H; exact (IH H)]. Qed.

Lemma length_list_ascii (s : string) : List.length (list_ascii_of_string s) = String.length s.
Proof. induction s as [|x s IH]; simpl; [reflexivity|]. rewrite IH. reflexivity. Qed.

Lemma firstn_string_app (p s : string) (m : nat) :
  m <= String.length p ->
  firstn m (list_ascii_of_string (p ++ s)) = firstn m (list_ascii_of_string p).
Proof.
  intros Hm. rewrite list_ascii_of_string_app, firstn_app, length_list_ascii.
  replace (m - String.length p) with 0 by lia. simpl. apply app_nil_r.
Qed.

Lemma string_app_prefix_ne (p1 p2 s1 s2 : string) (m : nat) :
  m <= String.length p1 -> m <= String.length p2 ->
  firstn m (list_ascii_of_string p1) <> firstn m (list_ascii_of_string p2) ->
  (p1 ++ s1)%string <> (p2 ++ s2)%string.
Proof.
  intros H1 H2 Hne Heq. apply Hne.
  rewrite <- (firstn_string_app p1 s1 m H1), <- (firstn_string_app p2 s2 m H2), Heq.
  reflexivity.
Qed.

Lemma nat_to_string_inj (n m : nat) : nat_to_string n = nat_to_string m -> n = m.
Proof.
  unfold nat_to_string. intros H. apply (f_equal NilEmpty.uint_of_string) in H.
  rewrite !NilEmpty.usu in H. injection H as H.
  exact (DecimalNat.Unsigned.to_uint_inj n m H).
Qed.

Lemma NoDup_map_injective {A B} (f : A -> B) (l : list A) :
  (forall x y, f x = f y -> x = y) -> NoDup l -> NoDup (map f l).
Proof.
  intros Hf. induction 1 as [|x r Hx Hr IH]; simpl; constructor; [|exact IH].
  intros Hin. apply in_map_iff in Hin as [y [Hy Hin]]. apply Hf in Hy. subst y. contradiction.
Qed.

Lemma ids_of_nodup (p : string) (k n : nat) : NoDup (ids_of p k n).
Proof.
  apply NoDup_map_injective; [|apply seq_NoDup].
  intros x y H. apply nat_to_string_inj. exact (string_app_cancel p _ _ H).
Qed.

Lemma ids_of_In (p a : string) (k n : nat) :
  In a (ids_of p k n) -> exists i, a = (p ++ nat_to_string i)%string.
Proof. unfold ids_of. intros H. apply in_map_iff in H as [i [<- _]]. eauto. Qed.

(** Id lists with pairwise distinct heads of length [m] are disjoint. *)
Lemma ids_flat_nodup (m : nat) (L : list (string * nat)) :
  Forall (fun pn => m <= String.length (fst pn)) L ->
  NoDup (map (fun pn => firstn m (list_ascii_of_string (fst pn))) L) ->
  NoDup (flat_map (fun pn => ids_of (fst pn) 0 (snd pn)) L).
Proof.
  induction L as [|[p n] r IH]; simpl; intros Hl Hnd; [constructor|].
  inversion Hl as [|? ? Hp Hr]; subst. inversion Hnd as [|? ? Hh Hnr]; subst.
  apply NoDup_app; [apply ids_of_nodup|exact (IH Hr Hnr)|].
  intros a Ha Ha'. apply in_flat_map in Ha' as [[p' n'] [Hin Ha']].
  destruct (ids_of_In _ _ _ _ Ha) as [i ->]. destruct (ids_of_In _ _ _ _ Ha') as [j Hj].
  simpl in Hj. rewrite Forall_forall in Hr.
  refine (string_app_prefix_ne p p' _ _ m Hp (Hr (p', n') Hin) _ Hj).
  intros Heq. apply Hh. rewrite Heq. exact (in_map (fun pn => firstn m (list_ascii_of_string (fst pn))) r (p', n') Hin).
Qed.

Lemma buildConfiguredEntries_ids (c : Config) (b : string) (ks : list string) :
  map entry_id (buildConfiguredEntries (Some c) b ks) =
  flat_map (fun pn => ids_of (fst pn) 0 (snd pn))
    [("configured:openai:", List.length (opt_list c.(openaiCompatibility)));
     ("configured:codex:", List.length (opt_list c.(codexApiKeys)));
     ("configured:claude:", List.length (opt_list c.(claudeApiKeys)));
     ("configured:gemini:", List.length (opt_list c.(geminiApiKeys)));
     ("configured:vertex:", List.length (opt_list c.(vertexApiKeys)))].
Proof.
  rewrite buildConfiguredEntries_eq. rewrite !map_app. simpl. rewrite app_nil_r.
  rewrite (pushed_ids _ "configured:openai:") by reflexivity.
  rewrite (pushed_ids _ "configured:codex:") by reflexivity.
  rewrite (pushed_ids _ "configured:claude:") by reflexivity.
  rewrite (pushed_ids _ "configured:gemini:") by reflexivity.
  rewrite (pushed_ids _ "configured:vertex:") by reflexivity.
  reflexivity.
Qed.

Lemma buildConfiguredEntries_nodup (config : option Config) (b : string) (ks : list string) :
  NoDup (map entry_id (buildConfiguredEntries config b ks)).
Proof.
  destruct config as [c|]; [|constructor].
  rewrite buildConfiguredEntries_ids. apply (ids_flat_nodup 13).
  - repeat constructor.
  - vm_compute.
    repeat constructor; simpl; intros H; repeat destruct H as [H|H]; try discriminate H; exact H.
Qed.

Lemma buildConfiguredEntries_id_prefix (config : option Config) (b : string) (ks : list string)
  (a : string) :
  In a (map entry_id (buildConfiguredEntries config b ks)) ->
  exists p s, a = (p ++ s)%string /\ 11 <= String.length p /\
              firstn 5 (list_ascii_of_string p) = list_ascii_of_string "confi".
Proof.
  destruct config as [c|]; [|intros []].
  rewrite buildConfiguredEntries_ids. intros Ha. apply in_flat_map in Ha as [[p n] [Hin Ha]].
  destruct (ids_of_In _ _ _ _ Ha) as [i ->]. exists p, (nat_to_string i).
  split; [reflexivity|].
  simpl in Hin. destruct Hin as [H|[H|[H|[H|[H|[]]]]]];
    injection H as <- _; split; (vm_compute; reflexivity) || (simpl; lia).
Qed.

Lemma buildAuthProviderEntries_ids aF aM eM b0 k0 :
  map entry_id (buildAuthProviderEntries aF aM eM b0 k0) =
  map (fun pk => ("auth:" ++ pk)%string)
    (map fst (sort_by_order (fold_left group_step aF {| grouped := []; next_order := 0 |}).(grouped))).
Proof.
  unfold buildAuthProviderEntries. rewrite !map_map. apply map_ext. intros [pk data]. reflexivity.
Qed.

Lemma page_entries_nodup aF aM eM config b0 k0 :
  NoDup (map entry_id (page_entries aF aM eM config b0 k0)).
Proof.
  unfold page_entries. rewrite map_app. apply NoDup_app.
  - rewrite buildAuthProviderEntries_ids. apply NoDup_map_injective.
    + intros x y H. exact (string_app_cancel "auth:" x y H).
    + destruct (group_inv_build aF) as [Hnd _].
      eapply Permutation_NoDup; [|exact Hnd].
      apply Permutation_map, Permutation_sym, sort_by_order_perm.
  - apply buildConfiguredEntries_nodup.
  - intros a Ha Ha'. rewrite buildAuthProviderEntries_ids in Ha.
    apply in_map_iff in Ha as [pk [<- _]].
    destruct (buildConfiguredEntries_id_prefix config b0 k0 _ Ha') as [p [s [Heq [Hl Hp]]]].
    refine (string_app_prefix_ne "auth:" p pk s 5 _ _ _ Heq); [simpl; lia|lia|].
    rewrite Hp. vm_compute. discriminate.
Qed.

(** [buildConfiguredEntries] numbers the configured providers in push
    order: their [order] fields are 0, 1, 2, ... with one entry per
    configured item (none without a configuration); the ids are distinct;
    each entry is a configured-api entry with the page's base URL and key
    options and a non-empty display name. *)
Theorem buildConfiguredEntries_numbered (config : option Config) (b : string) (ks : list string) :
  let es := buildConfiguredEntries config b ks in
  map order es = seq 0 (List.length es) /\
  List.length es =
    match config with
    | None => 0
    | Some c => List.length (opt_list c.(openaiCompatibility)) + List.length (opt_list c.(codexApiKeys))
                + List.length (opt_list c.(claudeApiKeys)) + List.length (opt_list c.(geminiApiKeys))
                + List.length (opt_list c.(vertexApiKeys))
    end /\
  NoDup (map entry_id es) /\
  Forall (fun e => e.(sourceKind) = ConfiguredApi /\ e.(baseUrl) = b /\ e.(keyOptions) = ks /\
                   is_empty e.(entry_name) = false) es.
Proof.
  intros es. split; [|split; [|split]].
  - unfold es. destruct config as [c|]; [|reflexivity].
    rewrite buildConfiguredEntries_eq, !map_app, !length_app, !length_pushed.
    rewrite (pushed_order (openai_entry b ks) _ (fun _ _ _ => eq_refl)).
    rewrite !(fun kind => pushed_order (simple_entry kind b ks) _ (fun _ _ _ => eq_refl)).
    rewrite !seq_app. rewrite !Nat.add_0_l. reflexivity.
  - unfold es. destruct config as [c|]; [|reflexivity].
    rewrite buildConfiguredEntries_eq, !length_app, !length_pushed. lia.
  - apply buildConfiguredEntries_nodup.
  - unfold es. destruct config as [c|]; [|constructor].
    assert (Hname : forall kind i item, is_empty kind = false ->
              is_empty (resolveSimpleProviderName kind i item) = false).
    { intros kind i item Hk. unfold resolveSimpleProviderName.
      destruct (is_empty (normalizeOpt (pk_prefix item))) eqn:E1; simpl; [|exact E1].
      destruct (is_empty (normalizeOpt (pk_baseUrl item))) eqn:E2; simpl; [|exact E2].
      destruct kind; [discriminate Hk|reflexivity]. }
    rewrite buildConfiguredEntries_eq, !Forall_app. repeat split;
      try (apply pushed_Forall; intros i o x; simpl;
           split; [reflexivity|split; [reflexivity|split; [reflexivity|]]];
           apply Hname; reflexivity).
    apply pushed_Forall. intros i o x. simpl.
    split; [reflexivity|split; [reflexivity|split; [reflexivity|]]].
    destruct (is_empty (normalizeOpt (op_name x))) eqn:E; simpl; [reflexivity|exact E].
Qed.

(** The provider list [loadPageData] builds from the credential files and
    the configuration has pairwise distinct ids, whatever they hold; so the
    selection map it computes is stable, and a key chosen with
    [handleSelectKey] is still selected after the next reload. *)
Theorem page_entries_selection (aF : list AuthFileItem) (aM : dict (list OAuthModelAliasEntry))
  (eM : dict (list string)) (config : option Config) (b0 : string) (k0 : list string)
  (prev : dict Z) :
  let es := page_entries aF aM eM config b0 k0 in
  NoDup (map entry_id es) /\
  buildSelectionMap es (buildSelectionMap es prev) = buildSelectionMap es prev /\
  (forall e i, In e es ->
     dict_get (buildSelectionMap es (handleSelectKey es e.(entry_id) i prev)) e.(entry_id) =
     Some (clampKeyIndex i (Z.of_nat (List.length e.(keyOptions))))).
Proof.
  intros es. pose proof (page_entries_nodup aF aM eM config b0 k0) as Hnd. fold es in Hnd.
  split; [exact Hnd|split].
  - apply buildSelectionMap_ext. intros e He.
    unfold index_or_zero at 1. rewrite (buildSelectionMap_get es prev e Hnd He).
    apply clamp_props.
  - intros e i He. rewrite (buildSelectionMap_get es _ e Hnd He). f_equal.
    unfold index_or_zero, handleSelectKey. rewrite (handleSelectKey_find es e Hnd He).
    rewrite dict_get_set, String.eqb_refl. apply clamp_props.
Qed.


(** *** The older endpoints page *)

(** The older page's search over model groups ignores a blank search;
    otherwise every group whose label contains the keyword is shown with all
    its models, a shown group keeps its id, label and the order of its
    models, and a group left without models is shown only when its label
    matches. *)
Theorem filteredGroups_label_match (search : string) (groups : list ModelGroup) :
  (is_empty (trim search) = true -> filteredGroups search groups = groups) /\
  (is_empty (trim search) = false ->
   (forall g, In g groups ->
      includes (toLowerCase g.(group_label)) (toLowerCase (trim search)) = true ->
      In g (filteredGroups search groups)) /\
   (forall g', In g' (filteredGroups search groups) ->
      exists g keep, In g groups /\ g'.(group_id) = g.(group_id) /\
        g'.(group_label) = g.(group_label) /\ g'.(items) = filter keep g.(items) /\
        (g'.(items) = [] ->
         includes (toLowerCase g.(group_label)) (toLowerCase (trim search)) = true))).
Proof.
  unfold filteredGroups. split; [intros ->; reflexivity|]. intros Hne. rewrite Hne.
  set (q := toLowerCase (trim search)). split.
  - intros [gid gl gi] Hg Hl. simpl in Hl. apply filter_In. split.
    + apply in_map_iff. exists {| group_id := gid; group_label := gl; items := gi |}.
      split; [|exact Hg]. simpl. f_equal. apply filter_all. intros m _. rewrite Hl.
      rewrite orb_true_r; reflexivity.
    + simpl. rewrite Hl. apply orb_true_r.
  - intros g' Hg'. apply filter_In in Hg' as [Hg' Hk]. apply in_map_iff in Hg' as [g [<- Hg]].
    eexists g, _. split; [exact Hg|split; [reflexivity|split; [reflexivity|split; [reflexivity|]]]].
    simpl. intros Hnil. simpl in Hk. rewrite Hnil in Hk. exact Hk.
Qed.

Lemma legacy_keys_ok (v : jsval) : key_list_ok (LegacyApiKeys.normalizeApiKeyList v).
Proof.
  destruct v as [| | | | |items|]; try (split; constructor).
  unfold key_list_ok. rewrite LegacyApiKeys_normalize_spec.
  destruct (spec_keys_props (fun s => s) items) as [H1 H2].
  rewrite map_id in H1. split; assumption.
Qed.

Lemma key_step_run_ok (cache : list string) (s : key_step) :
  key_list_ok cache ->
  key_list_ok (fst (key_step_run cache s)) /\
  Forall (fun eff => match eff with
                     | SetApiKeys ks => key_list_ok ks
                     | FetchWithKey k => forall k0, k = Some k0 -> trim k0 = k0 /\ is_empty k0 = false
                     end) (snd (key_step_run cache s)).
Proof.
  intros Hc. destruct s as [force cfg|[l|err]|]; simpl.
  - destruct (if force then [] else cache) as [|c0 cr] eqn:E0.
    + destruct (LegacyApiKeys.normalizeApiKeyList cfg) as [|k kr] eqn:Ec.
      * split; [split; constructor|constructor].
      * rewrite <- Ec. split; [apply legacy_keys_ok|constructor; [apply legacy_keys_ok|constructor]].
    + rewrite <- E0. assert (H0 : key_list_ok (if force then [] else cache))
        by (destruct force; [split; constructor|exact Hc]).
      split; [exact H0|constructor; [exact H0|constructor]].
  - destruct (LegacyApiKeys.normalizeApiKeyList l) as [|k kr] eqn:El.
    + split; [exact Hc|constructor; [split; constructor|constructor]].
    + rewrite <- El. split; [apply legacy_keys_ok|constructor; [apply legacy_keys_ok|constructor]].
  - split; [exact Hc|constructor].
  - split; [exact Hc|]. constructor; [|constructor].
    intros k0 Hk. destruct cache as [|c cr]; [discriminate|]. injection Hk as <-.
    destruct Hc as [_ Hf]. inversion Hf; assumption.
Qed.

Lemma run_key_steps_ok (steps : list key_step) :
  forall cache, key_list_ok cache ->
  key_list_ok (fst (run_key_steps cache steps)) /\
  Forall (fun eff => match eff with
                     | SetApiKeys ks => key_list_ok ks
                     | FetchWithKey k => forall k0, k = Some k0 -> trim k0 = k0 /\ is_empty k0 = false
                     end) (snd (run_key_steps cache steps)).
Proof.
  induction steps as [|s rest IH]; intros cache Hc; simpl; [split; [exact Hc|constructor]|].
  destruct (key_step_run_ok cache s Hc) as [H1 H2].
  destruct (key_step_run cache s) as [cache1 eff1]. simpl in H1, H2.
  destruct (IH cache1 H1) as [H3 H4].
  destruct (run_key_steps cache1 rest) as [cache2 eff2]. simpl in H3, H4 |- *.
  split; [exact H3|apply Forall_app; split; assumption].
Qed.

Lemma run_key_steps_keeps (steps : list key_step) :
  Forall (fun s => forall cfg, s <> FetchStart true cfg) steps ->
  forall cache, cache <> [] -> fst (run_key_steps cache steps) <> [].
Proof.
  induction steps as [|s rest IH]; intros Hs cache Hc; simpl; [exact Hc|].
  inversion Hs as [|? ? Hs1 Hrest]; subst.
  assert (H1 : fst (key_step_run cache s) <> []).
  { destruct s as [[|] cfg|[l|err]|]; simpl.
    - exfalso. exact (Hs1 cfg eq_refl).
    - destruct cache; [contradiction|discriminate].
    - destruct (LegacyApiKeys.normalizeApiKeyList l); [exact Hc|discriminate].
    - exact Hc.
    - exact Hc. }
  destruct (key_step_run cache s) as [cache1 eff1]. simpl in H1.
  specialize (IH Hrest cache1 H1).
  destruct (run_key_steps cache1 rest) as [cache2 eff2]. exact IH.
Qed.

(** The older page's key cache under any interleaving of overlapping
    [fetchModels] calls, from the initial empty cache: the cache always
    holds distinct, trimmed, non-empty keys (or none); every [setApiKeys]
    call gets such a list; the key passed to [fetchModelsFromStore] is
    absent or such a key.  Once the cache holds keys, only a forced
    refresh ([fetchModels(true)]) empties it again. *)
Theorem fetchModels_shared_cache (steps : list key_step) :
  key_list_ok (fst (run_key_steps [] steps)) /\
  Forall (fun eff => match eff with
                     | SetApiKeys ks => key_list_ok ks
                     | FetchWithKey k => forall k0, k = Some k0 -> trim k0 = k0 /\ is_empty k0 = false
                     end) (snd (run_key_steps [] steps)) /\
  (forall cache, cache <> [] -> Forall (fun s => forall cfg, s <> FetchStart true cfg) steps ->
     fst (run_key_steps cache steps) <> []).
Proof.
  destruct (run_key_steps_ok steps [] (conj (NoDup_nil _) (Forall_nil _))) as [H1 H2].
  split; [exact H1|split; [exact H2|]].
  intros cache Hc Hs. exact (run_key_steps_keeps steps Hs cache Hc).
Qed.

(** [loadProxyApiKeys] prefers the configuration's keys, falls back to the
    key API only when the configuration has none, never fails (a rejected
    API call gives no keys), and always returns trimmed non-empty keys that
    are distinct up to case. *)
Theorem loadProxyApiKeys_normalized (cfg : jsval) (fromApi : outcome jsval) :
  (ApiKeys.normalizeApiKeyList cfg <> [] ->
     loadProxyApiKeys cfg fromApi = ApiKeys.normalizeApiKeyList cfg) /\
  (ApiKeys.normalizeApiKeyList cfg = [] ->
     loadProxyApiKeys cfg fromApi =
     match fromApi with Ok l => ApiKeys.normalizeApiKeyList l | Err _ => [] end) /\
  NoDup (map toLowerCase (loadProxyApiKeys cfg fromApi)) /\
  Forall (fun k => trim k = k /\ is_empty k = false) (loadProxyApiKeys cfg fromApi).
Proof.
  assert (Hn : forall v, NoDup (map toLowerCase (ApiKeys.normalizeApiKeyList v)) /\
    Forall (fun k => trim k = k /\ is_empty k = false) (ApiKeys.normalizeApiKeyList v)).
  { intros v. destruct v as [| | | | |items|]; try (split; constructor).
    rewrite ApiKeys_normalize_spec. apply spec_keys_props. }
  unfold loadProxyApiKeys.
  destruct (ApiKeys.normalizeApiKeyList cfg) as [|k kr] eqn:Ec.
  - split; [congruence|split; [reflexivity|]].
    destruct fromApi as [l|err]; [apply Hn|split; constructor].
  - split; [reflexivity|split; [congruence|]]. rewrite <- Ec. apply Hn.
Qed.

(** [agentSettingsApi.read] and [write] ask the local-file endpoint only
    when the primary endpoint fails with status 404; they succeed with the
    first answer that succeeds, and when they fail it is always with the
    primary endpoint's error, never the fallback's. *)
Theorem settings_call_fallback (E : Type) (status_of : E -> option Z) (A : Type)
  (respond : settings_endpoint -> api_result E A) :
  let '(calls, res) := settings_call E status_of respond in
  (In LocalFileEndpoint calls <->
   exists e, respond ClaudeSettingsEndpoint = ApiErr e /\ status_of e = Some 404%Z) /\
  (forall e, res = ApiErr e -> respond ClaudeSettingsEndpoint = ApiErr e) /\
  (forall a, res = ApiOk a ->
     respond ClaudeSettingsEndpoint = ApiOk a \/
     (respond LocalFileEndpoint = ApiOk a /\ In LocalFileEndpoint calls)).
Proof.
  unfold settings_call.
  destruct (respond ClaudeSettingsEndpoint) as [a|e] eqn:Ep.
  - split; [|split; [discriminate|intros a' H; left; injection H as <-; reflexivity]].
    split; [intros [H|[]]; discriminate H|intros [e [H _]]; discriminate H].
  - cbv zeta. destruct (status_of e) as [z|] eqn:Es.
    + destruct (Z.eqb_spec z 404) as [->|Hz].
      * destruct (respond LocalFileEndpoint) as [a|e'] eqn:El.
        -- split; [split; [intros _; exists e; auto|intros _; right; left; reflexivity]|].
           split; [discriminate|]. intros a' H. injection H as <-. right.
           split; [reflexivity|right; left; reflexivity].
        -- split; [split; [intros _; exists e; auto|intros _; right; left; reflexivity]|].
           split; [intros e'' H; injection H as <-; reflexivity|discriminate].
      * split; [split; [intros [H|[]]; discriminate H|]|].
        -- intros [e' [H1 H2]]. injection H1 as <-. rewrite Es in H2. injection H2 as H2. contradiction.
        -- split; [intros e' H; injection H as <-; reflexivity|discriminate].
    + split; [split; [intros [H|[]]; discriminate H|]|].
      * intros [e' [H1 H2]]. injection H1 as <-. rewrite Es in H2. discriminate H2.
      * split; [intros e' H; injection H as <-; reflexivity|discriminate].
Qed.
